(** * aicontract: a shallow embedding of the contract-review back end

    The development follows the JavaScript sources of the server:

    - [server/services/chunker.js]  (module [Chunker]): token estimation,
      language detection, legal-structure segmentation and chunk packing;
    - [server/services/ai.js]       (module [Ai]): the chat client [callAI]
      with its retry loop, the map step [analyzeChunk], the reduce step
      [consolidateAnalysis] and the embeddings;
    - [server/routes/documents.js]  (module [Routes]): the aggregation the
      synchronous analysis route falls back to, and the annotations of the
      export;
    - [server/services/rag.js]      (module [Rag]): cosine similarity,
      document indexing and the context of a question.

    JavaScript strings are sequences of UTF-16 code units; they are modelled
    as lists of code units ([list N]), so that [length], [substring] and the
    character classes of the regular expressions mean what they mean in the
    source.  The token counts of module [Chunker] and the scores of
    module [Ai] are exact rationals, with the IEEE special value NaN where
    the source can produce it; module [Binary64] evaluates the token
    estimate on binary64 values, to compare it with the exact one.  The
    vectors of module [Cosine] are binary64 numbers ([PrimFloat]), every
    operation rounded as the engine rounds it. *)

From Stdlib Require Import String Ascii.
From Stdlib Require Import NArith ZArith Bool Arith QArith Qround Lia DecimalString.
From Stdlib Require Qminmax Floats Uint63.
From Stdlib Require Import List Permutation Sorted.
Import ListNotations.

Set Implicit Arguments.

(* ================================================================== *)
(** * Part I.  The JavaScript platform: strings and exceptions         *)
(* ================================================================== *)

Module JS.

(** A string value: its UTF-16 code units. *)
Definition jsstring := list N.

(** Decoding of the UTF-8 bytes of a Rocq string literal into UTF-16 code
    units, so that the literals of the source can be written as they are. *)
Fixpoint utf16_of_bytes (bs : list N) : jsstring :=
  match bs with
  | [] => []
  | b0 :: r0 =>
    if (b0 <? 0x80)%N then b0 :: utf16_of_bytes r0
    else match r0 with
      | [] => []
      | b1 :: r1 =>
        if (b0 <? 0xE0)%N then
          N.lor (N.shiftl (N.land b0 0x1F) 6) (N.land b1 0x3F)
            :: utf16_of_bytes r1
        else match r1 with
          | [] => []
          | b2 :: r2 =>
            if (b0 <? 0xF0)%N then
              N.lor (N.shiftl (N.land b0 0x0F) 12)
                (N.lor (N.shiftl (N.land b1 0x3F) 6) (N.land b2 0x3F))
                :: utf16_of_bytes r2
            else match r2 with
              | [] => []
              | b3 :: r3 =>
                let cp :=
                  N.lor (N.shiftl (N.land b0 0x07) 18)
                    (N.lor (N.shiftl (N.land b1 0x3F) 12)
                       (N.lor (N.shiftl (N.land b2 0x3F) 6) (N.land b3 0x3F))) in
                let v := (cp - 0x10000)%N in
                (0xD800 + N.shiftr v 10)%N :: (0xDC00 + N.land v 0x3FF)%N
                  :: utf16_of_bytes r3
              end
          end
      end
  end.

Definition js (s : string) : jsstring :=
  utf16_of_bytes (map N_of_ascii (list_ascii_of_string s)).

Definition str_eqb (a b : jsstring) : bool :=
  if list_eq_dec N.eq_dec a b then true else false.

(** Membership of a code unit in a character class given by its members. *)
Definition inClass (cls : jsstring) (c : N) : bool := existsb (N.eqb c) cls.

(** [\s] of a regular expression, and the characters [trim] removes:
    WhiteSpace and LineTerminator of ECMA-262. *)
Definition isSpace (c : N) : bool :=
  inClass [0x09; 0x0A; 0x0B; 0x0C; 0x0D; 0x20; 0xA0; 0x1680; 0x2028; 0x2029;
           0x202F; 0x205F; 0x3000; 0xFEFF]%N c
  || ((0x2000 <=? c) && (c <=? 0x200A))%N.

(** [\d] *)
Definition isDigit (c : N) : bool := ((0x30 <=? c) && (c <=? 0x39))%N.

(** [[A-Z]] *)
Definition isUpperAZ (c : N) : bool := ((0x41 <=? c) && (c <=? 0x5A))%N.

(** Line terminators: the characters [.] does not match. *)
Definition isLineTerminator (c : N) : bool :=
  inClass [0x0A; 0x0D; 0x2028; 0x2029]%N c.

(** Canonicalisation of a code unit for a case-insensitive, non-unicode
    match against a pattern made of ASCII characters: only the ASCII letters
    a-z map onto A-Z. *)
Definition canonicalize (c : N) : N :=
  if ((0x61 <=? c) && (c <=? 0x7A))%N then (c - 0x20)%N else c.

Fixpoint dropWhile {A} (p : A -> bool) (l : list A) : list A :=
  match l with
  | [] => []
  | x :: r => if p x then dropWhile p r else l
  end.

Fixpoint takeWhile {A} (p : A -> bool) (l : list A) : list A :=
  match l with
  | [] => []
  | x :: r => if p x then x :: takeWhile p r else []
  end.

(** [String.prototype.trim] *)
Definition trim (s : jsstring) : jsstring :=
  rev (dropWhile isSpace (rev (dropWhile isSpace s))).

(** [s.startsWith(p)], also the test of an anchored literal [/^p/]. *)
Fixpoint startsWith (p s : jsstring) : bool :=
  match p, s with
  | [], _ => true
  | _ :: _, [] => false
  | a :: p', b :: s' => (a =? b)%N && startsWith p' s'
  end.

(** The same test without regard to the case of ASCII letters ([/^p/i]). *)
Fixpoint startsWithCI (p s : jsstring) : bool :=
  match p, s with
  | [], _ => true
  | _ :: _, [] => false
  | a :: p', b :: s' =>
      (canonicalize a =? canonicalize b)%N && startsWithCI p' s'
  end.

(** [s.includes(p)] *)
Fixpoint includes (s p : jsstring) : bool :=
  startsWith p s ||
  match s with
  | [] => false
  | _ :: s' => includes s' p
  end.

(** [s.substring(0, n)] *)
Definition substring0 (n : nat) (s : jsstring) : jsstring := firstn n s.

(** ** [String.prototype.split] with a regular expression

    A regular expression is given by its matcher at one position: from the
    text before the position (reversed, for look-behind) and the text from
    the position on, the length of the match and its captures. *)
Definition matcher := jsstring -> jsstring -> option (nat * list jsstring).

(** The loop of [RegExp.prototype[@@split]] (ECMA-262, 22.2.6.14).  [before]
    is the text before position [q], reversed; [piece] the text between the
    end [p] of the last separator and [q], reversed; [skip] counts the code
    units of the current separator still ahead.  A match of length 0 at
    [q = p] is passed over ([e = p] in the standard), and so is the match the
    standard finds again right after an empty separator. *)
Fixpoint split_go (m : matcher) (before piece : jsstring) (skip : nat)
    (s : jsstring) : list jsstring :=
  match s with
  | [] => [rev piece]
  | c :: s' =>
    match skip with
    | S k => split_go m (c :: before) piece k s'
    | O =>
      match m before s with
      | None => split_go m (c :: before) (c :: piece) 0 s'
      | Some (O, caps) =>
        match piece with
        | [] => split_go m (c :: before) [c] 0 s'
        | _ :: _ => rev piece :: caps ++ split_go m (c :: before) [c] 0 s'
        end
      | Some (S k, caps) =>
        rev piece :: caps ++ split_go m (c :: before) [] k s'
      end
    end
  end.

Definition split (m : matcher) (s : jsstring) : list jsstring :=
  match s with
  | [] => match m [] [] with Some _ => [] | None => [[]] end
  | _ :: _ => split_go m [] [] 0 s
  end.

(** [parts.join(sep)] *)
Fixpoint join (sep : jsstring) (parts : list jsstring) : jsstring :=
  match parts with
  | [] => []
  | [p] => p
  | p :: rest => p ++ sep ++ join sep rest
  end.

(** The literals ['\n'], ['\n\n'] and [' ']. *)
Definition LF : jsstring := [0x0A%N].
Definition LFLF : jsstring := [0x0A%N; 0x0A%N].
Definition SP : jsstring := [0x20%N].

(** Truthiness of a string: the empty string is falsy. *)
Definition truthy (s : jsstring) : bool :=
  match s with [] => false | _ :: _ => true end.

(** [arr.map((x, idx) => f(x, idx))], the index counted from [i]. *)
Fixpoint mapi_from {A B} (f : A -> nat -> B) (i : nat) (l : list A) : list B :=
  match l with
  | [] => []
  | x :: r => f x i :: mapi_from f (S i) r
  end.

(** [arr[arr.length - 1]]; [None] is [undefined]. *)
Definition lastElem {A} (l : list A) : option A :=
  match rev l with [] => None | x :: _ => Some x end.

(** An error object: the two properties the sources read. *)
Record Error : Type := mkError {
  err_code : option jsstring;
  err_message : option jsstring
}.

(** The TypeError of a property read on [undefined] or [null], or of a call
    of something that is no function. *)
Definition TypeError (msg : string) : Error :=
  {| err_code := None; err_message := Some (js msg) |}.

(** Completion of a computation that may throw. *)
Inductive result (E A : Type) : Type :=
| Ok (a : A)
| Throw (e : E).
Arguments Ok {E A} a.
Arguments Throw {E A} e.

Definition bindR {E A B} (r : result E A) (k : A -> result E B) : result E B :=
  match r with
  | Ok a => k a
  | Throw e => Throw e
  end.

(** [xs.map(f)] for an [f] that may throw. *)
Fixpoint mapR {E A B} (f : A -> result E B) (xs : list A) : result E (list B) :=
  match xs with
  | [] => Ok []
  | x :: rest =>
    bindR (f x) (fun y => bindR (mapR f rest) (fun ys => Ok (y :: ys)))
  end.

(** The slices [xs.slice(i, i + size)] for [i = 0, size, 2 * size, ...]
    below [xs.length]; the loop makes at most [xs.length] turns. *)
Fixpoint slicesFrom {A} (turns size : nat) (xs : list A) : list (list A) :=
  match turns with
  | O => []
  | S turns' =>
    match xs with
    | [] => []
    | _ :: _ => firstn size xs :: slicesFrom turns' size (skipn size xs)
    end
  end.

Definition slices {A} (size : nat) (xs : list A) : list (list A) :=
  slicesFrom (length xs) size xs.

(** ** Numbers and parsed JSON

    A number is a rational or NaN.  A parsed JSON value is what
    [JSON.parse] returns; [JUndefined] is what reading a missing property
    gives.  An object is the list of its properties, the first binding of a
    key being the property. *)
Inductive number : Type :=
| Fin (q : Q)
| NaN.

#[warnings="-register-all"]
Inductive json : Type :=
| JUndefined
| JNull
| JBool (b : bool)
| JNum (n : number)
| JStr (s : jsstring)
| JArr (items : list json)
| JObj (fields : list (jsstring * json)).

(** Truthiness: [undefined], [null], [false], [0], [NaN] and [''] are falsy. *)
Definition truthyV (v : json) : bool :=
  match v with
  | JUndefined | JNull => false
  | JBool b => b
  | JNum (Fin q) => negb (Qeq_bool q 0)
  | JNum NaN => false
  | JStr s => truthy s
  | JArr _ | JObj _ => true
  end.

(** [v || d] *)
Definition orElse (v d : json) : json := if truthyV v then v else d.

Fixpoint lookup (k : jsstring) (fields : list (jsstring * json)) : json :=
  match fields with
  | [] => JUndefined
  | (k', v) :: rest => if str_eqb k k' then v else lookup k rest
  end.

(** [v.k] for the property names the sources read: none of them is a
    property of a string, a number, a boolean or an array. *)
Definition getProp (v : json) (k : string) : result Error json :=
  match v with
  | JUndefined | JNull =>
    Throw (TypeError "Cannot read properties of undefined or null")
  | JObj fields => Ok (lookup (js k) fields)
  | _ => Ok JUndefined
  end.

(** [v?.k] *)
Definition getPropOpt (v : json) (k : string) : json :=
  match v with
  | JObj fields => lookup (js k) fields
  | _ => JUndefined
  end.

(** [v[0]] *)
Definition getFirst (v : json) : result Error json :=
  match v with
  | JUndefined | JNull =>
    Throw (TypeError "Cannot read properties of undefined or null")
  | JArr items => Ok (match items with [] => JUndefined | x :: _ => x end)
  | JStr s => Ok (match s with [] => JUndefined | c :: _ => JStr [c] end)
  | JObj fields => Ok (lookup (js "0") fields)
  | _ => Ok JUndefined
  end.

(** [v?.[0]] *)
Definition getFirstOpt (v : json) : json :=
  match getFirst v with Ok x => x | Throw _ => JUndefined end.

(** [v === 'lit'] *)
Definition isStr (lit : string) (v : json) : bool :=
  match v with
  | JStr s => str_eqb s (js lit)
  | _ => false
  end.

(** ** Conversion to a string

    The conversion of an object or an array to a string, in a template
    literal or in [join], calls its [toString] method: the one of
    [Object.prototype] or of [Array.prototype], unless the value has a
    property of that name of its own, which in a parsed JSON value is
    never a function.  The conversion of such an object throws a
    TypeError, and so does the conversion of an array that holds one,
    [join] converting the elements that are not [null]. *)
Fixpoint convertible (v : json) : bool :=
  match v with
  | JObj fields =>
    negb (existsb (fun kv => str_eqb (fst kv) (js "toString")) fields)
  | JArr items =>
    (fix all (l : list json) : bool :=
       match l with
       | [] => true
       | x :: rest => convertible x && all rest
       end) items
  | _ => true
  end.

Definition conversionError : Error :=
  TypeError "Cannot convert object to primitive value".

(** The conversion of [v], for what it throws. *)
Definition checkConvertible (v : json) : result Error unit :=
  if convertible v then Ok tt else Throw conversionError.

End JS.

Import JS.

(* ================================================================== *)
(** * Part II.  server/services/chunker.js                              *)
(* ================================================================== *)

Module Chunker.

(** [/[一-鿿]/] *)
Definition isCJK (c : N) : bool := ((0x4E00 <=? c) && (c <=? 0x9FFF))%N.

(** [(text.match(/[一-鿿]/g) || []).length] *)
Definition chineseChars (text : jsstring) : nat := length (filter isCJK text).

(** [estimateTokens]: the two products and the sum are computed on exact
    rationals. *)
Definition estimateTokens (text : jsstring) : Z :=
  let chinese := Z.of_nat (chineseChars text) in
  let otherChars := (Z.of_nat (length text) - chinese)%Z in
  Qceiling (inject_Z chinese * (7 # 10) + inject_Z otherChars * (25 # 100)).

Inductive Lang : Type := zh | en.

(** The quotient [chineseChars / text.length]: [None] is NaN, the value of
    [0 / 0]; the divisor is 0 only when the dividend is. *)
Definition ratio (num den : nat) : option Q :=
  match den with
  | O => None
  | S _ => Some (Z.of_nat num # Pos.of_nat den)
  end.

(** [detectLanguage]; a comparison with NaN is false. *)
Definition detectLanguage (text : jsstring) : Lang :=
  match ratio (chineseChars text) (length text) with
  | Some r => if Qle_bool r (3 # 10) then en else zh
  | None => en
  end.

(** ** Legal clause patterns ([LEGAL_PATTERNS])

    Each regular expression is used through [test] on a trimmed line and is
    anchored at the start.  A greedy repetition is followed by a class
    disjoint from the repeated one in each of them, so the longest run is
    the only candidate and no backtracking takes place. *)

(** [^c+d]: one or more of [c], then one of [d] (for disjoint [c], [d]). *)
Definition plusThen (c d : N -> bool) (s : jsstring) : bool :=
  match s with
  | [] => false
  | x :: r =>
    c x && match dropWhile c r with
           | [] => false
           | y :: _ => d y
           end
  end.

Definition zhNumeral (c : N) : bool :=
  inClass (js "一二三四五六七八九十百千零") c || isDigit c.

Definition zhClauseNumeral (c : N) : bool :=
  inClass (js "一二三四五六七八九十") c || isDigit c.

Definition zhBracket (c : N) : bool := inClass (js "【】「」『』【】") c.

(** [/^第[一二三四五六七八九十百千零\d]+[条章节款项]/] *)
Definition zh_article (s : jsstring) : bool :=
  match s with
  | [] => false
  | c :: r => (c =? 0x7B2C)%N && plusThen zhNumeral (inClass (js "条章节款项")) r
  end.

(** [/^[（\(]?[一二三四五六七八九十\d]+[）\)、．.]/]: the optional bracket is no
    numeral, so it is taken whenever it is there. *)
Definition zh_numberedClause (s : jsstring) : bool :=
  let closer := inClass (js "）)、．.") in
  match s with
  | [] => false
  | c :: r =>
    if inClass (js "（(") c then plusThen zhClauseNumeral closer r
    else plusThen zhClauseNumeral closer s
  end.

(** [/^[【】「」『』【】].*?[【】「」『』【】]$/]: a bracket first and last, and no
    line terminator in between ([.] matches none, [$] is the end of the
    line as there is no [m] flag). *)
Definition zh_sectionHeader (s : jsstring) : bool :=
  match s with
  | [] => false
  | c :: r =>
    zhBracket c &&
    match rev r with
    | [] => false
    | l :: mid => zhBracket l && forallb (fun x => negb (isLineTerminator x)) mid
    end
  end.

(** [/^(甲方|乙方|丙方|签章|签字|盖章|日期|地址)/] *)
Definition zh_signature (s : jsstring) : bool :=
  existsb (fun p => startsWith (js p) s)
    ["甲方"; "乙方"; "丙方"; "签章"; "签字"; "盖章"; "日期"; "地址"]%string.

(** [/^(Article|Section|ARTICLE|SECTION)\s*[\d.]+/i] *)
Definition en_article (s : jsstring) : bool :=
  existsb
    (fun p =>
       startsWithCI (js p) s &&
       match dropWhile isSpace (skipn (length (js p)) s) with
       | [] => false
       | c :: _ => isDigit c || (c =? 0x2E)%N
       end)
    ["Article"; "Section"; "ARTICLE"; "SECTION"]%string.

(** [/^\d+[\.\)]\s+/] *)
Definition en_numberedClause (s : jsstring) : bool :=
  match s with
  | [] => false
  | c :: r =>
    isDigit c &&
    match dropWhile isDigit r with
    | d :: w :: _ => inClass (js ".)") d && isSpace w
    | _ => false
    end
  end.

(** [/^[A-Z][A-Z\s]+$/] *)
Definition en_sectionHeader (s : jsstring) : bool :=
  match s with
  | c :: (_ :: _) as r =>
    isUpperAZ c && forallb (fun x => isUpperAZ x || isSpace x) r
  | _ => false
  end.

(** [/^(IN WITNESS WHEREOF|EXECUTED|Signature|Date|Address)/i] *)
Definition en_signature (s : jsstring) : bool :=
  existsb (fun p => startsWithCI (js p) s)
    ["IN WITNESS WHEREOF"; "EXECUTED"; "Signature"; "Date"; "Address"]%string.

(** The pattern set of a language; [subClause] is tested nowhere in the
    module and is left out. *)
Record Patterns : Type := {
  article : jsstring -> bool;
  numberedClause : jsstring -> bool;
  sectionHeader : jsstring -> bool;
  signature : jsstring -> bool
}.

Definition LEGAL_PATTERNS (lang : Lang) : Patterns :=
  match lang with
  | zh => {| article := zh_article; numberedClause := zh_numberedClause;
             sectionHeader := zh_sectionHeader; signature := zh_signature |}
  | en => {| article := en_article; numberedClause := en_numberedClause;
             sectionHeader := en_sectionHeader; signature := en_signature |}
  end.

(** ** Segments *)

Inductive SegType : Type := tContent | tArticle | tClause | tHeader | tSignature.
Inductive Importance : Type := iNormal | iHigh | iLow.

Definition SegType_eqb (a b : SegType) : bool :=
  match a, b with
  | tContent, tContent | tArticle, tArticle | tClause, tClause
  | tHeader, tHeader | tSignature, tSignature => true
  | _, _ => false
  end.

Record Segment : Type := {
  seg_type : SegType;
  seg_content : jsstring;
  seg_importance : Importance
}.

(** [/\r?\n/] *)
Definition lineBreak : matcher := fun _ s =>
  match s with
  | 0x0A%N :: _ => Some (1%nat, [])
  | 0x0D%N :: 0x0A%N :: _ => Some (2%nat, [])
  | _ => None
  end.

(** The type and importance a structural line announces. *)
Definition classifyLine (patterns : Patterns) (trimmedLine : jsstring)
  : option (SegType * Importance) :=
  if article patterns trimmedLine then Some (tArticle, iHigh)
  else if numberedClause patterns trimmedLine then Some (tClause, iHigh)
  else if sectionHeader patterns trimmedLine then Some (tHeader, iHigh)
  else if signature patterns trimmedLine then Some (tSignature, iLow)
  else None.

(** One turn of the loop over the lines of [identifyLegalStructure]: the
    state is [segments] and [currentSegment]. *)
Definition lineStep (patterns : Patterns)
    (st : list Segment * Segment) (line : jsstring) : list Segment * Segment :=
  let '(segments, currentSegment) := st in
  let trimmedLine := trim line in
  if negb (truthy trimmedLine) then
    if truthy (seg_content currentSegment) then
      (segments,
       {| seg_type := seg_type currentSegment;
          seg_content := seg_content currentSegment ++ LF;
          seg_importance := seg_importance currentSegment |})
    else st
  else
    let extended :=
      seg_content currentSegment
      ++ (if truthy (seg_content currentSegment) then LF else [])
      ++ trimmedLine in
    match classifyLine patterns trimmedLine with
    | Some (newSegmentType, importance) =>
      if truthy (trim (seg_content currentSegment)) then
        (segments ++ [currentSegment],
         {| seg_type := newSegmentType; seg_content := trimmedLine;
            seg_importance := importance |})
      else
        (segments,
         {| seg_type := newSegmentType; seg_content := extended;
            seg_importance := importance |})
    | None =>
      (segments,
       {| seg_type := seg_type currentSegment; seg_content := extended;
          seg_importance := seg_importance currentSegment |})
    end.

Definition identifyLegalStructure (text : jsstring) (lang : Lang)
  : list Segment :=
  let patterns := LEGAL_PATTERNS lang in
  let lines := split lineBreak text in
  let '(segments, currentSegment) :=
    fold_left (lineStep patterns) lines
      ([], {| seg_type := tContent; seg_content := [];
              seg_importance := iNormal |}) in
  if truthy (trim (seg_content currentSegment))
  then segments ++ [currentSegment] else segments.

(** ** Sentences *)

(** [/([。！？；;!?])/]: the terminator is captured, so [split] returns it
    between the pieces. *)
Definition sentenceEnders : matcher := fun _ s =>
  match s with
  | c :: _ => if inClass (js "。！？；;!?") c then Some (1%nat, [[c]]) else None
  | [] => None
  end.

(** The pieces of [split] taken two by two: [parts[i] + (parts[i + 1] || '')]. *)
Fixpoint pairUp (parts : list jsstring) : list jsstring :=
  match parts with
  | a :: b :: rest => (a ++ b) :: pairUp rest
  | [a] => [a]
  | [] => []
  end.

Definition splitChineseSentences (text : jsstring) : list jsstring :=
  let parts := split sentenceEnders text in
  map trim (filter (fun sentence => truthy (trim sentence)) (pairUp parts)).

(** A look-behind [(?<=[cls])] followed by a run of white space of at least
    [least] code units. *)
Definition afterTerminator (cls : jsstring) (least : nat) : matcher :=
  fun before s =>
    match before with
    | c :: _ =>
      let n := length (takeWhile isSpace s) in
      if inClass cls c && (least <=? n)%nat then Some (n, []) else None
    | [] => None
    end.

(** [/(?<=[.!?;])\s+/] *)
Definition enSentenceBreak : matcher := afterTerminator (js ".!?;") 1.

(** [/(?<=[。！？.!?;；])\s*/] *)
Definition overlapBreak : matcher := afterTerminator (js "。！？.!?;；") 0.

(** ** Chunks *)

Record Config : Type := {
  maxChunkTokens : Z;
  overlapTokens : Z;
  minChunkTokens : Z;
  promptReserve : Z;
  responseReserve : Z
}.

Definition CHUNK_CONFIG : Config :=
  {| maxChunkTokens := 6000; overlapTokens := 300; minChunkTokens := 800;
     promptReserve := 1000; responseReserve := 1500 |}.

(** The accumulator [currentChunk] (and a sub-chunk of [splitLongSegment]).
    [hasOverlap] is absent from the objects built without it, where
    [finalizeChunk] reads it as [false]; [startIndex] is never read. *)
Record Acc : Type := {
  content : jsstring;
  tokens : Z;
  segments : list SegType;
  importance : Importance;
  hasOverlap : bool
}.

Record Metadata : Type := {
  chunkIndex : nat;
  md_tokens : Z;
  segmentTypes : list SegType;
  md_importance : Importance;
  md_hasOverlap : bool;
  charCount : nat
}.

Record Chunk : Type := {
  chunk_content : jsstring;
  metadata : Metadata
}.

(** [[...new Set(xs)]]: the first occurrence of each element, in order. *)
Fixpoint uniqueTypes (seen xs : list SegType) : list SegType :=
  match xs with
  | [] => []
  | x :: r =>
    if existsb (SegType_eqb x) seen then uniqueTypes seen r
    else x :: uniqueTypes (x :: seen) r
  end.

Definition finalizeChunk (chunk : Acc) (index : nat) : Chunk :=
  {| chunk_content := content chunk;
     metadata :=
       {| chunkIndex := index;
          md_tokens := estimateTokens (content chunk);
          segmentTypes := uniqueTypes [] (segments chunk);
          md_importance := importance chunk;
          md_hasOverlap := hasOverlap chunk;
          charCount := length (content chunk) |} |}.

(** The loop of [extractOverlap], from the last sentence backwards. *)
Fixpoint overlapLoop (targetTokens : Z) (backwards : list jsstring)
    (overlapContent : jsstring) (tokens : Z) : jsstring :=
  match backwards with
  | [] => overlapContent
  | sentence :: rest =>
    if (tokens <? targetTokens)%Z then
      overlapLoop targetTokens rest
        (sentence ++ (if truthy overlapContent then SP ++ overlapContent else []))
        (tokens + estimateTokens sentence)%Z
    else overlapContent
  end.

Definition extractOverlap (content : jsstring) (targetTokens : Z) : jsstring :=
  let sentences := split overlapBreak content in
  overlapLoop targetTokens (rev sentences) [] 0.

Definition overlapMarker : jsstring := js "[上文续] ".

Definition emptyChunk : Acc :=
  {| content := []; tokens := 0; segments := []; importance := iNormal;
     hasOverlap := false |}.

Definition createOverlapChunk (previousChunk : Acc) (config : Config) : Acc :=
  if negb (truthy (content previousChunk)) then emptyChunk
  else
    let overlapContent :=
      extractOverlap (content previousChunk) (overlapTokens config) in
    {| content :=
         if truthy overlapContent then overlapMarker ++ overlapContent else [];
       tokens := estimateTokens overlapContent;
       segments := [];
       importance := iNormal;
       hasOverlap := truthy overlapContent |}.

(** One turn of the loop over the sentences of [splitLongSegment]. *)
Definition sentenceStep (segment : Segment) (config : Config)
    (st : list Acc * Acc) (sentence : jsstring) : list Acc * Acc :=
  let '(subChunks, currentSubChunk) := st in
  let sentenceTokens := estimateTokens sentence in
  if (tokens currentSubChunk + sentenceTokens <=? maxChunkTokens config)%Z then
    (subChunks,
     {| content :=
          content currentSubChunk
          ++ (if truthy (content currentSubChunk) then SP else [])
          ++ sentence;
        tokens := tokens currentSubChunk + sentenceTokens;
        segments := segments currentSubChunk;
        importance := importance currentSubChunk;
        hasOverlap := false |})
  else
    (if truthy (content currentSubChunk)
     then subChunks ++ [currentSubChunk] else subChunks,
     {| content := sentence; tokens := sentenceTokens;
        segments := [seg_type segment];
        importance := seg_importance segment;
        hasOverlap := false |}).

(** The local [sentences] of [splitLongSegment]. *)
Definition sentencesOf (lang : Lang) (segment : Segment) : list jsstring :=
  match lang with
  | zh => splitChineseSentences (seg_content segment)
  | en => split enSentenceBreak (seg_content segment)
  end.

Definition splitLongSegment (segment : Segment) (config : Config) (lang : Lang)
  : list Acc :=
  let sentences := sentencesOf lang segment in
  let '(subChunks, currentSubChunk) :=
    fold_left (sentenceStep segment config) sentences
      ([], {| content := []; tokens := 0; segments := [seg_type segment];
              importance := seg_importance segment; hasOverlap := false |}) in
  if truthy (content currentSubChunk)
  then subChunks ++ [currentSubChunk] else subChunks.

(** [if (currentChunk.content) chunks.push(finalizeChunk(currentChunk, chunks.length))] *)
Definition pushCurrent (chunks : list Chunk) (currentChunk : Acc) : list Chunk :=
  if truthy (content currentChunk)
  then chunks ++ [finalizeChunk currentChunk (length chunks)]
  else chunks.

(** One turn of the loop over the segments of [smartChunk]: the state is
    [chunks] and [currentChunk].  The turn throws when [splitLongSegment]
    returns no sub-chunk, on reading [content] of [undefined]. *)
Definition chunkStep (config : Config) (lang : Lang)
    (st : list Chunk * Acc) (segment : Segment)
  : result Error (list Chunk * Acc) :=
  let '(chunks, currentChunk) := st in
  let segmentTokens := estimateTokens (seg_content segment) in
  if (segmentTokens >? maxChunkTokens config)%Z then
    let chunks := pushCurrent chunks currentChunk in
    let subChunks := splitLongSegment segment config lang in
    let chunks' :=
      chunks ++ mapi_from (fun c idx => finalizeChunk c (length chunks + idx))
                  0 subChunks in
    match lastElem subChunks with
    | Some lastSub => Ok (chunks', createOverlapChunk lastSub config)
    | None =>
      Throw (TypeError "Cannot read properties of undefined (reading 'content')")
    end
  else if (tokens currentChunk + segmentTokens <=? maxChunkTokens config)%Z then
    Ok (chunks,
        {| content :=
             content currentChunk
             ++ (if truthy (content currentChunk) then LFLF else [])
             ++ seg_content segment;
           tokens := tokens currentChunk + segmentTokens;
           segments := segments currentChunk ++ [seg_type segment];
           importance :=
             match seg_importance segment with
             | iHigh => iHigh
             | _ => importance currentChunk
             end;
           hasOverlap := hasOverlap currentChunk |})
  else
    let chunks := pushCurrent chunks currentChunk in
    let overlap := createOverlapChunk currentChunk config in
    let content' :=
      content overlap
      ++ (if truthy (content overlap) then LFLF else [])
      ++ seg_content segment in
    Ok (chunks,
        {| content := content';
           tokens := estimateTokens content';
           segments := [seg_type segment];
           importance := seg_importance segment;
           hasOverlap := hasOverlap overlap |}).

(** The loop over the segments. *)
Fixpoint chunkLoop (config : Config) (lang : Lang)
    (st : list Chunk * Acc) (segs : list Segment)
  : result Error (list Chunk * Acc) :=
  match segs with
  | [] => Ok st
  | segment :: rest =>
    match chunkStep config lang st segment with
    | Ok st' => chunkLoop config lang st' rest
    | Throw e => Throw e
    end
  end.

(** [lastChunk.content += '\n\n' + currentChunk.content;
     lastChunk.metadata.tokens = estimateTokens(lastChunk.content)] *)
Definition mergeInto (lastChunk : Chunk) (currentChunk : Acc) : Chunk :=
  let content' := chunk_content lastChunk ++ LFLF ++ content currentChunk in
  let md := metadata lastChunk in
  {| chunk_content := content';
     metadata :=
       {| chunkIndex := chunkIndex md;
          md_tokens := estimateTokens content';
          segmentTypes := segmentTypes md;
          md_importance := md_importance md;
          md_hasOverlap := md_hasOverlap md;
          charCount := charCount md |} |}.

(** The statements after the loop ("添加最后一个分块"). *)
Definition finalFlush (config : Config) (chunks : list Chunk)
    (currentChunk : Acc) : list Chunk :=
  if truthy (content currentChunk)
     && (tokens currentChunk >=? minChunkTokens config)%Z
  then chunks ++ [finalizeChunk currentChunk (length chunks)]
  else if truthy (content currentChunk) && (0 <? length chunks)%nat then
    match rev chunks with
    | lastChunk :: front => rev front ++ [mergeInto lastChunk currentChunk]
    | [] => chunks
    end
  else chunks.

Definition initialChunk : Acc := emptyChunk.

(** [smartChunk(text, options)], [config] being [{ ...CHUNK_CONFIG, ...options }]. *)
Definition smartChunk (text : jsstring) (config : Config)
  : result Error (list Chunk) :=
  let lang := detectLanguage text in
  let segments := identifyLegalStructure text lang in
  match chunkLoop config lang ([], initialChunk) segments with
  | Ok (chunks, currentChunk) => Ok (finalFlush config chunks currentChunk)
  | Throw e => Throw e
  end.

(* ------------------------------------------------------------------ *)
(** ** The prompt note of a chunk and the statistics of a document *)

(** [segmentTypes.includes(t)] *)
Definition includesType (t : SegType) (types : list SegType) : bool :=
  existsb (SegType_eqb t) types.

Definition clauseNote : jsstring :=
  js "重点关注条款的权利义务分配、违约责任界定、条款有效性".
Definition headerNote : jsstring :=
  js "注意该部分在整体合同中的地位和与其他条款的关联".
Definition signatureNote : jsstring := js "检查签署要件的完整性、生效条件".
Definition keyClauseNote : jsstring := js "此为关键条款，需进行深度分析".
Definition overlapNote : jsstring :=
  js "此分块与上一分块有内容重叠，请注意避免重复分析".
Definition fullReviewNote : jsstring := js "对本段进行全面审查".

(** The array [contexts] of [getChunkPromptContext]. *)
Definition promptContexts (chunk : Chunk) : list jsstring :=
  let segmentTypes := segmentTypes (metadata chunk) in
  (if includesType tArticle segmentTypes || includesType tClause segmentTypes
   then [clauseNote] else [])
  ++ (if includesType tHeader segmentTypes then [headerNote] else [])
  ++ (if includesType tSignature segmentTypes then [signatureNote] else [])
  ++ (match md_importance (metadata chunk) with
      | iHigh => [keyClauseNote]
      | _ => []
      end)
  ++ (if md_hasOverlap (metadata chunk) then [overlapNote] else []).

(** [getChunkPromptContext(chunk)] for a chunk with its metadata. *)
Definition getChunkPromptContext (chunk : Chunk) : jsstring :=
  match promptContexts chunk with
  | [] => fullReviewNote
  | contexts => join (js "；") contexts
  end.

(** The statistics [analyzeDocument] returns. *)
Record DocAnalysis : Type := {
  language : Lang;
  totalChars : nat;
  estimatedTokens : Z;
  segmentCount : nat;
  da_chunkCount : nat;
  da_chunks : list Chunk;
  da_segmentTypes : list SegType;
  averageChunkTokens : number
}.

(** [Math.round(chunks.reduce((sum, c) => sum + c.metadata.tokens, 0)
     / chunks.length)]; [0 / 0] is NaN. *)
Definition averageTokens (chunks : list Chunk) : number :=
  match chunks with
  | [] => NaN
  | _ :: _ =>
    let sum := fold_left (fun sum c => (sum + md_tokens (metadata c))%Z) chunks 0%Z in
    Fin (inject_Z (Qfloor (inject_Z sum / inject_Z (Z.of_nat (length chunks))
                           + (1 # 2))%Q))
  end.

Definition analyzeDocument (text : jsstring) : result Error DocAnalysis :=
  let lang := detectLanguage text in
  let segments := identifyLegalStructure text lang in
  bindR (smartChunk text CHUNK_CONFIG) (fun chunks =>
  Ok {| language := lang;
        totalChars := length text;
        estimatedTokens := estimateTokens text;
        segmentCount := length segments;
        da_chunkCount := length chunks;
        da_chunks := chunks;
        da_segmentTypes := map seg_type segments;
        averageChunkTokens := averageTokens chunks |}).

End Chunker.

(** ** The token estimate on binary64 values

    [Chunker.estimateTokens] computes on exact rationals.  The engine
    evaluates [chineseChars * 0.7 + otherChars * 0.25] on binary64 values,
    each operation rounded to nearest; here is that expression on the
    binary64 primitives, to compare the two. *)
Module Binary64.
Import PrimFloat.

(** The binary64 value of an integer; it is exact below 2^53. *)
Definition ofZ (z : Z) : float :=
  if (z <? 0)%Z then opp (of_uint63 (Uint63.of_Z (- z)))
  else of_uint63 (Uint63.of_Z z).

(** [chineseChars * 0.7 + otherChars * 0.25] *)
#[warnings="-inexact-float"]
Definition weighted (chineseChars otherChars : Z) : float :=
  (ofZ chineseChars * 0.7 + ofZ otherChars * 0.25)%float.

(** [Math.ceil(x) === n] for an integer [n], that is [n - 1 < x <= n]. *)
Definition ceilIs (x : float) (n : Z) : bool :=
  ltb (ofZ (n - 1)) x && leb x (ofZ n).

(** [estimateTokens(text) === n] *)
Definition estimateTokensIs (text : jsstring) (n : Z) : bool :=
  let chinese := Z.of_nat (Chunker.chineseChars text) in
  let otherChars := (Z.of_nat (length text) - chinese)%Z in
  ceilIs (weighted chinese otherChars) n.

End Binary64.

(* ================================================================== *)
(** * Part III.  The world outside: HTTP, timers and the database       *)
(* ================================================================== *)

Module Eff.

(** What the network does with one request: it answers with a status and
    a body, or the request fails with an error. *)
Inductive NetOutcome : Type :=
| Reply (status : Z) (data : json)
| NetFail (e : Error).

(** A row of [document_chunks] as [indexDocument] writes it
    ([supabase_schema.sql]); [id] and [created_at] are the table's defaults. *)
Record Row : Type := {
  document_id : jsstring;
  row_content : jsstring;
  embedding : json;
  row_metadata : Chunker.Metadata;
  caller_metadata : json;
  indexed_at : jsstring
}.

(** The world: the outcome of the n-th request and of the n-th insert,
    the clock, and what has happened so far. *)
Record World : Type := {
  net : nat -> NetOutcome;
  requests : nat;
  waits : list Z;
  insertError : nat -> option Error;
  inserts : nat;
  table : list Row;
  now : jsstring
}.

(** An asynchronous computation: awaited to a value or to a rejection. *)
Definition M (A : Type) : Type := World -> result Error A * World.

Definition ret {A} (a : A) : M A := fun w => (Ok a, w).

Definition throw {A} (e : Error) : M A := fun w => (Throw e, w).

Definition bind {A B} (m : M A) (k : A -> M B) : M B :=
  fun w =>
    match m w with
    | (Ok a, w') => k a w'
    | (Throw e, w') => (Throw e, w')
    end.

(** [try { m } catch (e) { handler(e) }] *)
Definition tryCatch {A} (m : M A) (handler : Error -> M A) : M A :=
  fun w =>
    match m w with
    | (Ok a, w') => (Ok a, w')
    | (Throw e, w') => handler e w'
    end.

Definition lift {A} (r : result Error A) : M A := fun w => (r, w).

(** [await new Promise(resolve => setTimeout(resolve, ms))] *)
Definition sleep (ms : Z) : M unit :=
  fun w =>
    (Ok tt,
     {| net := net w; requests := requests w; waits := waits w ++ [ms];
        insertError := insertError w; inserts := inserts w;
        table := table w; now := now w |}).

(** The error axios rejects with when [validateStatus] refuses a status. *)
Definition statusError (status : Z) : Error :=
  {| err_code :=
       Some (js (if (status <? 500)%Z then "ERR_BAD_REQUEST" else "ERR_BAD_RESPONSE"));
     err_message :=
       Some (js "Request failed with status code "
             ++ js (DecimalString.NilZero.string_of_int (Z.to_int status))) |}.

(** [await axios.post(url, body, { validateStatus, ... })]: the body sent
    does not influence the outcome, which is the world's. *)
Definition axios_post (validateStatus : Z -> bool) : M json :=
  fun w =>
    let w' :=
      {| net := net w; requests := S (requests w); waits := waits w;
         insertError := insertError w; inserts := inserts w;
         table := table w; now := now w |} in
    match net w (requests w) with
    | Reply status data =>
      if validateStatus status then (Ok data, w')
      else (Throw (statusError status), w')
    | NetFail e => (Throw e, w')
    end.

(** [validateStatus] of axios when none is given. *)
Definition defaultValidateStatus (status : Z) : bool :=
  ((200 <=? status) && (status <? 300))%Z.

(** [const { error } = await supabase.from('document_chunks').insert(batch)].
    The client is the export of [services/db], which is not among the
    sources; the call is taken the way [indexDocument] reads it: it
    resolves with an object whose [error] is the error of an insert that
    failed, and the world decides which inserts fail. *)
Definition db_insert (batch : list Row) : M (option Error) :=
  fun w =>
    let err := insertError w (inserts w) in
    (Ok err,
     {| net := net w; requests := requests w; waits := waits w;
        insertError := insertError w; inserts := S (inserts w);
        table := match err with
                 | None => table w ++ batch
                 | Some _ => table w
                 end;
        now := now w |}).

End Eff.

Declare Scope eff_scope.
Delimit Scope eff_scope with eff.
Notation "x <- m ;; k" := (Eff.bind m (fun x => k))
  (at level 61, m at next level, right associativity) : eff_scope.
Notation "m ;;; k" := (Eff.bind m (fun _ => k))
  (at level 61, right associativity) : eff_scope.
Notation "x <-? r ;; k" := (bindR r (fun x => k))
  (at level 61, r at next level, right associativity) : eff_scope.

(* ================================================================== *)
(** * Part IV.  server/services/ai.js                                   *)
(* ================================================================== *)

Module Ai.
Import Eff.
Local Open Scope eff_scope.

Section Client.

(** Two built-ins of the platform: [JSON.parse] on a string (it throws a
    SyntaxError whose message quotes the text), and the conversion of a
    value that is no string to a string. *)
Variable JSON_parse : jsstring -> result Error json.
Variable ToString : json -> jsstring.

Record Options : Type := {
  model : string;
  jsonMode : bool;
  maxRetries : nat;
  maxContentLength : Z;
  timeout : Z
}.

(** The defaults of [callAI]. *)
Definition defaultOptions : Options :=
  {| model := "qwen-turbo"; jsonMode := true; maxRetries := 3;
     maxContentLength := 5000; timeout := 120000 |}.

(** [content.match(/\{[\s\S]*\}/)]: from the first opening brace to the last
    closing brace. *)
Definition braceSpan (s : jsstring) : option jsstring :=
  let fromOpen := dropWhile (fun c => negb (c =? 0x7B)%N) s in
  match fromOpen with
  | [] => None
  | _ :: _ =>
    match dropWhile (fun c => negb (c =? 0x7D)%N) (rev fromOpen) with
    | [] => None
    | upToClose => Some (rev upToClose)
    end
  end.

(** [JSON.parse(content)] with its fallback. *)
Definition parseContent (content : json) : result Error json :=
  let text := match content with JStr s => s | other => ToString other end in
  match JSON_parse text with
  | Ok v => Ok v
  | Throw _ =>
    match content with
    | JStr s =>
      match braceSpan s with
      | Some jsonMatch => JSON_parse jsonMatch
      | None =>
        Throw {| err_code := None;
                 err_message := Some (js "Failed to parse JSON response") |}
      end
    | _ => Throw (TypeError "content.match is not a function")
    end
  end.

(** [response.data.choices[0].message.content] *)
Definition messageContent (data : json) : result Error json :=
  choices <-? getProp data "choices" ;;
  first <-? getFirst choices ;;
  message <-? getProp first "message" ;;
  getProp message "content".

(** The body of the [try] of one attempt. *)
Definition attemptOnce (options : Options) : M json :=
  data <- axios_post (fun status => (status <? 500)%Z) ;;
  content <- lift (messageContent data) ;;
  if jsonMode options then lift (parseContent content) else ret content.

Definition codeIs (error : Error) (code : string) : bool :=
  match err_code error with
  | Some c => str_eqb c (js code)
  | None => false
  end.

Definition messageIncludes (error : Error) (part : string) : bool :=
  match err_message error with
  | Some m => includes m (js part)
  | None => false
  end.

Definition isNetworkError (error : Error) : bool :=
  codeIs error "ECONNRESET" || codeIs error "ETIMEDOUT"
  || codeIs error "ECONNREFUSED" || codeIs error "ENOTFOUND"
  || messageIncludes error "socket" || messageIncludes error "network"
  || messageIncludes error "ECONNRESET" || messageIncludes error "ETIMEDOUT".

(** [Math.pow(2, attempt) * 3000] or [Math.pow(2, attempt) * 1000] *)
Definition backoffTime (error : Error) (attempt : nat) : Z :=
  if isNetworkError error then (2 ^ Z.of_nat attempt * 3000)%Z
  else (2 ^ Z.of_nat attempt * 1000)%Z.

Definition networkUnstable : Error :=
  {| err_code := None;
     err_message := Some (js "网络连接不稳定，请检查网络后重试") |}.

(** The loop [for (attempt = 1; attempt <= maxRetries; attempt++)], with
    [remaining] turns to go from [attempt] on, and the statements after it. *)
Fixpoint retryLoop (options : Options) (attempt remaining : nat)
    (lastError : option Error) : M json :=
  match remaining with
  | O =>
    match lastError with
    | Some e => throw e
    | None =>
      throw {| err_code := None; err_message := Some (js "AI API 调用失败") |}
    end
  | S remaining' =>
    tryCatch (attemptOnce options)
      (fun error =>
         if (attempt <? maxRetries options)%nat then
           sleep (backoffTime error attempt) ;;;
           retryLoop options (S attempt) remaining' (Some error)
         else if isNetworkError error then throw networkUnstable
         else retryLoop options (S attempt) remaining' (Some error))
  end.

(** [callAI(systemPrompt, userContent, options)]: the prompt and the content
    go into the request body only. *)
Definition callAI (options : Options) : M json :=
  retryLoop options 1 (maxRetries options) None.

(** ** The reduce step

    The reply of the model, [result] in the source, is called [reply]. *)

(** [ToNumber] of a value that is no number (a third built-in). *)
Variable ToNumber : json -> number.

Inductive Level : Type := high | medium | low.
Inductive RiskLevel : Type := riskLow | riskMedium | riskHigh | riskCritical.

(** A risk of a chunk result, as [analyzeChunk] builds it: [level] is one
    of the three levels, [clause] and [description] are trimmed strings,
    [title] and [legalBasis] are what the model sent or a default. *)
Record ChunkRisk : Type := {
  cr_level : Level;
  cr_title : json;
  cr_clause : jsstring;
  cr_description : jsstring;
  cr_legalBasis : json
}.

(** A chunk result, as [analyzeChunk] or a placeholder of the routes builds
    it: [score] is a number, the rest is what the model sent or a default. *)
Record ChunkResult : Type := {
  score : number;
  summary : json;
  risks : list ChunkRisk;
  keyTerms : json;
  suggestions : json
}.

Record Risk : Type := {
  level : Level;
  title : json;
  clause : jsstring;
  description : jsstring;
  recommendation : json;
  legalBasis : json;
  category : json
}.

(** The properties of the report the theorems below are about.  The others
    ([summary], [contractProfile], [riskCategories], [dimensionScores],
    ...) are copied or defaulted from the reply in expressions that do not
    throw once [result.score] has been read. *)
Record Report : Type := {
  rp_score : number;
  rp_riskLevel : option RiskLevel;
  rp_risks : list Risk;
  rp_signRecommendation : json
}.

(** [['high', 'medium', 'low'].includes(v) ? v : 'low'] *)
Definition levelOf (v : json) : Level :=
  if isStr "high" v then high
  else if isStr "medium" v then medium
  else low.

(** [['low', 'medium', 'high', 'critical'].includes(v) ? v : undefined] *)
Definition riskLevelOf (v : json) : option RiskLevel :=
  if isStr "low" v then Some riskLow
  else if isStr "medium" v then Some riskMedium
  else if isStr "high" v then Some riskHigh
  else if isStr "critical" v then Some riskCritical
  else None.

(** [v.trim()] for a [v] that is truthy or [''] *)
Definition trimV (v : json) : result Error jsstring :=
  match v with
  | JStr s => Ok (trim s)
  | _ => Throw (TypeError "trim is not a function")
  end.

(** [`${v}`] *)
Definition toStr (v : json) : jsstring :=
  match v with
  | JStr s => s
  | other => ToString other
  end.

(** [Math.max(0, Math.min(100, v))] *)
Definition clampScore (v : json) : number :=
  match (match v with JNum n => n | other => ToNumber other end) with
  | Fin q => Fin (Qminmax.Qmax 0 (Qminmax.Qmin 100 q))
  | NaN => NaN
  end.

(** [n >= k]; a comparison with NaN is false. *)
Definition atLeast (n : number) (k : Q) : bool :=
  match n with
  | Fin q => Qle_bool k q
  | NaN => false
  end.

(** [{ high: 3, medium: 2, low: 1 }] *)
Definition order (l : Level) : nat :=
  match l with high => 3 | medium => 2 | low => 1 end.

(** [risks.sort((a, b) => order[b.level] - order[a.level])]: the sort is
    stable, so each risk goes before the risks after it that do not rank
    higher. *)
Fixpoint insertByLevel (r : Risk) (sorted : list Risk) : list Risk :=
  match sorted with
  | [] => [r]
  | x :: rest =>
    if (order (level x) <=? order (level r))%nat then r :: sorted
    else x :: insertByLevel r rest
  end.

Definition sortByLevel (rs : list Risk) : list Risk :=
  fold_right insertByLevel [] rs.

(** [`${risk.title}_${risk.clause.substring(0, 50)}`] *)
Definition dedupKey (risk : Risk) : jsstring :=
  toStr (title risk) ++ js "_" ++ substring0 50 (clause risk).

(** The loop that fills [uniqueRisks], [seen] being the keys met so far. *)
Fixpoint uniqueRisks (seen : list jsstring) (rs : list Risk) : list Risk :=
  match rs with
  | [] => []
  | risk :: rest =>
    if negb (existsb (str_eqb (dedupKey risk)) seen)
       && truthyV (title risk)
       && negb (isStr "未命名风险" (title risk))
    then risk :: uniqueRisks (dedupKey risk :: seen) rest
    else uniqueRisks seen rest
  end.

Definition unnamedRisk : json := JStr (js "未命名风险").
Definition otherCategory : json := JStr (js "其他").

(** A risk of the reply of the consolidation, normalised. *)
Definition consolidatedRisk (r : json) : result Error Risk :=
  lv <-? getProp r "level" ;;
  ti <-? getProp r "title" ;;
  cl <-? getProp r "clause" ;;
  clause' <-? trimV (orElse cl (JStr [])) ;;
  de <-? getProp r "description" ;;
  rr <-? getProp r "riskReason" ;;
  description' <-? trimV (orElse de (orElse rr (JStr []))) ;;
  re <-? getProp r "recommendation" ;;
  lb <-? getProp r "legalBasis" ;;
  ca <-? getProp r "category" ;;
  Ok {| level := levelOf lv;
        title := orElse ti unnamedRisk;
        clause := clause';
        description := description';
        recommendation := orElse re (JStr []);
        legalBasis := orElse lb (JStr []);
        category := orElse ca otherCategory |}.

(** [r.clause.length >= 10 && r.description.length >= 30] *)
Definition validRisk (r : Risk) : bool :=
  (10 <=? length (clause r))%nat && (30 <=? length (description r))%nat.

(** [(result.risks || []).map(...).filter(...)] *)
Definition consolidatedRisks (reply : json) : result Error (list Risk) :=
  rs <-? getProp reply "risks" ;;
  match orElse rs (JArr []) with
  | JArr items =>
    mapped <-? mapR consolidatedRisk items ;;
    Ok (filter validRisk mapped)
  | _ => Throw (TypeError "map is not a function")
  end.

(** A risk of a chunk result, completed, in the success path (trimmed)... *)
Definition chunkRiskTrimmed (r : ChunkRisk) : Risk :=
  {| level := cr_level r;
     title := orElse (cr_title r) unnamedRisk;
     clause := trim (cr_clause r);
     description := trim (cr_description r);
     recommendation := JStr [];
     legalBasis := orElse (cr_legalBasis r) (JStr []);
     category := otherCategory |}.

(** ... and in the degraded paths (as it is). *)
Definition chunkRiskRaw (r : ChunkRisk) : Risk :=
  {| level := cr_level r;
     title := orElse (cr_title r) unnamedRisk;
     clause := cr_clause r;
     description := cr_description r;
     recommendation := JStr [];
     legalBasis := orElse (cr_legalBasis r) (JStr []);
     category := otherCategory |}.

(** [chunkResults.flatMap(r => r.risks || [])] *)
Definition allChunkRisks (chunkResults : list ChunkResult) : list ChunkRisk :=
  flat_map risks chunkResults.

(** The risks of the report when the reply holds no valid risk. *)
Definition fallbackRisks (chunkResults : list ChunkResult) : list Risk :=
  sortByLevel
    (uniqueRisks []
       (filter validRisk (map chunkRiskTrimmed (allChunkRisks chunkResults)))).

(** The function that computes [risks] in the returned object. *)
Definition reportRisks (reply : json) (chunkResults : list ChunkResult)
  : result Error (list Risk) :=
  consolidated <-? consolidatedRisks reply ;;
  match consolidated with
  | [] => Ok (fallbackRisks chunkResults)
  | _ :: _ => Ok (sortByLevel consolidated)
  end.

Definition needsReview : json := JStr (js "需人工复核").

(** The object returned in the [try] of [consolidateAnalysis]. *)
Definition successReport (reply : json) (chunkResults : list ChunkResult)
  : result Error Report :=
  sc <-? getProp reply "score" ;;
  rl <-? getProp reply "riskLevel" ;;
  rs <-? reportRisks reply chunkResults ;;
  sr <-? getProp reply "signRecommendation" ;;
  Ok {| rp_score := clampScore (orElse sc (JNum (Fin 50)));
        rp_riskLevel := riskLevelOf rl;
        rp_risks := rs;
        rp_signRecommendation := orElse sr needsReview |}.

(** [Math.round(chunkResults.reduce((sum, r) => sum + (r.score || 50), 0)
     / chunkResults.length)] *)
Definition scoreOr50 (n : number) : Q :=
  match n with
  | Fin q => if Qeq_bool q 0 then 50 else q
  | NaN => 50
  end.

Definition avgScore (chunkResults : list ChunkResult) : number :=
  match chunkResults with
  | [] => NaN
  | _ :: _ =>
    let sum := fold_left (fun sum r => (sum + scoreOr50 (score r))%Q) chunkResults 0%Q in
    Fin (inject_Z
           (Qfloor (sum / inject_Z (Z.of_nat (length chunkResults)) + (1 # 2))))
  end.

(** [avgScore >= 80 ? 'low' : avgScore >= 60 ? 'medium' : avgScore >= 40 ?
     'high' : 'critical'] *)
Definition riskLevelBand (avg : number) : RiskLevel :=
  if atLeast avg 80 then riskLow
  else if atLeast avg 60 then riskMedium
  else if atLeast avg 40 then riskHigh
  else riskCritical.

(** [avgScore >= 70 ? '建议人工复核后签署' : avgScore >= 50 ? '建议修改后签署'
     : '建议暂缓签署'] *)
Definition signBand (avg : number) : json :=
  if atLeast avg 70 then JStr (js "建议人工复核后签署")
  else if atLeast avg 50 then JStr (js "建议修改后签署")
  else JStr (js "建议暂缓签署").

(** The filter of [validSummaries] calls [s.includes] on each truthy
    summary: a string or an array has it, another truthy value has not. *)
Definition summaryFilterThrows (s : json) : bool :=
  truthyV s && match s with JStr _ | JArr _ => false | _ => true end.

Definition checkSummaries (chunkResults : list ChunkResult) : result Error unit :=
  if existsb (fun r => summaryFilterThrows (summary r)) chunkResults
  then Throw (TypeError "s.includes is not a function")
  else Ok tt.

(** A summary that passes the filter of [validSummaries]. *)
Definition validSummary (s : json) : bool :=
  truthyV s
  && match s with
     | JStr text =>
       negb (includes text (js "分析失败")) && negb (includes text (js "网络连接"))
       && negb (str_eqb text (js "该片段分析跳过"))
     | JArr items =>
       negb (existsb (isStr "分析失败") items)
       && negb (existsb (isStr "网络连接") items)
     | _ => false
     end.

(** [validSummaries.slice(0, 3).join('；')], for what it throws: [join]
    converts the summaries that are arrays. *)
Definition checkSummaryJoin (chunkResults : list ChunkResult) : result Error unit :=
  checkConvertible
    (JArr (firstn 3 (filter validSummary (map summary chunkResults)))).

(** The object returned in the [catch] of [consolidateAnalysis].  The key
    of every risk converts its title to a string. *)
Definition degradedReport (chunkResults : list ChunkResult) : result Error Report :=
  let allRisksRaw := map chunkRiskRaw (allChunkRisks chunkResults) in
  _ <-? mapR (fun risk => checkConvertible (title risk)) allRisksRaw ;;
  let unique := sortByLevel (uniqueRisks [] allRisksRaw) in
  let avg := avgScore chunkResults in
  _ <-? checkSummaries chunkResults ;;
  _ <-? checkSummaryJoin chunkResults ;;
  Ok {| rp_score := avg;
        rp_riskLevel := Some (riskLevelBand avg);
        rp_risks := unique;
        rp_signRecommendation := signBand avg |}.

(** [r.keyTerms?.join(', ')], for what it throws: key terms that are
    missing are left alone, an array converts its elements, and anything
    else has no [join]. *)
Definition checkJoin (v : json) : result Error unit :=
  match v with
  | JUndefined | JNull => Ok tt
  | JArr _ => checkConvertible v
  | _ => Throw (TypeError "r.keyTerms?.join is not a function")
  end.

(** The line of a chunk result in [summaryContext]: the template converts
    the summary, then the key terms are joined. *)
Definition checkSummaryLine (r : ChunkResult) : result Error unit :=
  _ <-? checkConvertible (summary r) ;;
  checkJoin (keyTerms r).

(** The line of a risk in [risksContext]: the template converts the title
    or its default, and the legal basis when there is one. *)
Definition checkRiskLine (r : ChunkRisk) : result Error unit :=
  _ <-? checkConvertible (orElse (cr_title r) unnamedRisk) ;;
  if truthyV (cr_legalBasis r) then checkConvertible (cr_legalBasis r)
  else Ok tt.

(** [chunkResults.flatMap(r => r.suggestions || []).join('\n')], for what
    it throws: the suggestions of a chunk result are the elements of an
    array or one element, and [join] converts them. *)
Definition checkSuggestions (r : ChunkResult) : result Error unit :=
  checkConvertible (suggestions r).

(** The statements of [consolidateAnalysis] before its [try], which build
    the text sent to the model: [summaryContext], [risksContext] from the
    first eighty risks, and [userContent].  The text goes into the request
    body only; what matters here is whether building it throws. *)
Definition buildPrompt (chunkResults : list ChunkResult) : result Error unit :=
  _ <-? mapR checkSummaryLine chunkResults ;;
  _ <-? mapR checkRiskLine (firstn 80 (allChunkRisks chunkResults)) ;;
  _ <-? mapR checkSuggestions chunkResults ;;
  Ok tt.

Definition consolidationOptions : Options :=
  {| model := "qwen-turbo"; jsonMode := true; maxRetries := 2;
     maxContentLength := 8000; timeout := 90000 |}.

(** [consolidateAnalysis(chunkResults, chunkCount)]; [chunkCount] goes into
    the prompt and into the text of the summary only. *)
Definition consolidateAnalysis (chunkResults : list ChunkResult) : M Report :=
  _ <- lift (buildPrompt chunkResults) ;;
  tryCatch
    (reply <- callAI consolidationOptions ;;
     lift (successReport reply chunkResults))
    (fun error => lift (degradedReport chunkResults)).

End Client.

(** ** Embeddings *)

(** [response.data?.output?.embeddings] *)
Definition embeddingsOf (data : json) : json :=
  getPropOpt (getPropOpt data "output") "embeddings".

Definition invalidEmbedding : Error :=
  {| err_code := None;
     err_message := Some (js "Invalid embedding response structure") |}.

(** [getEmbedding(text, textType)] *)
Definition getEmbedding (text : jsstring) : M json :=
  tryCatch
    (data <- axios_post defaultValidateStatus ;;
     let found := getPropOpt (getFirstOpt (embeddingsOf data)) "embedding" in
     if truthyV found then ret found else throw invalidEmbedding)
    (fun error => throw error).

(** [embeddings.map(e => e.embedding)] *)
Definition embeddingsMap (embeddings : json) : result Error (list json) :=
  match embeddings with
  | JArr items => mapR (fun e => getProp e "embedding") items
  | _ => Throw (TypeError "embeddings.map is not a function")
  end.

(** The loop of [getBatchEmbeddings] over the slices of ten texts. *)
Fixpoint batchLoop (batches : list (list jsstring)) (results : list json)
  : M (list json) :=
  match batches with
  | [] => ret results
  | batch :: rest =>
    data <- axios_post defaultValidateStatus ;;
    results' <- (if truthyV (embeddingsOf data)
                 then more <- lift (embeddingsMap (embeddingsOf data)) ;;
                      ret (results ++ more)
                 else ret results) ;;
    match rest with [] => ret tt | _ :: _ => sleep 200 end ;;;
    batchLoop rest results'
  end.

(** [getBatchEmbeddings(texts, textType)] *)
Definition getBatchEmbeddings (texts : list jsstring) : M (list json) :=
  tryCatch (batchLoop (slices 10 texts) []) (fun error => throw error).

(* ------------------------------------------------------------------ *)
(** ** The analysis of one chunk ([analyzeChunk]) *)

Section Map.
Variable JSON_parse : jsstring -> result Error json.
Variable ToString : json -> jsstring.
Variable ToNumber : json -> number.

(** The options [analyzeChunk] calls the model with. *)
Definition chunkOptions : Options :=
  {| model := "qwen-turbo"; jsonMode := true; maxRetries := 2;
     maxContentLength := 6000; timeout := 90000 |}.

(** The result for a chunk without content ... *)
Definition emptyContentResult : ChunkResult :=
  {| score := Fin 50; summary := JStr (js "分块内容为空，跳过分析"); risks := [];
     keyTerms := JArr []; suggestions := JArr [] |}.

(** ... and for a chunk whose analysis failed. *)
Definition skippedResult : ChunkResult :=
  {| score := Fin 50; summary := JStr (js "该片段分析跳过"); risks := [];
     keyTerms := JArr []; suggestions := JArr [] |}.

(** The callback of [validatedRisks]: [None] is [null], a risk left out. *)
Definition validatedRisk (r : json) : result Error (option ChunkRisk) :=
  cl <-? getProp r "clause" ;;
  clause <-? trimV (orElse cl (JStr [])) ;;
  de <-? getProp r "description" ;;
  description <-? trimV (orElse de (JStr [])) ;;
  if (length clause <? 10)%nat then Ok None
  else
    lv <-? getProp r "level" ;;
    ti <-? getProp r "title" ;;
    lb <-? getProp r "legalBasis" ;;
    Ok (Some {| cr_level := levelOf lv;
                cr_title := orElse ti unnamedRisk;
                cr_clause := clause;
                cr_description :=
                  if truthy description then description
                  else js "风险分析不完整";
                cr_legalBasis := orElse lb (JStr []) |}).

(** [xs.filter(r => r !== null)] *)
Fixpoint dropNull {A} (xs : list (option A)) : list A :=
  match xs with
  | [] => []
  | Some x :: rest => x :: dropNull rest
  | None :: rest => dropNull rest
  end.

(** [typeof v === 'object'] for a value that is not [null]. *)
Definition isObject (v : json) : bool :=
  match v with
  | JObj _ | JArr _ => true
  | _ => false
  end.

(** The statements of the [try] of [analyzeChunk] after the call. *)
Definition chunkResultOf (reply : json) : result Error ChunkResult :=
  if negb (truthyV reply) || negb (isObject reply) then
    Throw {| err_code := None;
             err_message := Some (js "Invalid AI response format") |}
  else
    rs <-? getProp reply "risks" ;;
    match orElse rs (JArr []) with
    | JArr items =>
      validated <-? mapR validatedRisk items ;;
      sc <-? getProp reply "score" ;;
      su <-? getProp reply "summary" ;;
      kt <-? getProp reply "keyTerms" ;;
      sg <-? getProp reply "suggestions" ;;
      Ok {| score := clampScore ToNumber (orElse sc (JNum (Fin 50)));
            summary := orElse su (JStr (js "无法生成摘要"));
            risks := dropNull validated;
            keyTerms := orElse kt (JArr []);
            suggestions := orElse sg (JArr []) |}
    | _ => Throw (TypeError "map is not a function")
    end.

(** [analyzeChunk(chunkContent, chunkContext)] for a content that is a
    string; the context goes into the prompt only. *)
Definition analyzeChunk (chunkContent : jsstring) : M ChunkResult :=
  if negb (truthy chunkContent) || (length (trim chunkContent) =? 0)%nat
  then ret emptyContentResult
  else
    tryCatch
      (reply <- callAI JSON_parse ToString chunkOptions ;;
       lift (chunkResultOf reply))
      (fun error => ret skippedResult).

End Map.

End Ai.

(* ================================================================== *)
(** * Part V.  server/routes/documents.js: the reduce step of the routes *)
(* ================================================================== *)

Module Routes.
Import Eff Ai.
Local Open Scope eff_scope.

Section Reduce.
Variable JSON_parse : jsstring -> result Error json.
Variable ToString : json -> jsstring.
Variable ToNumber : json -> number.

(** The report [/analyze-sync] builds when [consolidateAnalysis] rejects:
    the risks are sorted ("已排序") and not deduplicated. *)
Definition routeDegradedReport (chunkResults : list ChunkResult)
  : result Error Report :=
  let allRisks := map chunkRiskRaw (allChunkRisks chunkResults) in
  let avg := avgScore chunkResults in
  _ <-? checkSummaries chunkResults ;;
  _ <-? checkSummaryJoin chunkResults ;;
  Ok {| rp_score := avg;
        rp_riskLevel := Some (riskLevelBand avg);
        rp_risks := sortByLevel allRisks;
        rp_signRecommendation := signBand avg |}.

(** The report the outer [catch] of [/analyze-sync] answers with. *)
Definition errorReport : Report :=
  {| rp_score := Fin 50;
     rp_riskLevel := Some riskMedium;
     rp_risks := [];
     rp_signRecommendation := JStr (js "建议重新分析后签署") |}.

(** Step 3 of [/analyze-sync], from the chunk results to the report sent.
    The test [!finalReport || !finalReport.risks] that follows is false for
    every report built above: [risks] is an array. *)
Definition reduceSync (chunkResults : list ChunkResult) : M Report :=
  tryCatch
    (tryCatch (consolidateAnalysis JSON_parse ToString ToNumber chunkResults)
       (fun error => lift (routeDegradedReport chunkResults)))
    (fun error => ret errorReport).

(** Stage 3 of [/analyze]: the report is the one [consolidateAnalysis]
    resolves with; a rejection ends the stream with an error event. *)
Definition reduceStream (chunkResults : list ChunkResult) : M Report :=
  consolidateAnalysis JSON_parse ToString ToNumber chunkResults.

End Reduce.

(* ------------------------------------------------------------------ *)
(** ** The annotations of [/export-docx] *)

Section ExportAnnotations.
Variable ToString : json -> jsstring.
Local Open Scope Z_scope.

(** An annotation of the request body of [/export-docx], for a [position]
    that is an integer and a [clause] that is a string, as the review page
    sends them; [risk] is any value. *)
Record Annotation : Type := {
  position : Z;
  an_clause : jsstring;
  an_risk : json
}.

(** [`${v}`] in a template literal: the conversion throws for a value
    that cannot be converted. *)
Definition converted (v : json) : result Error jsstring :=
  _ <-? checkConvertible v ;;
  Ok (toStr ToString v).

(** [annotationText] of the callback of [sortedAnnots.forEach]; reading a
    property of a [risk] that is missing throws, and so does the
    conversion of a property the templates put into the text. *)
Definition annotationText (annot : Annotation) : result Error jsstring :=
  lv <-? getProp (an_risk annot) "level" ;;
  let levelIcon :=
    if isStr "high" lv then js "⚠️ 高风险"
    else if isStr "medium" lv then js "⚡ 中风险"
    else js "ℹ️ 低风险" in
  re <-? getProp (an_risk annot) "recommendation" ;;
  let suggestion := orElse re (JStr (js "建议审慎评估此条款，必要时与对方协商修改。")) in
  lb <-? getProp (an_risk annot) "legalBasis" ;;
  legalBasis <-? (if truthyV lb
                  then basis <-? converted lb ;;
                       Ok (LF ++ js "法律依据: " ++ basis)
                  else Ok []) ;;
  ti <-? getProp (an_risk annot) "title" ;;
  title <-? converted ti ;;
  de <-? getProp (an_risk annot) "description" ;;
  description <-? converted de ;;
  suggested <-? converted suggestion ;;
  Ok (LFLF ++ js "【" ++ levelIcon ++ js " - " ++ title ++ js "】"
      ++ LF ++ js "原文: " ++ [0x22%N] ++ an_clause annot ++ [0x22%N]
      ++ LF ++ js "风险分析: " ++ description ++ legalBasis
      ++ LF ++ js "修改建议: " ++ suggested ++ LF).

(** [annot.position + annot.clause.length] *)
Definition insertPos (annot : Annotation) : Z :=
  position annot + Z.of_nat (length (an_clause annot)).

(** The index [s.slice(0, k)] ends at and [s.slice(k)] starts from: a
    negative [k] counts from the end, and the index stays within [s]. *)
Definition relativeIndex (s : jsstring) (k : Z) : nat :=
  Z.to_nat (if k <? 0 then Z.max (Z.of_nat (length s) + k) 0
            else Z.min k (Z.of_nat (length s))).

(** One call of the callback: the new value of [annotatedContent]. *)
Definition insertAnnotation (annotatedContent : jsstring) (annot : Annotation)
  : result Error jsstring :=
  text <-? annotationText annot ;;
  let k := relativeIndex annotatedContent (insertPos annot) in
  Ok (firstn k annotatedContent ++ text ++ skipn k annotatedContent).

(** [[...annotations].sort((a, b) => b.position - a.position)]: the sort is
    stable, so each annotation goes before the annotations after it whose
    position is not greater. *)
Fixpoint insertByPosition (a : Annotation) (sorted : list Annotation)
  : list Annotation :=
  match sorted with
  | [] => [a]
  | x :: rest =>
    if position x <=? position a then a :: sorted
    else x :: insertByPosition a rest
  end.

Definition sortByPosition (annotations : list Annotation) : list Annotation :=
  fold_right insertByPosition [] annotations.

(** [sortedAnnots.forEach(...)]: a callback that throws ends the loop. *)
Fixpoint annotateLoop (sortedAnnots : list Annotation)
    (annotatedContent : jsstring) : result Error jsstring :=
  match sortedAnnots with
  | [] => Ok annotatedContent
  | annot :: rest =>
    annotatedContent' <-? insertAnnotation annotatedContent annot ;;
    annotateLoop rest annotatedContent'
  end.

(** [annotatedContent] of [/export-docx] after the annotations are put in,
    for a [content] the route accepts (it refuses a falsy one before);
    without annotations it is the content. *)
Definition annotateContent (content : jsstring) (annotations : list Annotation)
  : result Error jsstring :=
  annotateLoop (sortByPosition annotations) content.

End ExportAnnotations.

End Routes.

(* ================================================================== *)
(** * Part VI.  server/services/rag.js: cosine similarity               *)
(* ================================================================== *)

Module Cosine.
Import PrimFloat.
Local Open Scope float_scope.

(** The loop of [cosineSimilarity] over two arrays of numbers of the same
    length: [dotProduct], [normA] and [normB], every product and every sum
    a binary64 operation. *)
Fixpoint accumulate (vecA vecB : list float) (dotProduct normA normB : float)
  : float * float * float :=
  match vecA, vecB with
  | a :: restA, b :: restB =>
    accumulate restA restB (dotProduct + a * b) (normA + a * a) (normB + b * b)
  | _, _ => (dotProduct, normA, normB)
  end.

(** [cosineSimilarity(vecA, vecB)] for arrays of numbers; [None] is [null]
    or [undefined]. *)
Definition cosineSimilarity (vecA vecB : option (list float)) : float :=
  match vecA, vecB with
  | Some a, Some b =>
    if negb (length a =? length b)%nat then 0
    else
      let '(dotProduct, normA, normB) := accumulate a b 0 0 0 in
      dotProduct / (sqrt normA * sqrt normB)
  | _, _ => 0
  end.

End Cosine.

(* ================================================================== *)
(** * Part VII.  server/services/rag.js: indexing                       *)
(* ================================================================== *)

Module Rag.
Import Eff Chunker.
Local Open Scope eff_scope.

Record IndexResult : Type := {
  success : bool;
  chunkCount : nat;
  chunks : list Chunk
}.

(** The fallback of [indexDocument] when the batch request fails: one
    request for each text, [null] for a text whose request fails. *)
Fixpoint embedEach (chunkTexts : list jsstring) : M (list json) :=
  match chunkTexts with
  | [] => ret []
  | text :: rest =>
    emb <- tryCatch (Ai.getEmbedding text) (fun _ => ret JNull) ;;
    more <- embedEach rest ;;
    ret (emb :: more)
  end.

(** The rows [chunkRecords]; [embeddings[index] || null]. *)
Definition chunkRecords (documentId : jsstring) (metadata : json)
    (chunks : list Chunk) (embeddings : list json) (timestamp : jsstring)
  : list Row :=
  mapi_from
    (fun chunk index =>
       {| document_id := documentId;
          row_content := chunk_content chunk;
          embedding := orElse (nth index embeddings JUndefined) JNull;
          row_metadata := Chunker.metadata chunk;
          caller_metadata := metadata;
          indexed_at := timestamp |})
    0 chunks.

(** The loop over the slices of twenty rows; an error is logged. *)
Fixpoint insertBatches (batches : list (list Row)) : M unit :=
  match batches with
  | [] => ret tt
  | batch :: rest =>
    error <- db_insert batch ;;
    insertBatches rest
  end.

(** [new Date().toISOString()]; the clock of the world stands still, so
    the rows of one call carry the same time. *)
Definition timestampNow : M jsstring := fun w => (Ok (now w), w).

(** [indexDocument(documentId, text, metadata)] *)
Definition indexDocument (documentId text : jsstring) (metadata : json)
  : M IndexResult :=
  tryCatch
    (chunks <- lift (smartChunk text CHUNK_CONFIG) ;;
     let chunkTexts := map chunk_content chunks in
     embeddings <- tryCatch (Ai.getBatchEmbeddings chunkTexts)
                     (fun embError => embedEach chunkTexts) ;;
     timestamp <- timestampNow ;;
     let records := chunkRecords documentId metadata chunks embeddings timestamp in
     insertBatches (slices 20 records) ;;;
     ret {| success := true; chunkCount := length records; chunks := chunks |})
    (fun error => throw error).

(* ------------------------------------------------------------------ *)
(** ** The context of a question ([RAGPipeline.buildContext]) *)

Section Retrieval.
Local Open Scope Z_scope.

(** [(chunk.similarity * 100).toFixed(1)], a formatting of the platform. *)
Variable toPercent : json -> jsstring.

(** A chunk as [semanticSearch] returns it: the two properties
    [buildContext] reads. *)
Record Hit : Type := {
  hit_content : jsstring;
  similarity : json
}.

Record BuiltContext : Type := {
  context : jsstring;
  ctx_chunks : list Hit;
  tokenCount : Z
}.

(** [this.maxContextTokens] *)
Definition maxContextTokens : Z := 4000.

(** The text a selected chunk adds to the context. *)
Definition contextEntry (chunk : Hit) : jsstring :=
  LFLF ++ js "---" ++ LF ++ js "[相关度: " ++ toPercent (similarity chunk)
  ++ js "%]" ++ LF ++ hit_content chunk.

(** One turn of the loop over the relevant chunks: the state is [context],
    [tokenCount] and [selectedChunks]. *)
Definition contextStep (st : jsstring * Z * list Hit) (chunk : Hit)
  : jsstring * Z * list Hit :=
  let '(context, tokenCount, selectedChunks) := st in
  let chunkTokens := estimateTokens (hit_content chunk) in
  if tokenCount + chunkTokens <=? maxContextTokens then
    (context ++ contextEntry chunk, tokenCount + chunkTokens,
     selectedChunks ++ [chunk])
  else st.

(** [buildContext(query, documentId, options)] from the chunks the search
    returned on. *)
Definition buildContext (relevantChunks : list Hit) : BuiltContext :=
  match relevantChunks with
  | [] => {| context := []; ctx_chunks := []; tokenCount := 0 |}
  | _ :: _ =>
    let '(context, tokenCount, selectedChunks) :=
      fold_left contextStep relevantChunks ([], 0, []) in
    {| context := trim context; ctx_chunks := selectedChunks;
       tokenCount := tokenCount |}
  end.

End Retrieval.

End Rag.

(* ================================================================== *)
(** * Specification vocabulary                                          *)
(* ================================================================== *)

(** Predicates in which the properties of the chunker are stated, and the
    small inputs on which they are evaluated. *)
Module ListSpec.

(** [l] is [l'] with some elements left out. *)
Inductive Subsequence {A} : list A -> list A -> Prop :=
| sub_nil : Subsequence [] []
| sub_skip x l l' : Subsequence l l' -> Subsequence l (x :: l')
| sub_take x l l' : Subsequence l l' -> Subsequence (x :: l) (x :: l').

End ListSpec.

Module ChunkerSpec.
Import Chunker.
Local Open Scope Z_scope.

(** The accumulator invariant behind the token budget. *)
Definition budgeted (config : Config) (acc : Acc) : Prop :=
  hasOverlap acc = false ->
  (content acc = [] /\ tokens acc = 0 /\ segments acc = [])
  \/ (0 <= tokens acc <= maxChunkTokens config
      /\ (1 <= length (segments acc))%nat
      /\ estimateTokens (content acc)
         <= tokens acc + Z.of_nat (length (segments acc)) - 1).

(** A sub-chunk of an oversize segment stays within the budget of its
    running count, unless it is one sentence that exceeds it alone. *)
Definition subChunkOK (config : Config) (lang : Lang) (segment : Segment)
    (sub : Acc) : Prop :=
  tokens sub <= maxChunkTokens config
  \/ (In (content sub) (sentencesOf lang segment)
      /\ maxChunkTokens config < estimateTokens (content sub)).

(** The account of an accumulator without overlap prefix: the running
    count is within the budget and every join costs at most one token. *)
Definition packed (config : Config) (acc : Acc) : Prop :=
  tokens acc <= maxChunkTokens config
  /\ estimateTokens (content acc)
     <= tokens acc + Z.of_nat (length (segments acc)) - 1.

(** What the loop knows of a chunk it begins with an overlap prefix: the
    marker costs at most three tokens and every join one; the running count
    is within the budget unless the chunk is the prefix alone, or the
    prefix and the one segment placed after it without a check, whose
    count is the estimate of the content. *)
Definition seededWithin (config : Config) (acc : Acc) : Prop :=
  0 <= tokens acc
  /\ estimateTokens (content acc)
     <= tokens acc + Z.of_nat (length (segments acc)) + 3
  /\ (segments acc = []
      \/ tokens acc <= maxChunkTokens config
      \/ (length (segments acc) = 1%nat
          /\ tokens acc = estimateTokens (content acc))).

(** The account the loop keeps of an accumulator it emits. *)
Definition measured (config : Config) (acc : Acc) : Prop :=
  if hasOverlap acc then seededWithin config acc else packed config acc.

(** Where a chunk the loop emits comes from: it is the finalised
    accumulator reached after a prefix of the segments, or a finalised
    sub-chunk of an oversize segment. *)
Definition emittedBy (config : Config) (lang : Lang) (segs : list Segment)
    (c : Chunk) : Prop :=
  exists acc,
    (exists index, c = finalizeChunk acc index)
    /\ ((exists pre post chunks0,
           segs = pre ++ post
           /\ chunkLoop config lang ([], initialChunk) pre = Ok (chunks0, acc)
           /\ truthy (content acc) = true
           /\ measured config acc)
        \/ (exists segment,
              In segment segs
              /\ maxChunkTokens config < estimateTokens (seg_content segment)
              /\ In acc (splitLongSegment segment config lang)
              /\ hasOverlap acc = false
              /\ subChunkOK config lang segment acc)).

(** The invariant of the accumulator, empty or not. *)
Definition accounted (config : Config) (acc : Acc) : Prop :=
  budgeted config acc /\ (hasOverlap acc = true -> seededWithin config acc).

(** [p] holds of [i], [i + 1], ... for [turns] integers. *)
Fixpoint allFrom (turns : nat) (i : Z) (p : Z -> bool) : bool :=
  match turns with
  | O => true
  | S turns' => p i && allFrom turns' (i + 1) p
  end.

(** The binary64 estimate is the exact one for all counts up to [n]. *)
Definition agreeUpTo (n : nat) : bool :=
  allFrom (S n) 0 (fun c =>
    allFrom (S n) 0 (fun o =>
      Binary64.ceilIs (Binary64.weighted c o) ((14 * c + 5 * o + 19) / 20))).

Definition stripSpace (s : jsstring) : jsstring :=
  filter (fun c => negb (isSpace c)) s.

Definition endsWith (s suffix : jsstring) : bool :=
  startsWith (rev suffix) (rev s).

Section OverlapInvariant.
Variable config : Config.

Definition seeded (prev : Chunk) (s : jsstring) : Prop :=
  let ov := extractOverlap (chunk_content prev) (overlapTokens config) in
  exists rest,
    s = overlapMarker ++ ov ++ rest
    /\ truthy ov = true
    /\ (rest = [] \/ startsWith LFLF rest = true).

Definition overlapsPrevious (a b : Chunk) : Prop :=
  md_hasOverlap (metadata b) = true -> seeded a (chunk_content b).

Fixpoint pairwise (P : Chunk -> Chunk -> Prop) (l : list Chunk) : Prop :=
  match l with
  | a :: (b :: _) as r => P a b /\ pairwise P r
  | _ => True
  end.

Definition overlapInv (st : list Chunk * Acc) : Prop :=
  let '(chunks, cur) := st in
  pairwise overlapsPrevious chunks
  /\ (hasOverlap cur = true ->
      exists prev, lastElem chunks = Some prev /\ seeded prev (content cur)).

End OverlapInvariant.

(** A string that starts with a character that is no white space. *)
Definition solid (s : jsstring) : Prop :=
  exists c r, s = c :: r /\ isSpace c = false.

(** The text between the marker and the first blank line. *)
Fixpoint untilBlankLine (s : jsstring) : jsstring :=
  match s with
  | [] => []
  | c :: r =>
    if startsWith LFLF s then [] else c :: untilBlankLine r
  end.

Definition overlapRegion (content : jsstring) : jsstring :=
  untilBlankLine (skipn (length overlapMarker) content).

Definition tinyConfig (M O m : Z) : Config :=
  {| maxChunkTokens := M; overlapTokens := O; minChunkTokens := m;
     promptReserve := 0; responseReserve := 0 |}.

Definition twoClauses : jsstring := join LF [js "1. a"; js "2. b"].

Definition threeClauses : jsstring := join LF [js "1. aa"; js "2. bb"; js "3. cc"].

Definition demoChunks : list Chunk :=
  match smartChunk threeClauses (tinyConfig 4 2 1) with
  | Ok chunks => chunks
  | Throw _ => []
  end.

Definition demoChunk (i : nat) : Chunk :=
  nth i demoChunks (finalizeChunk emptyChunk 0).

Definition demoState : list Chunk * Acc :=
  match chunkLoop (tinyConfig 2 0 1) en ([], initialChunk)
          (identifyLegalStructure twoClauses en) with
  | Ok st => st
  | Throw _ => ([], initialChunk)
  end.

(* ------------------------------------------------------------------ *)
(** ** What the chunks keep of the text *)

(** A separator that drops white space only: what it captures is what it
    matched, up to white space. *)
Definition dropsSpaceOnly (m : matcher) : Prop :=
  forall before s n caps,
    m before s = Some (n, caps) ->
    stripSpace (concat caps) = stripSpace (firstn n s).

(** The text of a state of the loop over the lines. *)
Definition segmentsText (st : list Segment * Segment) : jsstring :=
  concat (map seg_content (fst st)) ++ seg_content (snd st).

Definition subChunksText (st : list Acc * Acc) : jsstring :=
  concat (map content (fst st)) ++ content (snd st).

Definition chunksText (st : list Chunk * Acc) : jsstring :=
  concat (map chunk_content (fst st)) ++ content (snd st).

(** [a] occurs in [b] as it is, in one piece. *)
Definition infix (a b : jsstring) : Prop := exists pre post, b = pre ++ a ++ post.

(** The text [s] lies in a chunk emitted so far or in the accumulator. *)
Definition held (s : jsstring) (st : list Chunk * Acc) : Prop :=
  (exists c, In c (fst st) /\ infix s (chunk_content c))
  \/ infix s (content (snd st)).

(** Every chunk is the accumulator it was made of, finalised with its
    position as index. *)
Definition finalized (chunks : list Chunk) : Prop :=
  forall i c, nth_error chunks i = Some c -> exists acc, c = finalizeChunk acc i.

(** The code units of the lines and of one line break after each. *)
Definition linesWeight (lines : list jsstring) : nat :=
  fold_right (fun line n => (length line + 1 + n)%nat) 0%nat lines.

(** The code units of the segments, one more for each segment begun. *)
Definition segmentsWeight (st : list Segment * Segment) : nat :=
  (fold_right (fun g n => length (seg_content g) + 1 + n) 0 (fst st)
   + length (seg_content (snd st))
   + (if truthy (seg_content (snd st)) then 1 else 0))%nat.

Definition segmentsTokens (segs : list Segment) : Z :=
  fold_right (fun g n => estimateTokens (seg_content g) + n) 0 segs.

(** The types of the structural lines that mark a segment as important. *)
Definition structural (t : SegType) : bool :=
  match t with
  | tArticle | tClause | tHeader => true
  | tContent | tSignature => false
  end.

Definition importanceOf (t : SegType) : Importance :=
  match t with
  | tArticle | tClause | tHeader => iHigh
  | tSignature => iLow
  | tContent => iNormal
  end.

Definition segmentCoherent (g : Segment) : Prop :=
  seg_importance g = importanceOf (seg_type g).

Definition accCoherent (acc : Acc) : Prop :=
  importance acc = iHigh <-> existsb structural (segments acc) = true.

Definition chunkCoherent (c : Chunk) : Prop :=
  md_importance (metadata c) = iHigh
  <-> existsb structural (segmentTypes (metadata c)) = true.

(** The chunks of the three clauses on a budget of four tokens, without
    overlap. *)
Definition plainChunks : list Chunk :=
  match smartChunk threeClauses (tinyConfig 4 0 1) with
  | Ok chunks => chunks
  | Throw _ => []
  end.

(** The second clause of the three, as a segment. *)
Definition secondClause : Segment :=
  nth 1 (identifyLegalStructure threeClauses (detectLanguage threeClauses))
        {| seg_type := tContent; seg_content := []; seg_importance := iNormal |}.

End ChunkerSpec.

(** Orderings and keys of the risk list, and sample runs of the reduce
    step against a scripted network. *)
Module AiSpec.
Import Eff Ai Routes.
Local Open Scope eff_scope.

(** A world that has seen nothing yet. *)
Definition worldOf (network : nat -> NetOutcome) : World :=
  {| net := network; requests := 0; waits := []; insertError := fun _ => None;
     inserts := 0; table := []; now := [] |}.

(** The body of a 401 answer: an error object, no [choices]. *)
Definition unauthorizedBody : json :=
  JObj [(js "error",
         JObj [(js "message", JStr (js "Incorrect API key provided."));
               (js "code", JStr (js "invalid_api_key"))])].

(** High before medium before low. *)
Definition ranksBefore (a b : Risk) : Prop := (order (level b) <= order (level a))%nat.

Definition sortedByLevel (rs : list Risk) : Prop := StronglySorted ranksBefore rs.

(** The pair [(title, clause[:50])]. *)
Definition pairKey (r : Risk) : json * jsstring :=
  (title r, substring0 50 (clause r)).

Definition distinctPairs (rs : list Risk) : Prop := NoDup (map pairKey rs).

(** ** Closed examples

    Stand-ins for the built-ins of the platform: a parser that reads the
    reply text as a given value; the conversions are not consulted by the
    examples (titles are strings, scores are numbers). *)
Definition parseAs (v : json) : jsstring -> result Error json := fun _ => Ok v.

Definition noToString : json -> jsstring := fun _ => [].

Definition noToNumber : json -> number := fun _ => NaN.

Definition terminationRisk : json :=
  JObj [(js "level", JStr (js "high"));
        (js "title", JStr (js "Unilateral termination"));
        (js "clause", JStr (js "The supplier may terminate this agreement at any time."));
        (js "description",
         JStr (js "The customer has no matching right and receives no compensation."))].

(** A reply with a score and the same risk twice: no [riskLevel], no
    [signRecommendation]. *)
Definition replyWithDuplicates : json :=
  JObj [(js "score", JNum (Fin 85));
        (js "risks", JArr [terminationRisk; terminationRisk])].

(** A 200 answer of the chat endpoint carrying a reply text. *)
Definition chatAnswer : NetOutcome :=
  Reply 200
    (JObj [(js "choices",
            JArr [JObj [(js "message",
                         JObj [(js "content", JStr (js "(the reply text)"))])]])]).

Definition reportOf (run : result Error Report * World) : Report :=
  match fst run with
  | Ok report => report
  | Throw _ => errorReport
  end.

Definition duplicateReport : Report :=
  reportOf (reduceSync (parseAs replyWithDuplicates) noToString noToNumber []
              (worldOf (fun _ => chatAnswer))).

Definition demoChunkRisk : ChunkRisk :=
  {| cr_level := high;
     cr_title := JStr (js "Unilateral termination");
     cr_clause := js "The supplier may terminate this agreement at any time.";
     cr_description := js "The customer has no matching right and receives no compensation.";
     cr_legalBasis := JStr [] |}.

(** Two chunk results that report the same risk. *)
Definition demoChunkResults : list ChunkResult :=
  let r := {| score := Fin 60; summary := JStr (js "Reviewed.");
              risks := [demoChunkRisk]; keyTerms := JArr [];
              suggestions := JArr [] |} in
  [r; r].

Definition demoDegraded : Report :=
  match degradedReport noToString demoChunkResults with
  | Ok report => report
  | Throw _ => errorReport
  end.

Definition duplicateRun : result Error Report * World :=
  reduceSync (parseAs replyWithDuplicates) noToString noToNumber []
    (worldOf (fun _ => chatAnswer)).

(* ------------------------------------------------------------------ *)
(** ** Outcomes of a request, and the quality of a result *)

Section Outcome.
Variable JSON_parse : jsstring -> result Error json.
Variable ToString : json -> jsstring.

(** What one attempt of [callAI] makes of the outcome of its request. *)
Definition replyOutcome (options : Options) (o : NetOutcome) : result Error json :=
  match o with
  | Reply status data =>
    if (status <? 500)%Z then
      content <-? messageContent data ;;
      if jsonMode options then parseContent JSON_parse ToString content
      else Ok content
    else Throw (statusError status)
  | NetFail e => Throw e
  end.

(** The waits after the first [k] failed attempts, counted from [attempt]. *)
Definition backoffs (errs : nat -> Error) (attempt k : nat) : list Z :=
  map (fun j => backoffTime (errs j) (attempt + j)) (seq 0 k).

End Outcome.

(** A score is NaN or lies between 0 and 100. *)
Definition scoreInRange (n : number) : Prop :=
  match n with
  | NaN => True
  | Fin q => (0 <= q /\ q <= 100)%Q
  end.

(** What [analyzeChunk] checks of a risk it keeps. *)
Definition quotedRisk (r : ChunkRisk) : Prop :=
  (10 <= length (cr_clause r))%nat
  /\ trim (cr_clause r) = cr_clause r
  /\ truthy (cr_description r) = true.

(** A value that is missing or an array. *)
Definition arrayOrAbsent (v : json) : Prop :=
  match v with
  | JUndefined | JNull | JArr _ => True
  | _ => False
  end.

(** A value that is falsy, a string or an array. *)
Definition textOrAbsent (v : json) : Prop :=
  truthyV v = false \/ match v with JStr _ | JArr _ => True | _ => False end.

(** The values of a chunk result that [consolidateAnalysis] puts into a
    text can be converted to strings. *)
Definition printable (r : ChunkResult) : Prop :=
  convertible (summary r) = true
  /\ convertible (keyTerms r) = true
  /\ convertible (suggestions r) = true
  /\ Forall (fun k => convertible (cr_title k) = true
                      /\ convertible (cr_legalBasis k) = true) (risks r).

(** The prompt cannot be built with this chunk result: its key terms
    have no [join], or its summary, its key terms or its suggestions
    cannot be converted to strings. *)
Definition unprintable (r : ChunkResult) : Prop :=
  ~ arrayOrAbsent (keyTerms r)
  \/ convertible (summary r) = false
  \/ convertible (keyTerms r) = false
  \/ convertible (suggestions r) = false.

Definition openBrace : N := 0x7B%N.
Definition closeBrace : N := 0x7D%N.

(** [c] does not occur in [s]. *)
Definition without (c : N) (s : jsstring) : Prop :=
  forallb (fun x => negb (x =? c)%N) s = true.

(** What one turn of the loop of [getBatchEmbeddings] makes of the outcome
    of its request: the embeddings it adds to the results, or the error it
    throws. *)
Definition batchOutcome (o : NetOutcome) : result Error (list json) :=
  match o with
  | Reply status data =>
    if defaultValidateStatus status then
      if truthyV (embeddingsOf data) then embeddingsMap (embeddingsOf data)
      else Ok []
    else Throw (statusError status)
  | NetFail e => Throw e
  end.

(** The world after [sent] requests and [paused] pauses of 200 ms. *)
Definition afterRequests (w : World) (sent paused : nat) : World :=
  {| net := net w; requests := requests w + sent;
     waits := waits w ++ repeat 200%Z paused;
     insertError := insertError w; inserts := inserts w;
     table := table w; now := now w |}.

(** The connection is reset. *)
Definition connectionReset : Error :=
  {| err_code := Some (js "ECONNRESET"); err_message := Some (js "socket hang up") |}.

(** A network that fails once and answers from then on. *)
Definition flakyNetwork (n : nat) : NetOutcome :=
  match n with
  | O => NetFail connectionReset
  | S _ => chatAnswer
  end.

(* ------------------------------------------------------------------ *)
(** ** The annotations of an export *)

Section ExportSpec.
Variable ToString : json -> jsstring.
Local Open Scope Z_scope.

(** The annotation carries a risk whose properties can be read. *)
Definition hasRisk (a : Annotation) : bool :=
  match an_risk a with
  | JUndefined | JNull => false
  | _ => true
  end.

(** The annotation carries a risk, and the properties of the risk that the
    templates put into the text can be converted to strings. *)
Definition readable (a : Annotation) : bool :=
  hasRisk a
  && convertible (getPropOpt (an_risk a) "legalBasis")
  && convertible (getPropOpt (an_risk a) "title")
  && convertible (getPropOpt (an_risk a) "description")
  && convertible (getPropOpt (an_risk a) "recommendation").

(** The text of an annotation that has one. *)
Definition textOf (a : Annotation) : jsstring :=
  match annotationText ToString a with
  | Ok text => text
  | Throw _ => []
  end.

(** The clause of the annotation is not empty and stands in the content at
    the position of the annotation. *)
Definition occursAt (content : jsstring) (a : Annotation) : Prop :=
  0 <= position a
  /\ an_clause a <> []
  /\ firstn (length (an_clause a)) (skipn (Z.to_nat (position a)) content)
     = an_clause a.

(** The clauses of two annotations do not overlap. *)
Definition apart (a b : Annotation) : Prop :=
  insertPos a <= position b \/ insertPos b <= position a.

(** The code units of the texts of the annotations. *)
Definition textsLength (annots : list Annotation) : nat :=
  fold_right (fun a n => (length (textOf a) + n)%nat) 0%nat annots.

(** In the order of the loop: a later annotation is the same one or ends
    before the earlier one begins. *)
Definition endsBefore (x y : Annotation) : Prop :=
  x = y \/ insertPos y <= position x.

End ExportSpec.

(** Two annotations of a text of two words, in the order of the text. *)
Definition firstWord : Annotation :=
  {| position := 0; an_clause := js "ab"; an_risk := JObj [] |}.

Definition secondWord : Annotation :=
  {| position := 3; an_clause := js "cd";
     an_risk := JObj [(js "level", JStr (js "high"))] |}.

Definition demoAnnotations : list Annotation := [firstWord; secondWord].

Definition demoAnnotated : jsstring :=
  match annotateContent noToString (js "ab cd") demoAnnotations with
  | Ok annotated => annotated
  | Throw _ => []
  end.

End AiSpec.

(** Inner product and norm of the cosine formula, and the frame
    condition of the indexing steps. *)
Module RagSpec.
Import Eff.

(** A computation that leaves the database as it is. *)
Definition keepsDb {A} (m : M A) : Prop :=
  forall w,
    table (snd (m w)) = table w
    /\ insertError (snd (m w)) = insertError w
    /\ inserts (snd (m w)) = inserts w
    /\ now (snd (m w)) = now w.

Section Vectors.
Import PrimFloat.
Local Open Scope float_scope.

(** [dot(a, b)] and [||a||] on binary64 numbers, the sum taken from the
    first component to the last. *)
Definition dot (a b : list float) : float :=
  fold_left (fun sum xy => sum + fst xy * snd xy) (combine a b) 0.

Definition norm (a : list float) : float := sqrt (dot a a).

(** Every component is [0] or [-0]. *)
Definition zeroVector (a : list float) : Prop :=
  Forall (fun x => is_zero x = true) a.

(** [x] is [0], [-0] or NaN. *)
Definition zeroOrNaN (x : float) : Prop := is_zero x = true \/ is_nan x = true.

End Vectors.

(* ------------------------------------------------------------------ *)
(** ** Stored rows and selected chunks *)

Import Chunker ChunkerSpec Rag ListSpec.

(** The rows of the batches whose insert succeeds, the inserts counted
    from [i]. *)
Fixpoint keptRows (errors : nat -> option Error) (i : nat)
    (batches : list (list Row)) : list Row :=
  match batches with
  | [] => []
  | batch :: rest =>
    (match errors i with None => batch | Some _ => [] end)
    ++ keptRows errors (S i) rest
  end.

Definition hitsTokens (hits : list Hit) : Z :=
  fold_right (fun hit n => (estimateTokens (hit_content hit) + n)%Z) 0%Z hits.

Section Selection.
Local Open Scope Z_scope.

(** The state of the loop after a prefix [seen] of the relevant chunks. *)
Definition contextInv (seen : list Hit) (st : jsstring * Z * list Hit) : Prop :=
  let '(context, tokenCount, selected) := st in
  tokenCount = hitsTokens selected
  /\ tokenCount <= maxContextTokens
  /\ Subsequence selected seen
  /\ (selected = [] -> context = [])
  /\ (selected <> [] -> stripSpace context <> []).

End Selection.

End RagSpec.

(* ================================================================== *)
(** * Theorems                                                          *)
(* ================================================================== *)

Module ChunkerFacts.
Import Chunker ChunkerSpec.
Local Open Scope Z_scope.

Lemma chineseChars_le (text : jsstring) :
  (chineseChars text <= length text)%nat.
Proof. unfold chineseChars. apply filter_length_le. Qed.

(** The ceiling of [estimateTokens] in integer arithmetic. *)
Lemma estimateTokens_Z (text : jsstring) :
  estimateTokens text =
  ((14 * Z.of_nat (chineseChars text)
    + 5 * (Z.of_nat (length text) - Z.of_nat (chineseChars text)) + 19) / 20)%Z.
Proof.
  unfold estimateTokens.
  set (c := Z.of_nat (chineseChars text)).
  set (o := (Z.of_nat (length text) - c)%Z).
  unfold Qceiling, Qfloor, Qopp, Qplus, Qmult, inject_Z; simpl Qnum; simpl Qden.
  change (Z.pos (1 * 10 * (1 * 100))) with 1000%Z.
  change (Z.pos (1 * 100)) with 100%Z.
  change (Z.pos (1 * 10)) with 10%Z.
  assert (H : (- (c * 7 * 100 + o * 25 * 10) = (- (14 * c + 5 * o)) * 50)%Z) by ring.
  rewrite H.
  replace 1000%Z with (20 * 50)%Z by reflexivity.
  rewrite Z.div_mul_cancel_r by lia.
  generalize (14 * c + 5 * o)%Z; intro n.
  Z.to_euclidean_division_equations; lia.
Qed.

Lemma detectLanguage_zh_iff (text : jsstring) :
  detectLanguage text = zh <->
  (3 * Z.of_nat (length text) < 10 * Z.of_nat (chineseChars text))%Z.
Proof.
  unfold detectLanguage, ratio.
  destruct (length text) as [|n] eqn:Hlen.
  - pose proof (chineseChars_le text) as Hle. split; [discriminate | lia].
  - assert (HP : Z.pos (Pos.of_nat (S n)) = Z.of_nat (S n)).
    { rewrite <- positive_nat_Z, Nat2Pos.id by lia. reflexivity. }
    set (d := Pos.of_nat (S n)) in *.
    destruct (Qle_bool _ _) eqn:Hq.
    + apply Qle_bool_iff in Hq. unfold Qle in Hq; cbn [Qnum Qden] in Hq.
      split; [discriminate | lia].
    + split; [intros _ | reflexivity].
      assert (Hn : ~ (Z.of_nat (chineseChars text) # d <= 3 # 10)%Q)
        by (intro Hc; apply Qle_bool_iff in Hc; congruence).
      unfold Qle in Hn; cbn [Qnum Qden] in Hn. lia.
Qed.

(** C9.  [estimateTokens] is the ceiling of [cjk * 0.7 + (len - cjk) * 0.25],
    [cjk] counting the code units in U+4E00..U+9FFF; [detectLanguage]
    answers [zh] exactly when the share of such code units exceeds 0.3 and
    [en] otherwise; on the empty text they return 0 and [en].  Both are
    functions of the text alone. *)
Theorem estimate_and_detect_spec (text : jsstring) :
  let cjk := Z.of_nat (length (filter isCJK text)) in
  let len := Z.of_nat (length text) in
  let exact := (inject_Z cjk * (7 # 10) + inject_Z (len - cjk) * (1 # 4))%Q in
  (inject_Z (estimateTokens text - 1) < exact
   /\ exact <= inject_Z (estimateTokens text))%Q
  /\ (detectLanguage text = zh <->
      (0 < len)%Z /\ ((3 # 10) * inject_Z len < inject_Z cjk)%Q)
  /\ (detectLanguage text <> zh -> detectLanguage text = en)
  /\ estimateTokens [] = 0%Z
  /\ detectLanguage [] = en.
Proof.
  intros cjk len exact.
  assert (Hex : (exact == (14 * cjk + 5 * (len - cjk)) # 20)%Q).
  { unfold exact, Qeq, Qplus, Qmult, inject_Z; cbn [Qnum Qden]. cbn [Pos.mul]. lia. }
  pose proof (estimateTokens_Z text) as HZ.
  pose proof (detectLanguage_zh_iff text) as HD.
  pose proof (chineseChars_le text) as Hle.
  unfold chineseChars in *. fold cjk len in HZ, HD.
  split; [split|split; [|split; [|split]]].
  - rewrite Hex. unfold Qlt, inject_Z; cbn [Qnum Qden].
    rewrite HZ. Z.to_euclidean_division_equations; lia.
  - rewrite Hex. unfold Qle, inject_Z; cbn [Qnum Qden].
    rewrite HZ. Z.to_euclidean_division_equations; lia.
  - rewrite HD. unfold Qlt, Qmult, inject_Z; cbn [Qnum Qden]. lia.
  - destruct (detectLanguage text); [congruence | reflexivity].
  - reflexivity.
  - reflexivity.
Qed.

Lemma allFrom_spec turns : forall i p,
  allFrom turns i p = true ->
  forall k, i <= k < i + Z.of_nat turns -> p k = true.
Proof.
  induction turns as [|turns IH]; intros i p H k Hk; [lia|].
  cbn [allFrom] in H. apply andb_true_iff in H as [Hi Hrest].
  destruct (Z.eq_dec k i) as [->|Hne]; [exact Hi|].
  apply (IH (i + 1) p Hrest). lia.
Qed.

Lemma agreeUpTo_500 : agreeUpTo 500 = true.
Proof. vm_compute. reflexivity. Qed.

Lemma agreeUpTo_spec n :
  agreeUpTo n = true ->
  forall c o,
    0 <= c <= Z.of_nat n -> 0 <= o <= Z.of_nat n ->
    Binary64.ceilIs (Binary64.weighted c o) ((14 * c + 5 * o + 19) / 20) = true.
Proof.
  intros H c o Hc Ho.
  assert (Hc' : 0 <= c < 0 + Z.of_nat (S n)) by lia.
  assert (Ho' : 0 <= o < 0 + Z.of_nat (S n)) by lia.
  exact (@allFrom_spec _ _ _ (@allFrom_spec _ _ _ H c Hc') o Ho').
Qed.

(** On binary64 values, rounded to nearest at each operation as the engine
    computes it, [estimateTokens] returns the same integer as on exact
    rationals, for every text of at most 500 CJK and 500 other code
    units. *)
Theorem estimateTokens_binary64 (text : jsstring) :
  (chineseChars text <= 500)%nat ->
  (length text - chineseChars text <= 500)%nat ->
  Binary64.estimateTokensIs text (estimateTokens text) = true.
Proof.
  intros Hc Ho. pose proof (chineseChars_le text) as Hle.
  unfold Binary64.estimateTokensIs. rewrite estimateTokens_Z.
  set (c := Z.of_nat (chineseChars text)).
  set (o := Z.of_nat (length text) - c).
  apply (@agreeUpTo_spec 500 agreeUpTo_500); lia.
Qed.

(** A clause heading of three CJK and four other code units. *)
Lemma estimateTokens_binary64_witness :
  Binary64.estimateTokensIs (js "第一条 abc") (estimateTokens (js "第一条 abc")) = true.
Proof.
  apply estimateTokens_binary64; vm_compute; repeat constructor.
Defined.

Lemma chineseChars_app a b : chineseChars (a ++ b) = (chineseChars a + chineseChars b)%nat.
Proof. unfold chineseChars. now rewrite filter_app, length_app. Qed.

Lemma estimateTokens_nonneg t : 0 <= estimateTokens t.
Proof.
  rewrite estimateTokens_Z. pose proof (chineseChars_le t).
  Z.to_euclidean_division_equations; lia.
Qed.

Lemma estimateTokens_app a b :
  estimateTokens (a ++ b) <= estimateTokens a + estimateTokens b.
Proof.
  rewrite !estimateTokens_Z, chineseChars_app, length_app.
  Z.to_euclidean_division_equations; lia.
Qed.

Lemma estimateTokens_LFLF : estimateTokens LFLF = 1.
Proof. reflexivity. Qed.

Lemma estimateTokens_blank_join a b :
  estimateTokens (a ++ LFLF ++ b) <= estimateTokens a + estimateTokens b + 1.
Proof.
  pose proof (estimateTokens_app a (LFLF ++ b)).
  pose proof (estimateTokens_app LFLF b).
  rewrite estimateTokens_LFLF in *. lia.
Qed.

Lemma createOverlapChunk_budgeted config prev :
  budgeted config (createOverlapChunk prev config).
Proof.
  unfold budgeted, createOverlapChunk. intros H.
  destruct (truthy (content prev)); simpl in *; [|left; auto].
  destruct (extractOverlap _ _); simpl in *; [left; auto | discriminate].
Qed.

Lemma chunkStep_budgeted config lang chunks cur seg chunks' cur' :
  budgeted config cur ->
  chunkStep config lang (chunks, cur) seg = Ok (chunks', cur') ->
  budgeted config cur'.
Proof.
  intros Hinv Hstep. unfold chunkStep in Hstep.
  destruct (estimateTokens (seg_content seg) >? maxChunkTokens config) eqn:Hbig.
  - destruct (lastElem _); inversion Hstep; subst.
    apply createOverlapChunk_budgeted.
  - assert (Hfit : estimateTokens (seg_content seg) <= maxChunkTokens config) by lia.
    pose proof (estimateTokens_nonneg (seg_content seg)) as Hnn.
    destruct (tokens cur + estimateTokens (seg_content seg) <=? maxChunkTokens config) eqn:Hadd;
      inversion Hstep; subst; clear Hstep; intros Hov; simpl in *.
    + right. rewrite length_app; simpl.
      destruct (Hinv Hov) as [(Hc & Ht & Hs) | (Ht & Hk & He)].
      * rewrite Hc, Ht, Hs; simpl. lia.
      * split; [lia|]. split; [lia|].
        destruct (content cur) eqn:Hc; simpl truthy; cbv iota.
        -- simpl app. lia.
        -- pose proof (estimateTokens_blank_join (n :: j) (seg_content seg)). lia.
    + right.
      pose proof (createOverlapChunk_budgeted config cur Hov) as [(Hc & _) | (_ & Hk & _)].
      * rewrite Hc; simpl. lia.
      * unfold createOverlapChunk in Hk.
        destruct (truthy (content cur)); simpl in Hk; lia.
Qed.

Lemma fold_left_invariant {A B} (P : A -> Prop) (f : A -> B -> A) l init :
  P init -> (forall st x, In x l -> P st -> P (f st x)) -> P (fold_left f l init).
Proof.
  revert init. induction l as [|x l IH]; intros init H0 Hstep; simpl; [exact H0|].
  apply IH; [apply Hstep; [now left|exact H0]|].
  intros st y Hy. apply Hstep. now right.
Qed.

Lemma splitLongSegment_budget config lang segment :
  Forall (subChunkOK config lang segment) (splitLongSegment segment config lang).
Proof.
  unfold splitLongSegment.
  set (init := ([], _)).
  assert (H : let '(subs, cur) :=
                fold_left (sentenceStep segment config) (sentencesOf lang segment) init in
              Forall (subChunkOK config lang segment) subs
              /\ (truthy (content cur) = true -> subChunkOK config lang segment cur)).
  { apply fold_left_invariant; [split; [constructor|discriminate]|].
    intros [subs cur] x Hx [Hs Hc]. unfold sentenceStep.
    destruct (tokens cur + estimateTokens x <=? maxChunkTokens config) eqn:Hfit.
    - split; [exact Hs|]. intros _. left. cbn. lia.
    - split.
      + destruct (truthy (content cur)); [|exact Hs].
        apply Forall_app; split; [exact Hs|]. constructor; [auto|constructor].
      + intros _. cbn.
        destruct (Z_le_gt_dec (estimateTokens x) (maxChunkTokens config));
          [left; cbn; lia | right; cbn; split; [exact Hx|lia]]. }
  destruct (fold_left _ _ _) as [subs cur]. destruct H as [Hs Hc].
  destruct (truthy (content cur)); [|exact Hs].
  apply Forall_app; split; [exact Hs|]. constructor; [auto|constructor].
Qed.

Lemma chunkLoop_app config lang st a b :
  chunkLoop config lang st (a ++ b)
  = match chunkLoop config lang st a with
    | Ok st' => chunkLoop config lang st' b
    | Throw e => Throw e
    end.
Proof.
  revert st. induction a as [|x a IH]; intros st; simpl; [reflexivity|].
  destruct (chunkStep config lang st x); [apply IH|reflexivity].
Qed.

Lemma budgeted_packed config cur :
  budgeted config cur -> hasOverlap cur = false -> truthy (content cur) = true ->
  packed config cur.
Proof.
  intros Hb Hov Ht. destruct (Hb Hov) as [(Hc & _) | (Htok & _ & Hest)].
  - rewrite Hc in Ht. discriminate.
  - split; lia.
Qed.

Lemma Forall_mapi_from {A B} (P : B -> Prop) (f : A -> nat -> B) i l :
  (forall x idx, In x l -> P (f x idx)) -> Forall P (mapi_from f i l).
Proof.
  revert i. induction l as [|x l IH]; intros i H; simpl; constructor.
  - apply H. now left.
  - apply IH. intros y idx Hy. apply H. now right.
Qed.

Lemma startsWith_app p s : startsWith p (p ++ s) = true.
Proof. induction p; simpl; [reflexivity|]. now rewrite N.eqb_refl. Qed.

Lemma endsWith_app pre s : endsWith (pre ++ s) s = true.
Proof. unfold endsWith. rewrite rev_app_distr. apply startsWith_app. Qed.

Lemma stripSpace_app a b : stripSpace (a ++ b) = stripSpace a ++ stripSpace b.
Proof. apply filter_app. Qed.

Lemma stripSpace_spaces s : forallb isSpace s = true -> stripSpace s = [].
Proof.
  induction s; simpl; [reflexivity|].
  intros H. apply andb_prop in H as [Ha Hs]. rewrite Ha; simpl. auto.
Qed.

Lemma takeWhile_firstn {A} (p : A -> bool) s :
  forallb p (firstn (length (takeWhile p s)) s) = true.
Proof.
  induction s; simpl; [reflexivity|].
  destruct (p a) eqn:Hp; simpl; [now rewrite Hp|reflexivity].
Qed.

(** What [overlapBreak] removes is white space. *)
Lemma overlapBreak_spaces before s n caps :
  overlapBreak before s = Some (n, caps) ->
  caps = [] /\ forallb isSpace (firstn n s) = true.
Proof.
  unfold overlapBreak, afterTerminator.
  destruct before; [discriminate|].
  destruct (_ && _); [|discriminate].
  intros H; inversion H; subst. split; [reflexivity|apply takeWhile_firstn].
Qed.

Lemma stripSpace_cons c s : stripSpace (c :: s) = stripSpace [c] ++ stripSpace s.
Proof. apply (stripSpace_app [c] s). Qed.

Lemma stripSpace_space c : isSpace c = true -> stripSpace [c] = [].
Proof. intros H. unfold stripSpace; simpl. now rewrite H. Qed.

Lemma split_go_strip before piece skip s :
  forallb isSpace (firstn skip s) = true ->
  concat (map stripSpace (split_go overlapBreak before piece skip s))
  = stripSpace (rev piece) ++ stripSpace s.
Proof.
  revert before piece skip.
  induction s as [|c s IH]; intros before piece skip Hsk.
  - simpl. now rewrite app_nil_r.
  - rewrite (stripSpace_cons c s). cbn [split_go].
    destruct skip as [|k].
    + destruct (overlapBreak before (c :: s)) as [[n caps]|] eqn:Hm.
      * apply overlapBreak_spaces in Hm as [-> Hsp].
        destruct n as [|k].
        -- destruct piece as [|x piece'].
           ++ rewrite IH by reflexivity. reflexivity.
           ++ cbn [map concat app]. rewrite IH by reflexivity.
              reflexivity.
        -- cbn [map concat app]. simpl in Hsp. apply andb_prop in Hsp as [Hc Hk].
           rewrite IH by exact Hk. rewrite (stripSpace_space _ Hc). reflexivity.
      * rewrite IH by reflexivity. cbn [rev]. rewrite stripSpace_app.
        rewrite <- app_assoc. reflexivity.
    + simpl in Hsk. apply andb_prop in Hsk as [Hc Hk].
      rewrite IH by exact Hk. rewrite (stripSpace_space _ Hc). reflexivity.
Qed.

Lemma split_overlapBreak_strip s :
  concat (map stripSpace (split overlapBreak s)) = stripSpace s.
Proof.
  destruct s as [|c s]; [reflexivity|].
  unfold split. now rewrite split_go_strip.
Qed.

Lemma overlapLoop_suffix target backwards acc tok :
  exists pre,
    concat (map stripSpace (rev backwards)) ++ stripSpace acc
    = pre ++ stripSpace (overlapLoop target backwards acc tok).
Proof.
  revert acc tok. induction backwards as [|sentence rest IH]; intros acc tok.
  - exists []. reflexivity.
  - cbn [overlapLoop rev]. destruct (tok <? target).
    + destruct (IH (sentence ++ (if truthy acc then SP ++ acc else []))
                  (tok + estimateTokens sentence)) as [pre Hpre].
      exists pre. rewrite <- Hpre.
      rewrite map_app, concat_app. cbn [map concat]. rewrite app_nil_r, <- app_assoc.
      f_equal. rewrite stripSpace_app. f_equal.
      destruct acc; reflexivity.
    + eexists. reflexivity.
Qed.

Lemma extractOverlap_suffix content target :
  endsWith (stripSpace content) (stripSpace (extractOverlap content target)) = true.
Proof.
  unfold extractOverlap.
  destruct (overlapLoop_suffix target (rev (split overlapBreak content)) [] 0)
    as [pre Hpre].
  rewrite rev_involutive, split_overlapBreak_strip in Hpre.
  simpl in Hpre. rewrite app_nil_r in Hpre. rewrite Hpre.
  apply endsWith_app.
Qed.

Section OverlapInvariant.
Variable config : Config.

Lemma lastElem_snoc {A} (l : list A) x : lastElem (l ++ [x]) = Some x.
Proof. unfold lastElem. now rewrite rev_app_distr. Qed.

Lemma lastElem_cons {A} (a b : A) l : lastElem (a :: b :: l) = lastElem (b :: l).
Proof.
  unfold lastElem. cbn [rev].
  destruct (rev l ++ [b]) eqn:E; [destruct (rev l); discriminate|reflexivity].
Qed.

Lemma pairwise_app P l l' :
  pairwise P l -> pairwise P l' ->
  (forall a b, lastElem l = Some a -> hd_error l' = Some b -> P a b) ->
  pairwise P (l ++ l').
Proof.
  induction l as [|a [|b l] IH]; intros Hl Hl' Hab.
  - exact Hl'.
  - destruct l' as [|b l']; [exact I|].
    split; [apply Hab; reflexivity | exact Hl'].
  - destruct Hl as [Hp Hl]. cbn [app pairwise]. split; [exact Hp|].
    apply IH; auto. intros x y Hx Hy. apply Hab; auto.
    now rewrite lastElem_cons.
Qed.

Lemma pairwise_nth P l i a b :
  pairwise P l -> nth_error l i = Some a -> nth_error l (S i) = Some b -> P a b.
Proof.
  revert i. induction l as [|x [|y l] IH]; intros i Hl Ha Hb.
  - destruct i; discriminate.
  - destruct i as [|[|i]]; discriminate.
  - destruct Hl as [Hp Hl]. destruct i as [|i].
    + simpl in Ha, Hb. inversion Ha; inversion Hb; subst. exact Hp.
    + apply (IH i); auto.
Qed.

Lemma startsWith_weaken p s t :
  startsWith p s = true -> startsWith p (s ++ t) = true.
Proof.
  revert s. induction p as [|a p IH]; intros [|b s]; simpl; try easy.
  intros H. apply andb_prop in H as [-> H]. simpl. auto.
Qed.

Lemma seeded_extend prev s x :
  seeded config prev s -> seeded config prev (s ++ LFLF ++ x).
Proof.
  intros (rest & Hs & Hov & Hrest). exists (rest ++ LFLF ++ x).
  split; [|split; [exact Hov|right]].
  - rewrite Hs. now rewrite <- !app_assoc.
  - destruct Hrest as [-> | Hr]; [reflexivity|].
    now apply startsWith_weaken.
Qed.

Lemma createOverlapChunk_seeded prev i :
  hasOverlap (createOverlapChunk prev config) = true ->
  seeded config (finalizeChunk prev i) (content (createOverlapChunk prev config)).
Proof.
  unfold createOverlapChunk, seeded.
  destruct (truthy (content prev)); cbn; [|discriminate].
  intros H. rewrite H. exists []. rewrite app_nil_r. auto.
Qed.

Lemma createOverlapChunk_truthy prev :
  hasOverlap (createOverlapChunk prev config) = true ->
  truthy (content prev) = true.
Proof.
  unfold createOverlapChunk. destruct (truthy (content prev)); [reflexivity|discriminate].
Qed.

Lemma pushCurrent_inv chunks cur :
  overlapInv config (chunks, cur) ->
  pairwise (overlapsPrevious config) (pushCurrent chunks cur)
  /\ (truthy (content cur) = true ->
      lastElem (pushCurrent chunks cur) = Some (finalizeChunk cur (length chunks))).
Proof.
  intros [Hp Hc]. unfold pushCurrent.
  destruct (truthy (content cur)); [|split; [exact Hp|discriminate]].
  split; [|intros _; apply lastElem_snoc].
  apply pairwise_app; [exact Hp|exact I|].
  intros a b Ha Hb. inversion Hb; subst. intros Hov. cbn in Hov.
  destruct (Hc Hov) as (prev & Hprev & Hs). rewrite Ha in Hprev.
  inversion Hprev; subst. exact Hs.
Qed.

Lemma mapi_from_noOverlap (f : Acc -> nat -> Chunk) i subs :
  (forall c idx, In c subs -> md_hasOverlap (metadata (f c idx)) = false) ->
  Forall (fun c => md_hasOverlap (metadata c) = false) (mapi_from f i subs).
Proof.
  revert i. induction subs as [|x subs IH]; intros i H; simpl; constructor.
  - apply H. now left.
  - apply IH. intros c idx Hin. apply H. now right.
Qed.

Lemma pairwise_noOverlap l :
  Forall (fun c => md_hasOverlap (metadata c) = false) l ->
  pairwise (overlapsPrevious config) l.
Proof.
  induction l as [|a [|b l] IH]; intros H; simpl; auto.
  inversion H as [|? ? _ Hb]; subst. split; [|apply IH; exact Hb].
  inversion Hb; subst. intros Hov. congruence.
Qed.


Lemma splitLongSegment_noOverlap segment lang :
  Forall (fun a => hasOverlap a = false) (splitLongSegment segment config lang).
Proof.
  unfold splitLongSegment.
  set (sentences := sentencesOf lang segment).
  set (init := ([], _)).
  assert (H : let '(subs, cur) := fold_left (sentenceStep segment config) sentences init in
              Forall (fun a => hasOverlap a = false) subs /\ hasOverlap cur = false).
  { apply fold_left_invariant; [split; [constructor|reflexivity]|].
    intros [subs cur] x _ [Hs Hc]. unfold sentenceStep.
    destruct (_ <=? _); [split; [exact Hs|reflexivity]|].
    split; [|reflexivity].
    destruct (truthy (content cur)); [|exact Hs].
    apply Forall_app; split; [exact Hs|]. constructor; [exact Hc|constructor]. }
  destruct (fold_left _ _ _) as [subs cur]. destruct H as [Hs Hc].
  destruct (truthy (content cur)); [|exact Hs].
  apply Forall_app; split; [exact Hs|]. constructor; [exact Hc|constructor].
Qed.

Lemma lastElem_mapi_from {A B} (f : A -> nat -> B) l i subs x :
  lastElem subs = Some x ->
  exists idx, lastElem (l ++ mapi_from f i subs) = Some (f x idx).
Proof.
  revert l i. induction subs as [|y subs IH]; intros l i H; [discriminate|].
  destruct subs as [|z subs].
  - inversion H; subst. exists i. cbn [mapi_from]. apply lastElem_snoc.
  - rewrite lastElem_cons in H.
    destruct (IH (l ++ [f y i]) (S i) H) as [idx Hidx].
    exists idx. rewrite <- Hidx. cbn [mapi_from]. now rewrite <- app_assoc.
Qed.

Lemma chunkStep_overlapInv lang st seg st' :
  overlapInv config st -> chunkStep config lang st seg = Ok st' -> overlapInv config st'.
Proof.
  destruct st as [chunks cur]. intros Hinv Hstep.
  destruct (pushCurrent_inv Hinv) as [Hpush Hlast].
  unfold chunkStep in Hstep.
  destruct (estimateTokens (seg_content seg) >? maxChunkTokens config).
  - destruct (lastElem (splitLongSegment seg config lang)) as [lastSub|] eqn:Hl;
      inversion Hstep; subst; clear Hstep.
    set (chunks1 := pushCurrent chunks cur) in *.
    split.
    + apply pairwise_app; [exact Hpush| |].
      * apply pairwise_noOverlap, mapi_from_noOverlap.
        intros c idx Hin. cbn.
        pose proof (splitLongSegment_noOverlap seg lang) as Hno.
        rewrite Forall_forall in Hno. now apply Hno.
      * intros a b _ Hb Hov.
        pose proof (splitLongSegment_noOverlap seg lang) as Hno.
        destruct (splitLongSegment seg config lang) as [|s0 subs]; [discriminate|].
        inversion Hb; subst. cbn in Hov.
        inversion Hno; subst. congruence.
    + intros Hov.
      destruct (lastElem_mapi_from
                  (fun c idx => finalizeChunk c (length chunks1 + idx))
                  chunks1 0 _ Hl) as [idx Hidx].
      eexists; split; [exact Hidx|].
      now apply createOverlapChunk_seeded.
  - destruct (tokens cur + estimateTokens (seg_content seg) <=? maxChunkTokens config);
      inversion Hstep; subst; clear Hstep.
    + destruct Hinv as [Hp Hc]. split; [exact Hp|]. cbn. intros Hov.
      destruct (Hc Hov) as (prev & Hprev & Hs). exists prev. split; [exact Hprev|].
      assert (Ht : truthy (content cur) = true).
      { destruct Hs as (rest & -> & _). reflexivity. }
      rewrite Ht. now apply seeded_extend.
    + split; [exact Hpush|]. cbn. intros Hov.
      pose proof (createOverlapChunk_truthy _ Hov) as Ht.
      exists (finalizeChunk cur (length chunks)). split; [auto|].
      pose proof (createOverlapChunk_seeded cur (length chunks) Hov) as Hs.
      assert (Ht' : truthy (content (createOverlapChunk cur config)) = true).
      { destruct Hs as (rest & -> & _). reflexivity. }
      rewrite Ht'. now apply seeded_extend.
Qed.

Lemma chunkLoop_overlapInv lang segs st st' :
  overlapInv config st -> chunkLoop config lang st segs = Ok st' -> overlapInv config st'.
Proof.
  revert st. induction segs as [|seg segs IH]; intros st Hinv Hloop; simpl in Hloop.
  - inversion Hloop; subst. exact Hinv.
  - destruct (chunkStep config lang st seg) as [st1|] eqn:Hstep; [|discriminate].
    eapply IH; [|exact Hloop]. eapply chunkStep_overlapInv; eauto.
Qed.

Lemma pairwise_replace_last front lastChunk cur :
  pairwise (overlapsPrevious config) (front ++ [lastChunk]) ->
  pairwise (overlapsPrevious config) (front ++ [mergeInto lastChunk cur]).
Proof.
  induction front as [|a [|b front] IH]; intros H.
  - exact I.
  - destruct H as [H _]. split; [|exact I].
    intros Hov. cbn in Hov |- *. now apply seeded_extend, H.
  - destruct H as [Hab H]. split; [exact Hab|]. apply IH. exact H.
Qed.

Lemma finalFlush_pairwise chunks cur :
  overlapInv config (chunks, cur) ->
  pairwise (overlapsPrevious config) (finalFlush config chunks cur).
Proof.
  intros Hinv. destruct (pushCurrent_inv Hinv) as [Hpush _].
  unfold finalFlush, pushCurrent in *.
  destruct (truthy (content cur)); cbn [andb]; [|apply Hinv].
  destruct (tokens cur >=? minChunkTokens config); [exact Hpush|].
  destruct (0 <? length chunks)%nat; [|apply Hinv].
  destruct Hinv as [Hp _].
  destruct (rev chunks) as [|lastChunk front] eqn:Hrev; [exact Hp|].
  apply pairwise_replace_last.
  rewrite <- (rev_involutive chunks), Hrev in Hp. exact Hp.
Qed.

End OverlapInvariant.

(** C7 (amended).  A chunk flagged [hasOverlap] starts with the marker,
    followed by the overlap [extractOverlap] took from the chunk before it
    (a non-empty text), followed by nothing or by a blank line; that
    overlap is a suffix of the previous chunk's content once white space is
    removed from both.  The overlap may contain blank lines of its own. *)
Theorem overlap_prefix_is_tail (text : jsstring) (config : Config)
    (chunks : list Chunk) (i : nat) (a b : Chunk) :
  smartChunk text config = Ok chunks ->
  nth_error chunks i = Some a ->
  nth_error chunks (S i) = Some b ->
  md_hasOverlap (metadata b) = true ->
  let overlap := extractOverlap (chunk_content a) (overlapTokens config) in
  startsWith overlapMarker (chunk_content b) = true
  /\ (exists rest,
        chunk_content b = overlapMarker ++ overlap ++ rest
        /\ (rest = [] \/ startsWith LFLF rest = true))
  /\ truthy overlap = true
  /\ endsWith (stripSpace (chunk_content a)) (stripSpace overlap) = true.
Proof.
  intros Hsmart Ha Hb Hov overlap. unfold smartChunk in Hsmart.
  destruct (chunkLoop _ _ _ _) as [[chunks0 cur]|] eqn:Hloop; [|discriminate].
  inversion Hsmart; subst; clear Hsmart.
  assert (Hinv : overlapInv config (chunks0, cur)).
  { eapply chunkLoop_overlapInv; [|exact Hloop]. split; [exact I|discriminate]. }
  pose proof (pairwise_nth _ _ _ (finalFlush_pairwise Hinv) Ha Hb) as HP.
  destruct (HP Hov) as (rest & Hc & Ht & Hrest).
  fold overlap in Hc, Ht.
  split; [rewrite Hc; apply startsWith_app|].
  split; [exists rest; auto|].
  split; [exact Ht|apply extractOverlap_suffix].
Qed.

Lemma dropWhile_snoc {A} (p : A -> bool) l x :
  p x = false -> dropWhile p (l ++ [x]) = dropWhile p l ++ [x].
Proof.
  intros Hx. induction l as [|a l IH]; simpl.
  - now rewrite Hx.
  - destruct (p a); [exact IH|reflexivity].
Qed.

Lemma dropWhile_head {A} (p : A -> bool) l x r :
  dropWhile p l = x :: r -> p x = false.
Proof.
  induction l as [|a l IH]; simpl; [discriminate|].
  destruct (p a) eqn:Ha; [exact IH|]. intros H; inversion H; subst. exact Ha.
Qed.

Lemma trim_solid_head c r : isSpace c = false -> solid (trim (c :: r)).
Proof.
  intros Hc. unfold trim. cbn [dropWhile]. rewrite Hc. cbn [rev].
  rewrite dropWhile_snoc by exact Hc. rewrite rev_app_distr. cbn.
  eexists _, _. split; [reflexivity|exact Hc].
Qed.

Lemma trim_truthy_solid s : truthy (trim s) = true -> solid (trim s).
Proof.
  unfold trim. destruct (dropWhile isSpace s) as [|c r] eqn:Hd; [discriminate|].
  intros _. pose proof (dropWhile_head _ _ Hd) as Hc.
  cbn [rev]. rewrite dropWhile_snoc by exact Hc. rewrite rev_app_distr. cbn.
  eexists _, _. split; [reflexivity|exact Hc].
Qed.

Lemma solid_app s t : solid s -> solid (s ++ t).
Proof. intros (c & r & -> & Hc). exists c, (r ++ t). auto. Qed.

Lemma solid_truthy s : solid s -> truthy s = true.
Proof. intros (c & r & -> & _). reflexivity. Qed.

Lemma solid_trim_truthy s : solid s -> truthy (trim s) = true.
Proof.
  intros (c & r & -> & Hc). apply solid_truthy. now apply trim_solid_head.
Qed.

Lemma lineStep_solid patterns segments cur line :
  Forall (fun g => solid (seg_content g)) segments ->
  (seg_content cur = [] \/ solid (seg_content cur)) ->
  let '(segments', cur') := lineStep patterns (segments, cur) line in
  Forall (fun g => solid (seg_content g)) segments'
  /\ (seg_content cur' = [] \/ solid (seg_content cur')).
Proof.
  intros Hs Hc. unfold lineStep.
  destruct (truthy (trim line)) eqn:Ht; cbn [negb].
  - pose proof (trim_truthy_solid _ Ht) as Hline.
    assert (Hext : solid (seg_content cur
                          ++ (if truthy (seg_content cur) then LF else [])
                          ++ trim line)).
    { destruct Hc as [-> | Hc]; [exact Hline|now apply solid_app]. }
    destruct (classifyLine patterns (trim line)) as [[ty imp]|].
    + destruct (truthy (trim (seg_content cur))) eqn:Htc.
      * split; [|right; exact Hline].
        apply Forall_app; split; [exact Hs|]. constructor; [|constructor].
        destruct Hc as [Hc | Hc]; [rewrite Hc in Htc; discriminate|exact Hc].
      * split; [exact Hs|right; exact Hext].
    + split; [exact Hs|right; exact Hext].
  - destruct (truthy (seg_content cur)) eqn:Htc; [|split; assumption].
    split; [exact Hs|]. right. cbn.
    destruct Hc as [Hc | Hc]; [rewrite Hc in Htc; discriminate|now apply solid_app].
Qed.

Lemma identifyLegalStructure_solid text lang :
  Forall (fun g => solid (seg_content g)) (identifyLegalStructure text lang).
Proof.
  unfold identifyLegalStructure.
  set (init := ([], _)).
  assert (H : let '(segments, cur) :=
                fold_left (lineStep (LEGAL_PATTERNS lang)) (split lineBreak text) init in
              Forall (fun g => solid (seg_content g)) segments
              /\ (seg_content cur = [] \/ solid (seg_content cur))).
  { apply fold_left_invariant; [split; [constructor|now left]|].
    intros [segments cur] line _ [Hs Hc]. now apply lineStep_solid. }
  destruct (fold_left _ _ _) as [segments cur]. destruct H as [Hs Hc].
  destruct (truthy (trim (seg_content cur))) eqn:Ht; [|exact Hs].
  apply Forall_app; split; [exact Hs|]. constructor; [|constructor].
  destruct Hc as [Hc | Hc]; [rewrite Hc in Ht; discriminate|exact Hc].
Qed.

(** The first piece of a split starts with what has been read of it. *)
Lemma split_go_first m before piece skip s :
  piece <> [] ->
  exists x rest, split_go m before piece skip s = (rev piece ++ x) :: rest.
Proof.
  revert before piece skip. induction s as [|c s IH]; intros before piece skip Hp.
  - exists [], []. cbn. now rewrite app_nil_r.
  - cbn [split_go]. destruct skip as [|k]; [|now apply IH].
    destruct (m before (c :: s)) as [[[|k] caps]|].
    + destruct piece; [congruence|]. exists [], (caps ++ split_go m (c :: before) [c] 0 s).
      now rewrite app_nil_r.
    + exists [], (caps ++ split_go m (c :: before) [] k s). now rewrite app_nil_r.
    + destruct (IH (c :: before) (c :: piece) 0%nat ltac:(discriminate)) as (x & rest & H).
      exists (c :: x), rest. rewrite H. cbn [rev]. now rewrite <- app_assoc.
Qed.

Lemma sentencesOf_truthy lang segment :
  solid (seg_content segment) ->
  exists sentence, In sentence (sentencesOf lang segment) /\ truthy sentence = true.
Proof.
  intros (c & r & Hc & Hsp). unfold sentencesOf. rewrite Hc. destruct lang.
  - unfold splitChineseSentences, split. cbn [split_go sentenceEnders].
    assert (Hkeep : forall y tl,
              exists sentence,
                In sentence (map trim (filter (fun s => truthy (trim s))
                                         ((c :: y) :: tl))) /\
                truthy sentence = true).
    { intros y tl. cbn [filter].
      pose proof (@trim_solid_head c y Hsp) as Hsol.
      rewrite (solid_truthy Hsol). exists (trim (c :: y)).
      split; [now left|now apply solid_truthy]. }
    destruct (inClass _ c).
    + cbn [rev app pairUp]. apply Hkeep.
    + destruct (split_go_first sentenceEnders [c] 0 r (piece := [c]) ltac:(discriminate))
        as (x & rest & ->). cbn [rev app].
      destruct rest as [|b rest]; cbn [pairUp app]; apply Hkeep.
  - unfold split. cbn [split_go enSentenceBreak afterTerminator].
    destruct (split_go_first enSentenceBreak [c] 0 r (piece := [c]) ltac:(discriminate))
      as (x & rest & ->). exists (rev [c] ++ x). split; [now left|reflexivity].
Qed.

Lemma truthy_app_l a b : truthy a = true -> truthy (a ++ b) = true.
Proof. destruct a; [discriminate|reflexivity]. Qed.

Lemma truthy_app_r a b : truthy b = true -> truthy (a ++ b) = true.
Proof. destruct a; [auto|reflexivity]. Qed.

Lemma splitLongSegment_nonempty segment config lang :
  solid (seg_content segment) ->
  exists lastSub, lastElem (splitLongSegment segment config lang) = Some lastSub.
Proof.
  intros Hsolid.
  destruct (@sentencesOf_truthy lang segment Hsolid) as (sentence & Hin & Ht).
  unfold splitLongSegment. set (init := ([], _)).
  assert (H : forall l st,
             (In sentence l \/ fst st <> [] \/ truthy (content (snd st)) = true) ->
             let st' := fold_left (sentenceStep segment config) l st in
             fst st' <> [] \/ truthy (content (snd st')) = true).
  { induction l as [|x l IH]; intros st Hst.
    - destruct Hst as [[] | Hst]; exact Hst.
    - cbn [fold_left]. apply IH. destruct st as [subs cur]. unfold sentenceStep.
      cbn [fst snd] in Hst.
      destruct (_ <=? _); cbn [fst snd content].
      + destruct Hst as [[-> | Hl] | [Hq | Hq]];
          [right; right | now left | right; left; exact Hq | right; right].
        * rewrite app_assoc. now apply truthy_app_r.
        * now apply truthy_app_l.
      + destruct Hst as [[-> | Hl] | [Hq | Hq]]; [right; right; exact Ht | now left | |].
        * right; left. destruct (truthy (content cur)); [|exact Hq].
          destruct subs; discriminate.
        * right; left. rewrite Hq. destruct subs; discriminate. }
  specialize (H (sentencesOf lang segment) init (or_introl Hin)).
  destruct (fold_left _ _ _) as [subs cur]. cbn in H.
  assert (Hne : (if truthy (content cur) then subs ++ [cur] else subs) <> []).
  { destruct (truthy (content cur)); [destruct subs; discriminate|].
    destruct H as [H | H]; [exact H|discriminate]. }
  unfold lastElem. destruct (if truthy (content cur) then _ else _) as [|a l] using rev_ind;
    [congruence|].
  rewrite rev_app_distr. cbn. eauto.
Qed.

Lemma chunkLoop_total config lang segs st :
  Forall (fun g => solid (seg_content g)) segs ->
  exists st', chunkLoop config lang st segs = Ok st'.
Proof.
  intros Hs. revert st. induction Hs as [|seg segs Hseg _ IH]; intros st.
  - eexists; reflexivity.
  - cbn [chunkLoop]. destruct st as [chunks cur]. unfold chunkStep.
    destruct (@splitLongSegment_nonempty seg config lang Hseg) as [lastSub Hl].
    destruct (_ >? _); [rewrite Hl; apply IH|].
    destruct (_ <=? _); apply IH.
Qed.

Lemma smartChunk_flush text config :
  exists emitted cur,
    smartChunk text config = Ok (finalFlush config emitted cur).
Proof.
  unfold smartChunk.
  destruct (@chunkLoop_total config (detectLanguage text) _ ([], initialChunk)
              (identifyLegalStructure_solid text (detectLanguage text)))
    as [[emitted cur] ->].
  now exists emitted, cur.
Qed.

(** [smartChunk] never throws: every segment starts with a character that
    is no white space, so an oversize segment always yields a sub-chunk;
    what it returns is the final flush of the state the loop ends in. *)
Theorem smartChunk_total text config :
  exists chunks,
    smartChunk text config = Ok chunks
    /\ exists emitted cur,
         chunkLoop config (detectLanguage text) ([], initialChunk)
           (identifyLegalStructure text (detectLanguage text))
         = Ok (emitted, cur)
         /\ chunks = finalFlush config emitted cur.
Proof.
  destruct (@chunkLoop_total config (detectLanguage text) _ ([], initialChunk)
              (identifyLegalStructure_solid text (detectLanguage text)))
    as [[emitted cur] Hloop].
  exists (finalFlush config emitted cur). split.
  - unfold smartChunk. now rewrite Hloop.
  - now exists emitted, cur.
Qed.


(** C1.  The final flush has no branch for a residual below
    [minChunkTokens] when no chunk has been emitted: the residual is lost.
    A text as short as "hello" yields no chunk at all under the default
    configuration.  The two branches the flush does have behave as
    described: a residual of at least [minChunkTokens] becomes the last
    chunk, a smaller one is appended to the last chunk emitted. *)
Theorem short_text_yields_no_chunk :
  smartChunk (js "hello") CHUNK_CONFIG = Ok []
  /\ (forall config cur,
        tokens cur < minChunkTokens config -> finalFlush config [] cur = [])
  /\ (forall config chunks cur,
        truthy (content cur) = true ->
        minChunkTokens config <= tokens cur ->
        finalFlush config chunks cur
        = chunks ++ [finalizeChunk cur (length chunks)])
  /\ (forall config front lastChunk cur,
        truthy (content cur) = true ->
        tokens cur < minChunkTokens config ->
        finalFlush config (front ++ [lastChunk]) cur
        = front ++ [mergeInto lastChunk cur]).
Proof.
  split; [vm_compute; reflexivity|].
  split; [|split].
  - intros config cur Hlt. unfold finalFlush.
    replace (tokens cur >=? minChunkTokens config) with false by lia.
    now rewrite !andb_false_r.
  - intros config chunks cur Ht Hge. unfold finalFlush. rewrite Ht.
    now replace (tokens cur >=? minChunkTokens config) with true by lia.
  - intros config front lastChunk cur Ht Hlt. unfold finalFlush. rewrite Ht.
    replace (tokens cur >=? minChunkTokens config) with false by lia.
    rewrite length_app, rev_app_distr. cbn [andb length rev app].
    replace (0 <? length front + 1)%nat with true
      by (symmetry; apply Nat.ltb_lt; lia).
    now rewrite rev_involutive.
Qed.

Lemma estimateTokens_marker : estimateTokens overlapMarker = 3.
Proof. reflexivity. Qed.

Lemma createOverlapChunk_seededWithin config prev :
  hasOverlap (createOverlapChunk prev config) = true ->
  seededWithin config (createOverlapChunk prev config).
Proof.
  unfold createOverlapChunk, seededWithin.
  destruct (truthy (content prev)); cbn [negb]; [|discriminate].
  cbn [hasOverlap content tokens segments length]. intros ->.
  pose proof (estimateTokens_nonneg (extractOverlap (content prev) (overlapTokens config))).
  pose proof (estimateTokens_app overlapMarker
                (extractOverlap (content prev) (overlapTokens config))).
  rewrite estimateTokens_marker in *.
  split; [lia|]. split; [cbn [Z.of_nat]; lia|]. now left.
Qed.

Lemma estimateTokens_join a b :
  estimateTokens (a ++ (if truthy a then LFLF else []) ++ b)
  <= estimateTokens a + estimateTokens b + 1.
Proof.
  destruct (truthy a).
  - apply estimateTokens_blank_join.
  - cbn [app]. pose proof (estimateTokens_app a b). lia.
Qed.

Lemma chunkStep_accounted config lang chunks cur seg chunks' cur' :
  accounted config cur ->
  chunkStep config lang (chunks, cur) seg = Ok (chunks', cur') ->
  accounted config cur'.
Proof.
  intros [Hb Hs] Hstep. split; [eapply chunkStep_budgeted; eauto|].
  unfold chunkStep in Hstep.
  destruct (estimateTokens (seg_content seg) >? maxChunkTokens config) eqn:Hbig.
  - destruct (lastElem _); inversion Hstep; subst.
    apply createOverlapChunk_seededWithin.
  - pose proof (estimateTokens_nonneg (seg_content seg)) as Hnn.
    destruct (tokens cur + estimateTokens (seg_content seg) <=? maxChunkTokens config) eqn:Hadd;
      inversion Hstep; subst; clear Hstep; cbn [hasOverlap]; intros Hov.
    + destruct (Hs Hov) as (H0 & Hest & Hmax). unfold seededWithin.
      cbn [content tokens segments]. rewrite length_app. cbn [length].
      pose proof (estimateTokens_join (content cur) (seg_content seg)).
      split; [lia|]. split; [lia|]. right; left; lia.
    + unfold seededWithin. cbn [content tokens segments length].
      pose proof (estimateTokens_nonneg
                    (content (createOverlapChunk cur config)
                     ++ (if truthy (content (createOverlapChunk cur config))
                         then LFLF else [])
                     ++ seg_content seg)).
      split; [lia|]. split; [lia|]. right; right. split; reflexivity.
Qed.

Lemma accounted_measured config cur :
  accounted config cur -> truthy (content cur) = true -> measured config cur.
Proof.
  intros [Hb Hs] Ht. unfold measured.
  destruct (hasOverlap cur) eqn:Hov; [now apply Hs|now apply budgeted_packed].
Qed.

Lemma emittedBy_mono config lang segs seg c :
  emittedBy config lang segs c -> emittedBy config lang (segs ++ [seg]) c.
Proof.
  intros (acc & Hc & Hor). exists acc. split; [exact Hc|].
  destruct Hor as [(pre & post & chunks0 & -> & Hl & Hp) | (segment & Hin & Hrest)].
  - left. exists pre, (post ++ [seg]), chunks0. rewrite <- app_assoc.
    destruct Hp as [Ht Hm]. auto.
  - right. exists segment. split; [apply in_or_app; now left|auto].
Qed.

Lemma pushCurrent_emitted config lang segs chunks cur :
  chunkLoop config lang ([], initialChunk) segs = Ok (chunks, cur) ->
  accounted config cur ->
  Forall (emittedBy config lang segs) chunks ->
  Forall (emittedBy config lang segs) (pushCurrent chunks cur).
Proof.
  intros Hloop Hb Hf. unfold pushCurrent.
  destruct (truthy (content cur)) eqn:Ht; [|exact Hf].
  apply Forall_app; split; [exact Hf|]. constructor; [|constructor].
  exists cur. split; [eexists; reflexivity|].
  left. exists segs, [], chunks. rewrite app_nil_r.
  split; [reflexivity|]. split; [exact Hloop|]. split; [exact Ht|].
  now apply accounted_measured.
Qed.

Lemma accounted_initial config : accounted config initialChunk.
Proof. split; [intros _; left; auto|discriminate]. Qed.

Lemma chunkLoop_emitted config lang segs chunks cur :
  chunkLoop config lang ([], initialChunk) segs = Ok (chunks, cur) ->
  Forall (emittedBy config lang segs) chunks /\ accounted config cur.
Proof.
  revert chunks cur. induction segs as [|seg segs IH] using rev_ind;
    intros chunks cur Hloop.
  - inversion Hloop; subst. split; [constructor|apply accounted_initial].
  - rewrite chunkLoop_app in Hloop.
    destruct (chunkLoop config lang ([], initialChunk) segs)
      as [[chunks1 cur1]|] eqn:Hpre; [|discriminate].
    destruct (IH _ _ eq_refl) as [Hf Hb].
    cbn [chunkLoop] in Hloop.
    destruct (chunkStep config lang (chunks1, cur1) seg) as [st'|] eqn:Hstep;
      [|discriminate].
    inversion Hloop; subst; clear Hloop.
    split; [|eapply chunkStep_accounted; eauto].
    pose proof (pushCurrent_emitted Hpre Hb Hf) as Hpush.
    assert (Hpush' : Forall (emittedBy config lang (segs ++ [seg]))
                       (pushCurrent chunks1 cur1)).
    { eapply Forall_impl; [|exact Hpush]. intros c. apply emittedBy_mono. }
    assert (Hf' : Forall (emittedBy config lang (segs ++ [seg])) chunks1).
    { eapply Forall_impl; [|exact Hf]. intros c. apply emittedBy_mono. }
    unfold chunkStep in Hstep.
    destruct (estimateTokens (seg_content seg) >? maxChunkTokens config) eqn:Hbig.
    + destruct (lastElem _); inversion Hstep; subst; clear Hstep.
      apply Forall_app; split; [exact Hpush'|].
      apply Forall_mapi_from. intros sub idx Hin.
      pose proof (splitLongSegment_noOverlap config seg lang) as Hplain.
      rewrite Forall_forall in Hplain.
      exists sub. split; [eexists; reflexivity|].
      right. exists seg.
      split; [apply in_or_app; right; now left|].
      split; [lia|]. split; [exact Hin|]. split; [now apply Hplain|].
      pose proof (splitLongSegment_budget config lang seg) as Hsub.
      rewrite Forall_forall in Hsub. now apply Hsub.
    + destruct (_ <=? _); inversion Hstep; subst; clear Hstep; assumption.
Qed.

(** The three ways the statements after the loop end. *)
Lemma finalFlush_shape config emitted cur :
  finalFlush config emitted cur = pushCurrent emitted cur
  \/ finalFlush config emitted cur = emitted
  \/ (exists front lastChunk,
        emitted = front ++ [lastChunk]
        /\ truthy (content cur) = true
        /\ tokens cur < minChunkTokens config
        /\ finalFlush config emitted cur = front ++ [mergeInto lastChunk cur]).
Proof.
  unfold finalFlush, pushCurrent.
  destruct (truthy (content cur)) eqn:Ht; cbn [andb]; [|now left].
  destruct (tokens cur >=? minChunkTokens config) eqn:Hge; [now left|].
  destruct (0 <? length emitted)%nat; [|right; now left].
  destruct (rev emitted) as [|lastChunk front] eqn:Hrev; [right; now left|].
  right; right. exists (rev front), lastChunk.
  split; [|split; [reflexivity|split; [lia|reflexivity]]].
  rewrite <- (rev_involutive emitted), Hrev. reflexivity.
Qed.



(** C7 fails as stated.  The overlap taken from "1. aa\n\n2. bb" is
    "aa\n\n2. bb" and holds a blank line itself, so the text between the
    marker and the first blank line is "aa", which is no suffix of the
    previous chunk. *)
Lemma overlap_region_counterexample :
  exists a b,
    smartChunk threeClauses (tinyConfig 4 2 1) = Ok [a; b]
    /\ md_hasOverlap (metadata b) = true
    /\ overlapRegion (chunk_content b) = js "aa"
    /\ stripSpace (chunk_content a) = js "1.aa2.bb"
    /\ endsWith (stripSpace (chunk_content a))
         (stripSpace (overlapRegion (chunk_content b))) = false.
Proof.
  exists (demoChunk 0), (demoChunk 1). vm_compute. repeat split; reflexivity.
Qed.

(** The overlap of the second chunk of the three clauses, on a budget of
    four tokens with two tokens of overlap. *)
Lemma overlap_prefix_is_tail_witness :
  let overlap :=
    extractOverlap (chunk_content (demoChunk 0)) (overlapTokens (tinyConfig 4 2 1)) in
  startsWith overlapMarker (chunk_content (demoChunk 1)) = true
  /\ (exists rest,
        chunk_content (demoChunk 1) = overlapMarker ++ overlap ++ rest
        /\ (rest = [] \/ startsWith LFLF rest = true))
  /\ truthy overlap = true
  /\ endsWith (stripSpace (chunk_content (demoChunk 0))) (stripSpace overlap) = true.
Proof.
  refine (@overlap_prefix_is_tail threeClauses (tinyConfig 4 2 1) demoChunks 0
            (demoChunk 0) (demoChunk 1) _ _ _ _);
    vm_compute; reflexivity.
Defined.


End ChunkerFacts.

Module AiFacts.
Import Eff Ai Routes AiSpec.
Local Open Scope eff_scope.

Section ClientFacts.
Local Open Scope Z_scope.
Variable JSON_parse : jsstring -> result Error json.
Variable ToString : json -> jsstring.

(** C6.  A 4xx answer is retried.  [validateStatus] lets the answer
    through, its body is an error object without [choices], reading
    [choices[0]] throws, and the [catch] of the loop treats the TypeError as
    any other failure: an answer 401 to every request makes [callAI] send
    three requests, wait 2 s and 4 s in between, and throw the TypeError. *)
Theorem client_error_is_retried :
  let w := worldOf (fun _ => Reply 401 unauthorizedBody) in
  let run := callAI JSON_parse ToString defaultOptions w in
  fst run = Throw (TypeError "Cannot read properties of undefined or null")
  /\ requests (snd run) = 3%nat
  /\ waits (snd run) = [2000; 4000].
Proof. vm_compute. repeat split; reflexivity. Qed.

Lemma attemptOnce_world options w :
  requests (snd (attemptOnce JSON_parse ToString options w)) = S (requests w)
  /\ waits (snd (attemptOnce JSON_parse ToString options w)) = waits w.
Proof.
  unfold attemptOnce, bind, axios_post, lift, ret.
  destruct (net w (requests w)) as [status data|e]; [|split; reflexivity].
  destruct (status <? 500); [|split; reflexivity]. cbn.
  destruct (messageContent data); [|split; reflexivity].
  destruct (jsonMode options); split; reflexivity.
Qed.

(** The retry policy of the loop: one request for each attempt, a wait of
    [backoffTime] after each failed attempt but the last one. *)
Lemma retryLoop_policy options remaining : forall attempt lastError w,
  (attempt + remaining = S (maxRetries options))%nat ->
  exists added,
    waits (snd (retryLoop JSON_parse ToString options attempt remaining lastError w))
    = waits w ++ added
    /\ (requests (snd (retryLoop JSON_parse ToString options attempt remaining lastError w))
        = requests w + (match remaining with O => 0 | S _ => S (length added) end))%nat
    /\ (length added < remaining \/ remaining = 0)%nat
    /\ (forall i ms, nth_error added i = Some ms ->
        ms = 2 ^ Z.of_nat (attempt + i) * 3000
        \/ ms = 2 ^ Z.of_nat (attempt + i) * 1000).
Proof.
  induction remaining as [|remaining IH]; intros attempt lastError w Hsum.
  - exists []. rewrite app_nil_r.
    assert (Hw : snd (retryLoop JSON_parse ToString options attempt 0 lastError w) = w)
      by (cbn; destruct lastError; reflexivity).
    rewrite Hw. repeat split; auto; try lia.
    intros [|i] ms H; discriminate.
  - cbn [retryLoop]. unfold tryCatch.
    pose proof (attemptOnce_world options w) as [Hreq Hwaits].
    destruct (attemptOnce JSON_parse ToString options w) as [[v|error] w1];
      cbn [fst snd] in *.
    + exists []. rewrite app_nil_r. cbn [length].
      split; [auto|]. split; [lia|]. split; [lia|].
      intros [|i] ms H; discriminate.
    + destruct (attempt <? maxRetries options)%nat eqn:Hlt.
      * apply Nat.ltb_lt in Hlt. unfold bind, sleep. cbn [fst snd].
        set (w2 := {| net := net w1 |}).
        destruct (IH (S attempt) (Some error) w2 ltac:(lia))
          as (added & Hw & Hr & Hlen & Hms).
        exists (backoffTime error attempt :: added).
        change (waits w2) with (waits w1 ++ [backoffTime error attempt]) in Hw.
        change (requests w2) with (requests w1) in Hr.
        rewrite Hw, Hr, Hwaits, Hreq, <- app_assoc. cbn [app length].
        destruct remaining as [|remaining]; [lia|].
        split; [reflexivity|]. split; [lia|]. split; [lia|].
        intros [|i] ms H; cbn in H.
        -- inversion H; subst. rewrite Nat.add_0_r. unfold backoffTime.
           destruct (isNetworkError error); auto.
        -- replace (attempt + S i)%nat with (S attempt + i)%nat by lia. eauto.
      * apply Nat.ltb_ge in Hlt. assert (remaining = 0%nat) by lia. subst remaining.
        exists []. rewrite app_nil_r.
        assert (Hw : snd ((if isNetworkError error
                           then throw networkUnstable
                           else retryLoop JSON_parse ToString options (S attempt) 0
                                  (Some error)) w1) = w1)
          by (destruct (isNetworkError error); reflexivity).
        rewrite Hw. split; [auto|]. split; [cbn; lia|]. split; [left; cbn; lia|].
        intros [|i] ms H; discriminate.
Qed.

Lemma backoffTime_cases error attempt :
  backoffTime error attempt
  = if isNetworkError error then 3 * 2 ^ Z.of_nat attempt * 1000
    else 1 * 2 ^ Z.of_nat attempt * 1000.
Proof. unfold backoffTime. destruct (isNetworkError error); lia. Qed.

End ClientFacts.

Lemma insertByLevel_perm r l : Permutation (insertByLevel r l) (r :: l).
Proof.
  induction l as [|x l IH]; cbn; [reflexivity|].
  destruct (_ <=? _)%nat; [reflexivity|].
  rewrite IH. apply perm_swap.
Qed.

Lemma sortByLevel_perm l : Permutation (sortByLevel l) l.
Proof.
  induction l as [|x l IH]; cbn; [reflexivity|].
  rewrite insertByLevel_perm. now constructor.
Qed.

Lemma insertByLevel_sorted r l :
  sortedByLevel l -> sortedByLevel (insertByLevel r l).
Proof.
  unfold sortedByLevel. induction l as [|x l IH]; intros Hs; cbn.
  - repeat constructor.
  - inversion Hs as [|? ? Hl Hx]; subst.
    destruct (order (level x) <=? order (level r))%nat eqn:Hle.
    + apply Nat.leb_le in Hle. constructor; [exact Hs|].
      constructor; [exact Hle|].
      rewrite Forall_forall in *. intros y Hy. specialize (Hx y Hy).
      unfold ranksBefore in *. lia.
    + apply Nat.leb_gt in Hle. constructor; [now apply IH|].
      rewrite Forall_forall in *. intros y Hy.
      apply (Permutation_in _ (insertByLevel_perm r l)) in Hy.
      destruct Hy as [<- | Hy]; [unfold ranksBefore; lia|auto].
Qed.

Lemma sortByLevel_sorted l : sortedByLevel (sortByLevel l).
Proof.
  induction l as [|x l IH]; cbn; [constructor|now apply insertByLevel_sorted].
Qed.

Section ReduceFacts.
Variable JSON_parse : jsstring -> result Error json.
Variable ToString : json -> jsstring.
Variable ToNumber : json -> number.

Lemma str_eqb_eq a b : str_eqb a b = true <-> a = b.
Proof. unfold str_eqb. destruct (list_eq_dec N.eq_dec a b); split; congruence. Qed.

Lemma uniqueRisks_keys rs : forall seen,
  NoDup (map (dedupKey ToString) (uniqueRisks ToString seen rs))
  /\ forall r, In r (uniqueRisks ToString seen rs) -> ~ In (dedupKey ToString r) seen.
Proof.
  induction rs as [|risk rest IH]; intros seen; cbn [uniqueRisks].
  - split; [constructor|intros r []].
  - destruct (negb (existsb (str_eqb (dedupKey ToString risk)) seen)) eqn:Hseen;
      cbn [andb]; [|apply IH].
    destruct (truthyV (title risk) && negb (isStr "未命名风险" (title risk)));
      [|apply IH].
    destruct (IH (dedupKey ToString risk :: seen)) as [Hnd Hnot].
    split.
    + cbn [map]. constructor; [|exact Hnd].
      intros Hin. apply in_map_iff in Hin as (r & Hk & Hr).
      apply (Hnot r Hr). left. now symmetry.
    + intros r [<- | Hr].
      * apply negb_true_iff in Hseen. intros Hin.
        assert (existsb (str_eqb (dedupKey ToString risk)) seen = true).
        { apply existsb_exists. exists (dedupKey ToString risk).
          split; [exact Hin|now apply str_eqb_eq]. }
        congruence.
      * intros Hin. apply (Hnot r Hr). now right.
Qed.

Lemma distinctPairs_of_keys rs :
  NoDup (map (dedupKey ToString) rs) -> distinctPairs rs.
Proof.
  intros H. unfold distinctPairs.
  apply (NoDup_map_inv (fun p => toStr ToString (fst p) ++ js "_" ++ snd p)).
  now rewrite map_map.
Qed.

Lemma distinctPairs_perm rs rs' :
  Permutation rs rs' -> distinctPairs rs -> distinctPairs rs'.
Proof.
  intros Hp. unfold distinctPairs.
  apply Permutation_NoDup. now apply Permutation_map.
Qed.

Lemma sorted_unique_distinct rs :
  distinctPairs (sortByLevel (uniqueRisks ToString [] rs)).
Proof.
  eapply distinctPairs_perm; [symmetry; apply sortByLevel_perm|].
  apply distinctPairs_of_keys, uniqueRisks_keys.
Qed.

Lemma reportRisks_sorted reply chunkResults rs :
  reportRisks ToString reply chunkResults = Ok rs -> sortedByLevel rs.
Proof.
  unfold reportRisks, bindR.
  destruct (consolidatedRisks reply) as [[|r l]|]; intros H; inversion H; subst;
    first [apply sortByLevel_sorted
          | apply insertByLevel_sorted, sortByLevel_sorted].
Qed.

Lemma successReport_risks reply chunkResults report :
  successReport ToString ToNumber reply chunkResults = Ok report ->
  reportRisks ToString reply chunkResults = Ok (rp_risks report).
Proof.
  unfold successReport, bindR.
  destruct (getProp reply "score"); [|discriminate].
  destruct (getProp reply "riskLevel"); [|discriminate].
  destruct (reportRisks ToString reply chunkResults); [|discriminate].
  destruct (getProp reply "signRecommendation"); [|discriminate].
  intros H; inversion H; reflexivity.
Qed.

Lemma degradedReport_risks chunkResults report :
  degradedReport ToString chunkResults = Ok report ->
  rp_risks report
  = sortByLevel (uniqueRisks ToString [] (map chunkRiskRaw (allChunkRisks chunkResults)))
  /\ rp_score report = avgScore chunkResults
  /\ rp_riskLevel report = Some (riskLevelBand (avgScore chunkResults))
  /\ rp_signRecommendation report = signBand (avgScore chunkResults).
Proof.
  unfold degradedReport, bindR.
  destruct (mapR _ _); [|discriminate].
  destruct (checkSummaries chunkResults); [|discriminate].
  destruct (checkSummaryJoin chunkResults); [|discriminate].
  intros H; inversion H; cbn; auto.
Qed.

Lemma routeDegradedReport_fields chunkResults report :
  routeDegradedReport chunkResults = Ok report ->
  rp_risks report = sortByLevel (map chunkRiskRaw (allChunkRisks chunkResults))
  /\ rp_score report = avgScore chunkResults
  /\ rp_riskLevel report = Some (riskLevelBand (avgScore chunkResults))
  /\ rp_signRecommendation report = signBand (avgScore chunkResults).
Proof.
  unfold routeDegradedReport, bindR.
  destruct (checkSummaries chunkResults); [|discriminate].
  destruct (checkSummaryJoin chunkResults); [|discriminate].
  intros H; inversion H; cbn; auto.
Qed.

(** Where a report of [consolidateAnalysis] comes from. *)
Lemma consolidateAnalysis_cases chunkResults w report w' :
  consolidateAnalysis JSON_parse ToString ToNumber chunkResults w = (Ok report, w') ->
  (exists reply, successReport ToString ToNumber reply chunkResults = Ok report)
  \/ degradedReport ToString chunkResults = Ok report.
Proof.
  unfold consolidateAnalysis, bind, lift, tryCatch.
  destruct (buildPrompt chunkResults); [|discriminate].
  destruct (callAI JSON_parse ToString consolidationOptions w) as [[reply|e] w1].
  - destruct (successReport ToString ToNumber reply chunkResults) as [r|e] eqn:Hs.
    + intros H; inversion H; subst. left. now exists reply.
    + intros H; inversion H; subst. now right.
  - intros H; inversion H; subst. now right.
Qed.

Lemma reduceSync_cases chunkResults w report w' :
  reduceSync JSON_parse ToString ToNumber chunkResults w = (Ok report, w') ->
  (exists reply, successReport ToString ToNumber reply chunkResults = Ok report)
  \/ degradedReport ToString chunkResults = Ok report
  \/ routeDegradedReport chunkResults = Ok report
  \/ report = errorReport.
Proof.
  unfold reduceSync, tryCatch.
  destruct (consolidateAnalysis JSON_parse ToString ToNumber chunkResults w)
    as [[r|e] w1] eqn:Hc.
  - intros H; inversion H; subst.
    destruct (consolidateAnalysis_cases _ _ Hc) as [Hs | Hd]; auto.
  - unfold lift. destruct (routeDegradedReport chunkResults) as [r|e'] eqn:Hr.
    + intros H; inversion H; subst. auto.
    + unfold ret. intros H; inversion H; subst. auto.
Qed.

(** C3 (amended).  The risks of every report of the two routes are sorted,
    high before medium before low.  No two risks share the pair
    [(title, clause[:50])] where the risks are taken from the chunk results
    by [consolidateAnalysis]: in its success path when the reply holds no
    valid risk, and in its own degraded path. *)
Theorem report_risks_sorted :
  (forall chunkResults w report w',
      reduceSync JSON_parse ToString ToNumber chunkResults w = (Ok report, w') ->
      sortedByLevel (rp_risks report))
  /\ (forall chunkResults w report w',
        reduceStream JSON_parse ToString ToNumber chunkResults w = (Ok report, w') ->
        sortedByLevel (rp_risks report))
  /\ (forall reply chunkResults report,
        successReport ToString ToNumber reply chunkResults = Ok report ->
        consolidatedRisks reply = Ok [] ->
        distinctPairs (rp_risks report))
  /\ (forall chunkResults report,
        degradedReport ToString chunkResults = Ok report ->
        distinctPairs (rp_risks report)).
Proof.
  assert (Hsucc : forall reply chunkResults report,
             successReport ToString ToNumber reply chunkResults = Ok report ->
             sortedByLevel (rp_risks report)).
  { intros reply crs report H. apply successReport_risks in H.
    eapply reportRisks_sorted; eauto. }
  assert (Hdeg : forall crs report,
             degradedReport ToString crs = Ok report -> sortedByLevel (rp_risks report)).
  { intros crs report H. apply degradedReport_risks in H as [-> _].
    apply sortByLevel_sorted. }
  repeat split.
  - intros crs w report w' H.
    destruct (reduceSync_cases _ _ H) as [[reply Hs] | [Hd | [Hr | ->]]]; eauto.
    + apply routeDegradedReport_fields in Hr as [-> _]. apply sortByLevel_sorted.
    + constructor.
  - intros crs w report w' H.
    destruct (consolidateAnalysis_cases _ _ H) as [[reply Hs] | Hd]; eauto.
  - intros reply crs report H Hnone. apply successReport_risks in H.
    unfold reportRisks, bindR in H. rewrite Hnone in H. inversion H; subst.
    apply sorted_unique_distinct.
  - intros crs report H. apply degradedReport_risks in H as [-> _].
    apply sorted_unique_distinct.
Qed.


Lemma getProp_getPropOpt v k x : getProp v k = Ok x -> x = getPropOpt v k.
Proof. destruct v; cbn; intros H; inversion H; reflexivity. Qed.

Lemma successReport_fields reply chunkResults report :
  successReport ToString ToNumber reply chunkResults = Ok report ->
  rp_score report
  = clampScore ToNumber (orElse (getPropOpt reply "score") (JNum (Fin 50)))
  /\ rp_riskLevel report = riskLevelOf (getPropOpt reply "riskLevel")
  /\ rp_signRecommendation report
     = orElse (getPropOpt reply "signRecommendation") needsReview.
Proof.
  unfold successReport, bindR.
  destruct (getProp reply "score") eqn:H1; [|discriminate].
  destruct (getProp reply "riskLevel") eqn:H2; [|discriminate].
  destruct (reportRisks ToString reply chunkResults); [|discriminate].
  destruct (getProp reply "signRecommendation") eqn:H3; [|discriminate].
  apply getProp_getPropOpt in H1, H2, H3. subst.
  intros H; inversion H; cbn; auto.
Qed.

Lemma isStr_eq lit v : isStr lit v = true <-> v = JStr (js lit).
Proof.
  destruct v; cbn; try (split; [discriminate|congruence]).
  rewrite str_eqb_eq. split; congruence.
Qed.

(** C4 (amended).  In the success path [riskLevel] is the value of the
    reply when it is one of the four levels and [undefined] otherwise; in
    the degraded paths it is derived from the score by the bands 80, 60
    and 40. *)
Theorem report_risk_level :
  (forall reply chunkResults report,
      successReport ToString ToNumber reply chunkResults = Ok report ->
      rp_riskLevel report = riskLevelOf (getPropOpt reply "riskLevel"))
  /\ (forall v,
        (riskLevelOf v = Some riskLow <-> v = JStr (js "low"))
        /\ (riskLevelOf v = Some riskMedium <-> v = JStr (js "medium"))
        /\ (riskLevelOf v = Some riskHigh <-> v = JStr (js "high"))
        /\ (riskLevelOf v = Some riskCritical <-> v = JStr (js "critical")))
  /\ (forall chunkResults report,
        degradedReport ToString chunkResults = Ok report
        \/ routeDegradedReport chunkResults = Ok report ->
        rp_riskLevel report
        = Some (if atLeast (rp_score report) 80 then riskLow
                else if atLeast (rp_score report) 60 then riskMedium
                else if atLeast (rp_score report) 40 then riskHigh
                else riskCritical)).
Proof.
  split; [|split].
  - intros reply crs report H. now apply successReport_fields in H.
  - intros v. unfold riskLevelOf.
    destruct (isStr "low" v) eqn:H1;
      [apply isStr_eq in H1; subst v; cbn; repeat split; intros H; first [reflexivity | discriminate]|].
    destruct (isStr "medium" v) eqn:H2;
      [apply isStr_eq in H2; subst v; cbn; repeat split; intros H; first [reflexivity | discriminate]|].
    destruct (isStr "high" v) eqn:H3;
      [apply isStr_eq in H3; subst v; cbn; repeat split; intros H; first [reflexivity | discriminate]|].
    destruct (isStr "critical" v) eqn:H4;
      [apply isStr_eq in H4; subst v; cbn; repeat split; intros H; first [reflexivity | discriminate]|].
    repeat split; intros H; try discriminate;
      apply isStr_eq in H; congruence.
  - intros crs report [H | H].
    + apply degradedReport_risks in H as (_ & -> & -> & _). reflexivity.
    + apply routeDegradedReport_fields in H as (_ & -> & -> & _). reflexivity.
Qed.

(** C5 (amended).  In the success path a missing [signRecommendation]
    becomes "需人工复核", whatever the score; in the degraded paths it is
    derived from the score by the bands 70 and 50. *)
Theorem report_sign_recommendation :
  (forall reply chunkResults report,
      successReport ToString ToNumber reply chunkResults = Ok report ->
      rp_signRecommendation report
      = orElse (getPropOpt reply "signRecommendation") (JStr (js "需人工复核")))
  /\ (forall chunkResults report,
        degradedReport ToString chunkResults = Ok report
        \/ routeDegradedReport chunkResults = Ok report ->
        rp_signRecommendation report
        = if atLeast (rp_score report) 70 then JStr (js "建议人工复核后签署")
          else if atLeast (rp_score report) 50 then JStr (js "建议修改后签署")
          else JStr (js "建议暂缓签署")).
Proof.
  split.
  - intros reply crs report H. now apply successReport_fields in H.
  - intros crs report [H | H].
    + apply degradedReport_risks in H as (_ & -> & _ & ->). reflexivity.
    + apply routeDegradedReport_fields in H as (_ & -> & _ & ->). reflexivity.
Qed.

End ReduceFacts.


(** C3 fails as stated.  A reply that lists the same valid risk twice is
    passed on: the report holds two risks with the same title and clause. *)
Lemma duplicate_risks_counterexample :
  successReport noToString noToNumber replyWithDuplicates [] = Ok duplicateReport
  /\ fst (reduceSync (parseAs replyWithDuplicates) noToString noToNumber []
            (worldOf (fun _ => chatAnswer))) = Ok duplicateReport
  /\ length (rp_risks duplicateReport) = 2%nat
  /\ ~ distinctPairs (rp_risks duplicateReport).
Proof.
  split; [vm_compute; reflexivity|]. split; [vm_compute; reflexivity|].
  split; [vm_compute; reflexivity|].
  intros H. vm_compute in H. inversion H as [|? ? Hnot _]; subst.
  apply Hnot. now left.
Qed.

(** C4 fails as stated.  A reply with score 85 and no [riskLevel] gives a
    report whose [riskLevel] is [undefined], not "low". *)
Lemma missing_risk_level_counterexample :
  successReport noToString noToNumber replyWithDuplicates [] = Ok duplicateReport
  /\ getProp replyWithDuplicates "riskLevel" = Ok JUndefined
  /\ atLeast (rp_score duplicateReport) 80 = true
  /\ rp_riskLevel duplicateReport = None.
Proof. vm_compute. repeat split; reflexivity. Qed.

(** C5 fails as stated.  A reply with score 85 and no [signRecommendation]
    gives "需人工复核", not "建议人工复核后签署". *)
Lemma missing_sign_recommendation_counterexample :
  successReport noToString noToNumber replyWithDuplicates [] = Ok duplicateReport
  /\ getProp replyWithDuplicates "signRecommendation" = Ok JUndefined
  /\ atLeast (rp_score duplicateReport) 70 = true
  /\ rp_signRecommendation duplicateReport = JStr (js "需人工复核")
  /\ rp_signRecommendation duplicateReport <> JStr (js "建议人工复核后签署").
Proof.
  split; [vm_compute; reflexivity|]. split; [vm_compute; reflexivity|].
  split; [vm_compute; reflexivity|]. split; [vm_compute; reflexivity|].
  vm_compute. discriminate.
Qed.

(** The report of a reply that lists two risks is sorted; the degraded
    report of two chunk results with the same risk holds no pair twice. *)
Lemma report_risks_sorted_witness :
  sortedByLevel (rp_risks duplicateReport)
  /\ distinctPairs (rp_risks demoDegraded).
Proof.
  split.
  - refine (proj1 (report_risks_sorted (parseAs replyWithDuplicates) noToString noToNumber)
              [] (worldOf (fun _ => chatAnswer)) duplicateReport (snd duplicateRun) _).
    vm_compute; reflexivity.
  - refine (proj2 (proj2 (proj2 (report_risks_sorted (parseAs replyWithDuplicates)
                                   noToString noToNumber)))
              demoChunkResults demoDegraded _).
    vm_compute; reflexivity.
Defined.

(** The degraded report of two chunk results of score 60: the level is
    that of the band. *)
Lemma report_risk_level_witness :
  rp_riskLevel demoDegraded
  = Some (if atLeast (rp_score demoDegraded) 80 then riskLow
          else if atLeast (rp_score demoDegraded) 60 then riskMedium
          else if atLeast (rp_score demoDegraded) 40 then riskHigh
          else riskCritical).
Proof.
  refine (proj2 (proj2 (report_risk_level noToString noToNumber))
            demoChunkResults demoDegraded (or_introl _)).
  vm_compute; reflexivity.
Defined.

(** The same degraded report: the recommendation is that of the band. *)
Lemma report_sign_recommendation_witness :
  rp_signRecommendation demoDegraded
  = if atLeast (rp_score demoDegraded) 70 then JStr (js "建议人工复核后签署")
    else if atLeast (rp_score demoDegraded) 50 then JStr (js "建议修改后签署")
    else JStr (js "建议暂缓签署").
Proof.
  refine (proj2 (report_sign_recommendation noToString noToNumber)
            demoChunkResults demoDegraded (or_introl _)).
  vm_compute; reflexivity.
Defined.

End AiFacts.

Module RagFacts.
Import Eff Chunker ChunkerSpec ChunkerFacts Cosine Rag RagSpec.
Local Open Scope eff_scope.

Section CosineFacts.
Import PrimFloat FloatOps FloatAxioms SpecFloat.
Local Open Scope float_scope.

Lemma mul_comm (x y : float) : x * y = y * x.
Proof.
  apply Prim2SF_inj. rewrite !mul_spec. unfold SF64mul, SFmul.
  destruct (Prim2SF x) as [sx|sx| |sx mx ex], (Prim2SF y) as [sy|sy| |sy my ey];
    try reflexivity; try (now rewrite xorb_comm).
  now rewrite xorb_comm, Pos.mul_comm, Z.add_comm.
Qed.

Lemma is_zero_spec x : is_zero x = true <-> exists s, Prim2SF x = S754_zero s.
Proof.
  unfold is_zero. rewrite eqb_spec.
  change (Prim2SF zero) with (S754_zero false).
  unfold SFeqb, SFcompare.
  destruct (Prim2SF x) as [s|s| |s m e]; split; intros H;
    try discriminate; try (destruct s; discriminate); eauto;
    try (destruct H as (s' & H'); discriminate).
Qed.

Lemma is_nan_spec x : is_nan x = true <-> Prim2SF x = S754_nan.
Proof.
  unfold is_nan. rewrite eqb_spec. unfold SFeqb, SFcompare.
  destruct (Prim2SF x) as [s|s| |s m e]; split; intros H; try discriminate;
    try reflexivity.
  - destruct s; discriminate.
  - destruct s; cbn in H; rewrite Z.compare_refl, Pos.compare_cont_refl in H;
      discriminate.
Qed.

Lemma zero_mul_l x y : is_zero x = true -> zeroOrNaN (x * y).
Proof.
  rewrite is_zero_spec. intros (s & Hx). unfold zeroOrNaN.
  rewrite is_zero_spec, is_nan_spec, mul_spec. unfold SF64mul, SFmul. rewrite Hx.
  destruct (Prim2SF y); eauto.
Qed.

Lemma zero_mul_r x y : is_zero y = true -> zeroOrNaN (x * y).
Proof. intros H. rewrite mul_comm. now apply zero_mul_l. Qed.

Lemma zero_square x : is_zero x = true -> is_zero (x * x) = true.
Proof.
  rewrite !is_zero_spec. intros (s & Hx).
  rewrite mul_spec. unfold SF64mul, SFmul. rewrite Hx. eauto.
Qed.

Lemma zero_add x y : is_zero x = true -> is_zero y = true -> is_zero (x + y) = true.
Proof.
  rewrite !is_zero_spec. intros (s & Hx) (t & Hy).
  rewrite add_spec. unfold SF64add, SFadd. rewrite Hx, Hy.
  destruct s, t; eauto.
Qed.

Lemma zeroOrNaN_add x y : zeroOrNaN x -> zeroOrNaN y -> zeroOrNaN (x + y).
Proof.
  unfold zeroOrNaN. rewrite !is_zero_spec, !is_nan_spec, add_spec.
  unfold SF64add, SFadd.
  intros [(s & Hx) | Hx] [(t & Hy) | Hy]; rewrite Hx; try rewrite Hy;
    try (now right).
  left. destruct s, t; eauto.
Qed.

Lemma zero_sqrt x : is_zero x = true -> is_zero (sqrt x) = true.
Proof.
  rewrite !is_zero_spec. intros (s & Hx).
  rewrite sqrt_spec. unfold SF64sqrt, SFsqrt. rewrite Hx. eauto.
Qed.

Lemma zeroOrNaN_div x y : zeroOrNaN x -> zeroOrNaN y -> x / y = nan.
Proof.
  unfold zeroOrNaN. rewrite !is_zero_spec, !is_nan_spec.
  intros Hx Hy. apply Prim2SF_inj. rewrite div_spec.
  change (Prim2SF nan) with S754_nan. unfold SF64div, SFdiv.
  destruct Hx as [(s & Hx) | Hx], Hy as [(t & Hy) | Hy]; rewrite Hx;
    try rewrite Hy;
    reflexivity.
Qed.

Lemma accumulate_dot a : forall b d na nb,
  length a = length b ->
  accumulate a b d na nb
  = (fold_left (fun sum xy => sum + fst xy * snd xy) (combine a b) d,
     fold_left (fun sum xy => sum + fst xy * snd xy) (combine a a) na,
     fold_left (fun sum xy => sum + fst xy * snd xy) (combine b b) nb).
Proof.
  induction a as [|x a IH]; intros [|y b] d na nb Hlen; try discriminate;
    [reflexivity|].
  cbn [accumulate combine fold_left fst snd]. apply IH. now injection Hlen.
Qed.

Lemma cosine_value a b :
  length a = length b ->
  cosineSimilarity (Some a) (Some b) = dot a b / (norm a * norm b).
Proof.
  intros Hlen. unfold cosineSimilarity.
  rewrite Hlen, Nat.eqb_refl. cbn [negb].
  now rewrite (accumulate_dot a b 0 0 0 Hlen).
Qed.

Lemma dot_zero_l a : zeroVector a -> forall b d, zeroOrNaN d ->
  zeroOrNaN (fold_left (fun sum xy => sum + fst xy * snd xy) (combine a b) d).
Proof.
  induction 1 as [|x a Hx Ha IH]; intros [|y b] d Hd; cbn [combine fold_left];
    try exact Hd.
  apply IH. apply zeroOrNaN_add; [exact Hd|]. now apply zero_mul_l.
Qed.

Lemma dot_zero_r b : zeroVector b -> forall a d, zeroOrNaN d ->
  zeroOrNaN (fold_left (fun sum xy => sum + fst xy * snd xy) (combine a b) d).
Proof.
  induction 1 as [|y b Hy Hb IH]; intros [|x a] d Hd; cbn [combine fold_left];
    try exact Hd.
  apply IH. apply zeroOrNaN_add; [exact Hd|]. now apply zero_mul_r.
Qed.

Lemma dot_zero_self a : zeroVector a -> forall d, is_zero d = true ->
  is_zero (fold_left (fun sum xy => sum + fst xy * snd xy) (combine a a) d) = true.
Proof.
  induction 1 as [|x a Hx Ha IH]; intros d Hd; cbn [combine fold_left fst snd];
    [exact Hd|].
  apply IH. apply zero_add; [exact Hd|]. now apply zero_square.
Qed.

Lemma is_zero_0 : is_zero 0 = true.
Proof. reflexivity. Qed.

Lemma norm_zero a : zeroVector a -> is_zero (norm a) = true.
Proof.
  intros H. unfold norm, dot. apply zero_sqrt. apply dot_zero_self; [exact H|].
  apply is_zero_0.
Qed.

(** C8 (amended).  [cosineSimilarity] returns 0 when the lengths differ or
    one argument is [null] or [undefined].  For two arrays of the same
    length it returns [dot(a, b) / (||a|| * ||b||)] as binary64 arithmetic
    gives it, every product, sum, square root and the quotient rounded;
    when one of the arrays holds zeros only, two empty arrays among them,
    that is NaN. *)
Theorem cosine_similarity_spec :
  (forall a b,
      length a = length b ->
      cosineSimilarity (Some a) (Some b) = dot a b / (norm a * norm b))
  /\ (forall a b,
        length a <> length b -> cosineSimilarity (Some a) (Some b) = 0)
  /\ (forall v, cosineSimilarity None v = 0 /\ cosineSimilarity v None = 0)
  /\ (forall a b,
        length a = length b -> zeroVector a \/ zeroVector b ->
        cosineSimilarity (Some a) (Some b) = nan)
  /\ cosineSimilarity (Some []) (Some []) = nan.
Proof.
  split; [exact cosine_value|]. split; [|split; [|split]].
  - intros a b Hlen. unfold cosineSimilarity.
    apply Nat.eqb_neq in Hlen. now rewrite Hlen.
  - destruct v; split; reflexivity.
  - intros a b Hlen Hz. rewrite (cosine_value a b Hlen).
    apply zeroOrNaN_div.
    + unfold dot. destruct Hz as [Hz|Hz];
        [apply dot_zero_l|apply dot_zero_r]; auto; left; apply is_zero_0.
    + destruct Hz as [Hz|Hz];
        [apply zero_mul_l|apply zero_mul_r]; now apply norm_zero.
  - reflexivity.
Qed.

(** C8 fails as stated.  Two empty arrays pass the guard (an array is
    truthy and the lengths agree), and [0 / 0] is NaN, not 0.  Nor is the
    value the exact quotient for vectors of non-zero norm: rounding puts
    the similarity of (1, 1, 1) with itself above 1, and the squares of
    1e-200 and of 1e200 leave the range of binary64, so that the
    similarity of such a vector with itself is NaN. *)
#[warnings="-inexact-float"]
Lemma empty_vectors_counterexample :
  cosineSimilarity (Some []) (Some []) = nan
  /\ cosineSimilarity (Some []) (Some []) <> 0
  /\ cosineSimilarity (Some [1; 1; 1]) (Some [1; 1; 1]) = 0x1.0000000000001p+0
  /\ (1 <? cosineSimilarity (Some [1; 1; 1]) (Some [1; 1; 1])) = true
  /\ cosineSimilarity (Some [1e-200]) (Some [1e-200]) = nan
  /\ cosineSimilarity (Some [1e200]) (Some [1e200]) = nan.
Proof.
  split; [reflexivity|]. split.
  - intros H. apply (f_equal is_nan) in H. discriminate H.
  - repeat split; reflexivity.
Qed.

(** The vectors (3, 4) and (4, 3). *)
Lemma cosine_similarity_spec_witness :
  cosineSimilarity (Some [3; 4]) (Some [4; 3])
  = dot [3; 4] [4; 3] / (norm [3; 4] * norm [4; 3]).
Proof. apply (proj1 cosine_similarity_spec). reflexivity. Defined.

End CosineFacts.

Lemma keepsDb_ret {A} (a : A) : keepsDb (ret a).
Proof. intros w. cbn. auto. Qed.

Lemma keepsDb_throw {A} e : keepsDb (@throw A e).
Proof. intros w. cbn. auto. Qed.

Lemma keepsDb_lift {A} (r : result Error A) : keepsDb (lift r).
Proof. intros w. cbn. auto. Qed.

Lemma keepsDb_sleep ms : keepsDb (sleep ms).
Proof. intros w. cbn. auto. Qed.

Lemma keepsDb_axios_post v : keepsDb (axios_post v).
Proof.
  intros w. unfold axios_post.
  destruct (net w (requests w)) as [status data|e]; [destruct (v status)|]; cbn; auto.
Qed.

Lemma keepsDb_bind {A B} (m : M A) (k : A -> M B) :
  keepsDb m -> (forall a, keepsDb (k a)) -> keepsDb (bind m k).
Proof.
  intros Hm Hk w. unfold bind. specialize (Hm w).
  destruct (m w) as [[a|e] w1]; cbn [snd] in *; [|exact Hm].
  destruct (Hk a w1) as (H1 & H2 & H3 & H4).
  destruct Hm as (G1 & G2 & G3 & G4).
  repeat split; congruence.
Qed.

Lemma keepsDb_tryCatch {A} (m : M A) (h : Error -> M A) :
  keepsDb m -> (forall e, keepsDb (h e)) -> keepsDb (tryCatch m h).
Proof.
  intros Hm Hh w. unfold tryCatch. specialize (Hm w).
  destruct (m w) as [[a|e] w1]; cbn [snd] in *; [exact Hm|].
  destruct (Hh e w1) as (H1 & H2 & H3 & H4).
  destruct Hm as (G1 & G2 & G3 & G4).
  repeat split; congruence.
Qed.

Lemma keepsDb_getEmbedding text : keepsDb (Ai.getEmbedding text).
Proof.
  unfold Ai.getEmbedding.
  apply keepsDb_tryCatch; [|intros; apply keepsDb_throw].
  apply keepsDb_bind; [apply keepsDb_axios_post|]. intros data.
  destruct (truthyV _); [apply keepsDb_ret|apply keepsDb_throw].
Qed.

Lemma keepsDb_batchLoop batches : forall results, keepsDb (Ai.batchLoop batches results).
Proof.
  induction batches as [|batch rest IH]; intros results; cbn [Ai.batchLoop].
  - apply keepsDb_ret.
  - apply keepsDb_bind; [apply keepsDb_axios_post|]. intros data.
    apply keepsDb_bind.
    + destruct (truthyV _); [|apply keepsDb_ret].
      apply keepsDb_bind; [apply keepsDb_lift|]. intros; apply keepsDb_ret.
    + intros results'. apply keepsDb_bind; [|intros; apply IH].
      destruct rest; [apply keepsDb_ret|apply keepsDb_sleep].
Qed.

Lemma keepsDb_getBatchEmbeddings texts : keepsDb (Ai.getBatchEmbeddings texts).
Proof.
  unfold Ai.getBatchEmbeddings.
  apply keepsDb_tryCatch; [apply keepsDb_batchLoop|intros; apply keepsDb_throw].
Qed.

Lemma embedEach_ok texts :
  keepsDb (embedEach texts) /\ forall w, exists l, fst (embedEach texts w) = Ok l.
Proof.
  induction texts as [|text rest [IHk IHo]]; cbn [embedEach].
  - split; [apply keepsDb_ret|]. intros w. exists []. reflexivity.
  - split.
    + apply keepsDb_bind.
      * apply keepsDb_tryCatch; [apply keepsDb_getEmbedding|intros; apply keepsDb_ret].
      * intros emb. apply keepsDb_bind; [exact IHk|intros; apply keepsDb_ret].
    + intros w. unfold bind at 1. unfold tryCatch.
      assert (Hemb : exists emb w1,
                 (match Ai.getEmbedding text w with
                  | (Ok a, w') => (Ok a, w')
                  | (Throw e, w') => ret JNull w'
                  end) = (Ok emb, w1)).
      { destruct (Ai.getEmbedding text w) as [[a|e] w']; unfold ret;
          eexists _, _; reflexivity. }
      destruct Hemb as (emb & w1 & ->). unfold bind.
      destruct (IHo w1) as [l Hl].
      destruct (embedEach rest w1) as [[l'|e] w2]; cbn in Hl; [|discriminate].
      cbn. eauto.
Qed.

Lemma length_mapi_from {A B} (f : A -> nat -> B) l : forall i,
  length (mapi_from f i l) = length l.
Proof. induction l as [|x l IH]; intros i; cbn; [reflexivity|now rewrite IH]. Qed.

Lemma concat_slicesFrom {A} size : (0 < size)%nat ->
  forall turns (xs : list A), (length xs <= turns)%nat ->
  concat (slicesFrom turns size xs) = xs.
Proof.
  intros Hsize. induction turns as [|turns IH]; intros xs Hlen.
  - destruct xs; [reflexivity|cbn in Hlen; lia].
  - destruct xs as [|x xs]; [reflexivity|].
    cbn [slicesFrom concat]. rewrite IH.
    + apply firstn_skipn.
    + rewrite length_skipn. cbn [length] in *. lia.
Qed.

Lemma insertBatches_spec batches : forall w,
  fst (insertBatches batches w) = Ok tt
  /\ ((forall n, insertError w n <> None) ->
      table (snd (insertBatches batches w)) = table w)
  /\ ((forall n, insertError w n = None) ->
      table (snd (insertBatches batches w)) = table w ++ concat batches).
Proof.
  induction batches as [|batch rest IH]; intros w; cbn [insertBatches].
  - cbn. rewrite app_nil_r. auto.
  - unfold bind, db_insert.
    set (w1 := {| net := net w |}).
    destruct (IH w1) as (Hok & Hfail & Hgood).
    split; [exact Hok|]. split.
    + intros Hall. rewrite Hfail by exact Hall. cbn.
      destruct (insertError w (inserts w)) eqn:He; [reflexivity|].
      now apply Hall in He.
    + intros Hall. rewrite Hgood by exact Hall. cbn.
      rewrite Hall. now rewrite <- app_assoc.
Qed.

Lemma bind_ok {A B} (m : M A) (k : A -> M B) w a w1 :
  m w = (Ok a, w1) -> bind m k w = k a w1.
Proof. intros H. unfold bind. now rewrite H. Qed.

Lemma tryCatch_ok {A} (m : M A) h w a w1 :
  m w = (Ok a, w1) -> tryCatch m h w = (Ok a, w1).
Proof. intros H. unfold tryCatch. now rewrite H. Qed.

(** C10.  [indexDocument] resolves with [success: true], the chunks of
    [smartChunk] and their number, in every world: whatever the embedding
    requests and the inserts do.  When every insert fails no row is
    written; when none fails there is a row for each chunk. *)
Theorem indexDocument_reports_every_chunk (documentId text : jsstring)
    (metadata : json) (w : World) :
  exists chunks w',
    smartChunk text CHUNK_CONFIG = Ok chunks
    /\ indexDocument documentId text metadata w
       = (Ok {| success := true; chunkCount := length chunks; chunks := chunks |}, w')
    /\ ((forall n, insertError w n <> None) -> table w' = table w)
    /\ ((forall n, insertError w n = None) ->
        length (table w') = (length (table w) + length chunks)%nat).
Proof.
  destruct (smartChunk_flush text CHUNK_CONFIG) as (emitted & cur & Hchunks).
  set (chunks := finalFlush CHUNK_CONFIG emitted cur) in Hchunks.
  exists chunks.
  set (texts := map chunk_content chunks).
  set (embed := tryCatch (Ai.getBatchEmbeddings texts) (fun _ => embedEach texts)).
  assert (Hk : keepsDb embed).
  { apply keepsDb_tryCatch; [apply keepsDb_getBatchEmbeddings|].
    intros _. apply embedEach_ok. }
  assert (Ho : exists l, fst (embed w) = Ok l).
  { unfold embed, tryCatch.
    destruct (Ai.getBatchEmbeddings texts w) as [[l|e] w1]; [eexists; reflexivity|].
    apply embedEach_ok. }
  destruct Ho as [embeddings Ho]. destruct (Hk w) as (Ht & He & Hi & Hn).
  destruct (embed w) as [r w1] eqn:Hembed. cbn [fst snd] in *. subst r.
  set (records := chunkRecords documentId metadata chunks embeddings (now w1)).
  destruct (insertBatches_spec (slices 20 records) w1) as (Hok & Hfail & Hgood).
  destruct (insertBatches (slices 20 records) w1) as [r w2] eqn:Hins.
  cbn [fst snd] in *. subst r. exists w2.
  assert (Hlen : length records = length chunks) by apply length_mapi_from.
  split; [exact Hchunks|]. split; [|split].
  - unfold indexDocument. rewrite Hchunks. apply tryCatch_ok.
    erewrite bind_ok by reflexivity. fold texts. fold embed.
    erewrite bind_ok by exact Hembed.
    erewrite bind_ok by reflexivity. fold records.
    erewrite bind_ok by exact Hins.
    unfold ret. now rewrite Hlen.
  - intros Hall. rewrite Hfail, Ht; [reflexivity|]. now rewrite He.
  - intros Hall. rewrite Hgood by now rewrite He.
    unfold slices. rewrite concat_slicesFrom by lia.
    rewrite length_app, Ht, Hlen. reflexivity.
Qed.

End RagFacts.

(* ================================================================== *)
(** * Further properties of the code                                   *)
(* ================================================================== *)

Module ListFacts.
Import ListSpec.

Lemma Subsequence_refl {A} (l : list A) : Subsequence l l.
Proof. induction l; [apply sub_nil|now apply sub_take]. Qed.

Lemma Subsequence_nil {A} (l : list A) : Subsequence [] l.
Proof. induction l; [apply sub_nil|now apply sub_skip]. Qed.

Lemma Subsequence_app {A} (a a' b b' : list A) :
  Subsequence a a' -> Subsequence b b' -> Subsequence (a ++ b) (a' ++ b').
Proof.
  intros Ha Hb. induction Ha; cbn [app]; auto.
  - now apply sub_skip.
  - now apply sub_take.
Qed.

Lemma Subsequence_trans {A} (a b c : list A) :
  Subsequence a b -> Subsequence b c -> Subsequence a c.
Proof.
  intros Hab Hbc. revert a Hab.
  induction Hbc as [|x l l' Hbc IH|x l l' Hbc IH]; intros a Hab; auto.
  - apply sub_skip. now apply IH.
  - inversion Hab; subst.
    + apply sub_skip. now apply IH.
    + apply sub_take. now apply IH.
Qed.

Lemma Subsequence_insert {A} (s t : list A) k :
  Subsequence s (firstn k s ++ t ++ skipn k s).
Proof.
  rewrite <- (firstn_skipn k s) at 1.
  apply Subsequence_app; [apply Subsequence_refl|].
  change (skipn k s) with ([] ++ skipn k s) at 1.
  apply Subsequence_app; [apply Subsequence_nil|apply Subsequence_refl].
Qed.

Lemma firstn_plus {A} (l : list A) p n :
  firstn (p + n) l = firstn p l ++ firstn n (skipn p l).
Proof.
  revert l. induction p as [|p IH]; intros l; [reflexivity|].
  destruct l as [|x l]; cbn [Nat.add firstn skipn app].
  - now rewrite firstn_nil.
  - now rewrite IH.
Qed.

Lemma StronglySorted_within {A} (P R : A -> A -> Prop) l :
  (forall x y, In x l -> In y l -> P x y -> R x y) ->
  StronglySorted P l -> StronglySorted R l.
Proof.
  intros H Hs. induction Hs as [|x l Hs IH Hx]; constructor.
  - apply IH. intros; apply H; auto; now right.
  - rewrite Forall_forall in *. intros y Hy. apply H; [now left|now right|auto].
Qed.

Lemma slicesFrom_sizes {A} size : forall turns (xs : list A),
  Forall (fun batch => (length batch <= size)%nat) (slicesFrom turns size xs).
Proof.
  induction turns as [|turns IH]; intros xs; cbn [slicesFrom]; [constructor|].
  destruct xs as [|x xs]; constructor; [|apply IH].
  rewrite length_firstn. lia.
Qed.

Lemma slicesFrom_count {A} size : (0 < size)%nat ->
  forall turns (xs : list A), (length xs <= turns)%nat ->
  length (slicesFrom turns size xs) = ((length xs + (size - 1)) / size)%nat.
Proof.
  intros Hsize. induction turns as [|turns IH]; intros xs Hlen.
  - destruct xs; [|cbn in Hlen; lia]. cbn. symmetry. apply Nat.div_small. lia.
  - destruct xs as [|x xs]; [cbn; symmetry; apply Nat.div_small; lia|].
    cbn [slicesFrom length]. rewrite IH by (rewrite length_skipn; cbn [length] in *; lia).
    rewrite length_skipn. cbn [length].
    destruct (Nat.le_gt_cases (S (length xs)) size) as [Hle | Hgt].
    + replace (S (length xs) - size)%nat with 0%nat by lia.
      rewrite (Nat.div_small (0 + _)) by lia.
      cbn [Nat.add]. apply (Nat.div_unique _ _ 1 (length xs)); lia.
    + replace (S (length xs) + (size - 1))%nat
        with ((S (length xs) - size + (size - 1)) + 1 * size)%nat by lia.
      rewrite Nat.div_add by lia. lia.
Qed.

End ListFacts.

Module ChunkerProps.
Import Chunker ChunkerSpec ChunkerFacts.
Local Open Scope Z_scope.

Lemma stripSpace_nil_app a b : stripSpace a = [] -> stripSpace (a ++ b) = stripSpace b.
Proof. intros H. now rewrite stripSpace_app, H. Qed.

Lemma split_go_keeps m (Hm : dropsSpaceOnly m) before piece skip s :
  stripSpace (concat (split_go m before piece skip s))
  = stripSpace (rev piece) ++ stripSpace (skipn skip s).
Proof.
  revert before piece skip.
  induction s as [|c s IH]; intros before piece skip.
  - cbn. rewrite skipn_nil, !app_nil_r. reflexivity.
  - cbn [split_go]. destruct skip as [|k]; [|now rewrite IH].
    cbn [skipn].
    destruct (m before (c :: s)) as [[n caps]|] eqn:Hmatch.
    + apply Hm in Hmatch.
      destruct n as [|k].
      * cbn [firstn] in Hmatch. change (stripSpace []) with (@nil N) in Hmatch.
        destruct piece as [|x piece'].
        -- rewrite IH. cbn [skipn rev app]. now rewrite <- stripSpace_app.
        -- cbn [concat]. rewrite concat_app, !stripSpace_app, Hmatch, IH.
           cbn [skipn rev app]. now rewrite <- (stripSpace_app [c] s).
      * cbn [concat]. rewrite concat_app, !stripSpace_app, Hmatch, IH.
        cbn [rev app]. change (stripSpace []) with (@nil N). cbn [app].
        rewrite <- stripSpace_app.
        change (skipn k s) with (skipn (S k) (c :: s)).
        now rewrite firstn_skipn.
    + rewrite IH. cbn [rev skipn]. rewrite stripSpace_app, <- app_assoc.
      now rewrite <- (stripSpace_app [c] s).
Qed.

Lemma split_keeps m (Hm : dropsSpaceOnly m) s :
  stripSpace (concat (split m s)) = stripSpace s.
Proof.
  destruct s as [|c s]; [cbn; destruct (m [] []); reflexivity|].
  unfold split. now rewrite split_go_keeps.
Qed.

Lemma afterTerminator_drops cls least : dropsSpaceOnly (afterTerminator cls least).
Proof.
  intros before s n caps H. unfold afterTerminator in H.
  destruct before as [|c before]; [discriminate|].
  destruct (_ && _); [|discriminate]. inversion H; subst; clear H.
  cbn [concat]. symmetry. apply stripSpace_spaces, takeWhile_firstn.
Qed.

Lemma lineBreak_drops : dropsSpaceOnly lineBreak.
Proof.
  intros before s n caps H. unfold lineBreak in H.
  destruct s as [|c s]; [discriminate|].
  destruct c as [|p]; [discriminate|].
  repeat (destruct p as [p|p|]; try discriminate).
  - destruct s as [|d s]; [discriminate|].
    destruct d as [|p]; [discriminate|].
    repeat (destruct p as [p|p|]; try discriminate).
    inversion H; subst. reflexivity.
  - inversion H; subst. reflexivity.
Qed.

Lemma sentenceEnders_drops : dropsSpaceOnly sentenceEnders.
Proof.
  intros before s n caps H. unfold sentenceEnders in H.
  destruct s as [|c s]; [discriminate|].
  destruct (inClass _ c); [|discriminate]. inversion H; subst.
  reflexivity.
Qed.

Lemma stripSpace_dropWhile s : stripSpace (dropWhile isSpace s) = stripSpace s.
Proof.
  induction s as [|c s IH]; [reflexivity|]. cbn [dropWhile].
  destruct (isSpace c) eqn:Hc; [|reflexivity].
  rewrite IH, (stripSpace_cons c s), (stripSpace_space _ Hc). reflexivity.
Qed.

Lemma stripSpace_rev s : stripSpace (rev s) = rev (stripSpace s).
Proof.
  induction s as [|c s IH]; [reflexivity|].
  cbn [rev]. rewrite stripSpace_app, IH, (stripSpace_cons c s), rev_app_distr.
  f_equal. unfold stripSpace. cbn. now destruct (isSpace c).
Qed.

Lemma stripSpace_trim s : stripSpace (trim s) = stripSpace s.
Proof.
  unfold trim.
  now rewrite stripSpace_rev, stripSpace_dropWhile, stripSpace_rev, rev_involutive,
    stripSpace_dropWhile.
Qed.

Lemma stripSpace_falsy s : truthy s = false -> stripSpace s = [].
Proof. now destruct s. Qed.

Lemma stripSpace_blank s : truthy (trim s) = false -> stripSpace s = [].
Proof. intros H. rewrite <- stripSpace_trim. now apply stripSpace_falsy. Qed.

Lemma stripSpace_LF : stripSpace LF = [].
Proof. reflexivity. Qed.

Lemma stripSpace_LFLF : stripSpace LFLF = [].
Proof. reflexivity. Qed.

Lemma stripSpace_SP : stripSpace SP = [].
Proof. reflexivity. Qed.

Lemma stripSpace_sep (sep s : jsstring) :
  stripSpace sep = [] -> stripSpace (if truthy s then sep else []) = [].
Proof. intros H. now destruct (truthy s). Qed.

Lemma concat_snoc (l : list jsstring) (x : jsstring) :
  concat (l ++ [x]) = concat l ++ x.
Proof. rewrite concat_app. cbn. now rewrite app_nil_r. Qed.

Lemma lineStep_keeps patterns st line :
  stripSpace (segmentsText (lineStep patterns st line))
  = stripSpace (segmentsText st) ++ stripSpace line.
Proof.
  destruct st as [segs cur]. unfold lineStep, segmentsText.
  destruct (truthy (trim line)) eqn:Ht; cbn [negb].
  - assert (Hext : stripSpace
             (seg_content cur ++ (if truthy (seg_content cur) then LF else [])
              ++ trim line)
           = stripSpace (seg_content cur) ++ stripSpace line).
    { rewrite !stripSpace_app, stripSpace_trim, (@stripSpace_sep LF _ stripSpace_LF).
      reflexivity. }
    destruct (classifyLine patterns (trim line)) as [[ty imp]|].
    + destruct (truthy (trim (seg_content cur))); cbn [fst snd seg_content].
      * rewrite map_app. change (map seg_content [cur]) with [seg_content cur].
        rewrite concat_snoc.
        rewrite !stripSpace_app, stripSpace_trim, <- !app_assoc. reflexivity.
      * rewrite stripSpace_app, Hext, stripSpace_app, <- app_assoc. reflexivity.
    + cbn [fst snd seg_content].
      rewrite stripSpace_app, Hext, stripSpace_app, <- app_assoc. reflexivity.
  - rewrite (stripSpace_blank _ Ht), app_nil_r.
    destruct (truthy (seg_content cur)); cbn [fst snd seg_content]; [|reflexivity].
    rewrite !stripSpace_app, stripSpace_LF, app_nil_r. reflexivity.
Qed.

Lemma lineLoop_keeps patterns lines : forall st,
  stripSpace (segmentsText (fold_left (lineStep patterns) lines st))
  = stripSpace (segmentsText st) ++ stripSpace (concat lines).
Proof.
  induction lines as [|line lines IH]; intros st; cbn [fold_left concat].
  - now rewrite app_nil_r.
  - rewrite IH, lineStep_keeps, stripSpace_app, <- app_assoc. reflexivity.
Qed.

Lemma segments_keep_text (text : jsstring) (lang : Lang) :
  stripSpace (concat (map seg_content (identifyLegalStructure text lang)))
  = stripSpace text.
Proof.
  unfold identifyLegalStructure.
  pose proof (lineLoop_keeps (LEGAL_PATTERNS lang) (split lineBreak text)
                ([], {| seg_type := tContent; seg_content := [];
                        seg_importance := iNormal |})) as H.
  destruct (fold_left _ _ _) as [segs cur].
  unfold segmentsText in H. cbn [fst snd map concat app seg_content] in H.
  rewrite (split_keeps lineBreak_drops) in H.
  change (stripSpace []) with (@nil N) in H. cbn [app] in H.
  destruct (truthy (trim (seg_content cur))) eqn:Ht.
  - rewrite map_app. change (map seg_content [cur]) with [seg_content cur].
        rewrite concat_snoc. exact H.
  - rewrite stripSpace_app, (stripSpace_blank _ Ht), app_nil_r in H. exact H.
Qed.

(** [identifyLegalStructure] loses nothing but white space: the contents of
    its segments, one after the other, are the text up to white space. *)
Theorem identifyLegalStructure_keeps_text (text : jsstring) (lang : Lang) :
  stripSpace (concat (map seg_content (identifyLegalStructure text lang)))
  = stripSpace text.
Proof. apply segments_keep_text. Qed.

Lemma pairUp_concat parts : concat (pairUp parts) = concat parts.
Proof.
  enough (H : concat (pairUp parts) = concat parts
              /\ forall a, concat (pairUp (a :: parts)) = a ++ concat parts)
    by apply H.
  induction parts as [|b rest [IH1 IH2]]; split; try reflexivity.
  - apply IH2.
  - intros a. cbn [pairUp concat]. now rewrite IH1, app_assoc.
Qed.

Lemma trimmed_sentences_keep l :
  stripSpace (concat (map trim (filter (fun sentence => truthy (trim sentence)) l)))
  = stripSpace (concat l).
Proof.
  induction l as [|s l IH]; [reflexivity|].
  cbn [filter]. destruct (truthy (trim s)) eqn:Ht; cbn [map concat].
  - rewrite !stripSpace_app, stripSpace_trim, IH. reflexivity.
  - rewrite IH, stripSpace_app, (stripSpace_blank _ Ht). reflexivity.
Qed.

Lemma splitChineseSentences_keeps text :
  stripSpace (concat (splitChineseSentences text)) = stripSpace text.
Proof.
  unfold splitChineseSentences.
  rewrite trimmed_sentences_keep, pairUp_concat.
  apply split_keeps, sentenceEnders_drops.
Qed.

Lemma sentencesOf_keeps lang segment :
  stripSpace (concat (sentencesOf lang segment)) = stripSpace (seg_content segment).
Proof.
  destruct lang; cbn [sentencesOf].
  - apply splitChineseSentences_keeps.
  - apply split_keeps, afterTerminator_drops.
Qed.

Lemma sentenceStep_keeps segment config st sentence :
  stripSpace (subChunksText (sentenceStep segment config st sentence))
  = stripSpace (subChunksText st) ++ stripSpace sentence.
Proof.
  destruct st as [subs cur]. unfold sentenceStep, subChunksText.
  destruct (_ <=? _); cbn [fst snd content].
  - rewrite !stripSpace_app, (@stripSpace_sep SP _ stripSpace_SP), <- app_assoc.
    reflexivity.
  - destruct (truthy (content cur)) eqn:Ht.
    + rewrite map_app. change (map content [cur]) with [content cur].
      rewrite concat_snoc, !stripSpace_app. reflexivity.
    + rewrite !stripSpace_app, (stripSpace_falsy _ Ht), app_nil_r. reflexivity.
Qed.

Lemma sentenceLoop_keeps segment config sentences : forall st,
  stripSpace (subChunksText (fold_left (sentenceStep segment config) sentences st))
  = stripSpace (subChunksText st) ++ stripSpace (concat sentences).
Proof.
  induction sentences as [|s l IH]; intros st; cbn [fold_left concat].
  - now rewrite app_nil_r.
  - rewrite IH, sentenceStep_keeps, stripSpace_app, <- app_assoc. reflexivity.
Qed.

Lemma splitLongSegment_keeps segment config lang :
  stripSpace (concat (map content (splitLongSegment segment config lang)))
  = stripSpace (seg_content segment).
Proof.
  unfold splitLongSegment.
  pose proof (sentenceLoop_keeps segment config (sentencesOf lang segment)
                ([], {| content := []; tokens := 0; segments := [seg_type segment];
                        importance := seg_importance segment;
                        hasOverlap := false |})) as H.
  destruct (fold_left _ _ _) as [subs cur].
  unfold subChunksText in H. cbn [fst snd map concat app content] in H.
  rewrite sentencesOf_keeps in H.
  change (stripSpace []) with (@nil N) in H. cbn [app] in H.
  destruct (truthy (content cur)) eqn:Ht.
  - rewrite map_app. change (map content [cur]) with [content cur].
    rewrite concat_snoc. exact H.
  - rewrite stripSpace_app, (stripSpace_falsy _ Ht), app_nil_r in H. exact H.
Qed.

Lemma extractOverlap_disabled text target : target <= 0 -> extractOverlap text target = [].
Proof.
  intros H. unfold extractOverlap.
  destruct (rev (split overlapBreak text)) as [|s l]; [reflexivity|].
  cbn [overlapLoop]. now replace (0 <? target) with false by lia.
Qed.

Lemma createOverlapChunk_disabled prev config :
  overlapTokens config <= 0 -> content (createOverlapChunk prev config) = [].
Proof.
  intros H. unfold createOverlapChunk.
  destruct (truthy (content prev)); [|reflexivity].
  cbn [negb content]. now rewrite extractOverlap_disabled.
Qed.

Lemma pushCurrent_text chunks cur :
  concat (map chunk_content (pushCurrent chunks cur))
  = concat (map chunk_content chunks) ++ content cur.
Proof.
  unfold pushCurrent. destruct (truthy (content cur)) eqn:Ht.
  - rewrite map_app. cbn [map finalizeChunk chunk_content]. apply concat_snoc.
  - destruct (content cur); [now rewrite app_nil_r|discriminate].
Qed.

Lemma map_content_finalized (f : nat -> nat) subs : forall i,
  map chunk_content (mapi_from (fun c idx => finalizeChunk c (f idx)) i subs)
  = map content subs.
Proof.
  induction subs as [|s subs IH]; intros i; [reflexivity|].
  cbn [mapi_from map]. now rewrite IH.
Qed.

Lemma chunkStep_keeps config lang st seg st' :
  overlapTokens config <= 0 ->
  chunkStep config lang st seg = Ok st' ->
  stripSpace (chunksText st')
  = stripSpace (chunksText st) ++ stripSpace (seg_content seg).
Proof.
  intros Hov Hstep. destruct st as [chunks cur]. unfold chunkStep in Hstep.
  destruct (_ >? _).
  - destruct (lastElem _) as [lastSub|]; inversion Hstep; subst; clear Hstep.
    unfold chunksText. cbn [fst snd].
    rewrite (createOverlapChunk_disabled _ _ Hov), app_nil_r.
    rewrite map_app, concat_app, pushCurrent_text, map_content_finalized.
    now rewrite !stripSpace_app, splitLongSegment_keeps.
  - destruct (_ <=? _); inversion Hstep; subst; clear Hstep;
      unfold chunksText; cbn [fst snd content].
    + rewrite !stripSpace_app, (@stripSpace_sep LFLF _ stripSpace_LFLF).
      cbn [app]. now rewrite app_assoc.
    + rewrite (createOverlapChunk_disabled _ _ Hov). cbn [truthy app].
      now rewrite pushCurrent_text, !stripSpace_app.
Qed.

Lemma chunkLoop_keeps config lang segs : forall st st',
  overlapTokens config <= 0 ->
  chunkLoop config lang st segs = Ok st' ->
  stripSpace (chunksText st')
  = stripSpace (chunksText st) ++ stripSpace (concat (map seg_content segs)).
Proof.
  induction segs as [|seg segs IH]; intros st st' Hov Hloop; cbn [chunkLoop] in Hloop.
  - inversion Hloop; subst. cbn. now rewrite app_nil_r.
  - destruct (chunkStep config lang st seg) as [st1|] eqn:Hstep; [|discriminate].
    rewrite (IH _ _ Hov Hloop), (chunkStep_keeps _ _ _ _ Hov Hstep).
    cbn [map concat]. now rewrite stripSpace_app, app_assoc.
Qed.

Lemma finalFlush_text config chunks cur :
  finalFlush config chunks cur <> [] ->
  stripSpace (concat (map chunk_content (finalFlush config chunks cur)))
  = stripSpace (chunksText (chunks, cur)).
Proof.
  unfold finalFlush, chunksText. cbn [fst snd].
  destruct (truthy (content cur)) eqn:Ht; cbn [andb].
  - destruct (_ >=? _).
    + intros _. rewrite map_app. cbn [map finalizeChunk chunk_content].
      now rewrite concat_snoc.
    + destruct chunks as [|c chunks] using rev_ind; [now intros H|].
      intros _. clear IHchunks.
      replace (0 <? length (chunks ++ [c]))%nat with true
        by (symmetry; apply Nat.ltb_lt; rewrite length_app; cbn; lia).
      rewrite rev_app_distr. cbn [rev app]. rewrite rev_involutive.
      rewrite !map_app. cbn [map mergeInto chunk_content].
      rewrite !concat_snoc, !stripSpace_app, stripSpace_LFLF.
      cbn [app]. now rewrite app_assoc.
  - intros _. destruct (content cur); [now rewrite app_nil_r|discriminate].
Qed.

(** With the overlap disabled, the chunks of [smartChunk], one after the
    other, are the text up to white space, unless there is none. *)
Theorem smartChunk_keeps_text (text : jsstring) (config : Config)
    (chunks : list Chunk) :
  smartChunk text config = Ok chunks ->
  overlapTokens config <= 0 ->
  chunks <> [] ->
  stripSpace (concat (map chunk_content chunks)) = stripSpace text.
Proof.
  intros Hsmart Hov Hne. unfold smartChunk in Hsmart.
  destruct (chunkLoop _ _ _ _) as [[emitted cur]|] eqn:Hloop; [|discriminate].
  inversion Hsmart; subst chunks; clear Hsmart.
  rewrite (finalFlush_text _ _ _ Hne), (@chunkLoop_keeps _ _ _ _ _ Hov Hloop).
  cbn [chunksText fst snd map concat app initialChunk emptyChunk content].
  apply segments_keep_text.
Qed.

Lemma infix_refl s : infix s s.
Proof. exists [], []. now rewrite app_nil_r. Qed.

Lemma infix_app_r a b t : infix a b -> infix a (b ++ t).
Proof. intros (pre & post & ->). exists pre, (post ++ t). now rewrite <- !app_assoc. Qed.

Lemma infix_app_l a b t : infix a b -> infix a (t ++ b).
Proof. intros (pre & post & ->). exists (t ++ pre), post. now rewrite <- !app_assoc. Qed.

Lemma infix_truthy a b : truthy a = true -> infix a b -> truthy b = true.
Proof.
  intros Ha (pre & post & ->). destruct a; [discriminate|].
  now destruct pre.
Qed.

Lemma pushCurrent_held s chunks cur :
  truthy s = true ->
  held s (chunks, cur) ->
  exists c, In c (pushCurrent chunks cur) /\ infix s (chunk_content c).
Proof.
  intros Hs [(c & Hin & Hc) | Hcur]; cbn [fst snd] in *; unfold pushCurrent.
  - exists c. split; [|exact Hc].
    destruct (truthy (content cur)); [apply in_or_app; now left|exact Hin].
  - rewrite (infix_truthy Hs Hcur).
    exists (finalizeChunk cur (length chunks)).
    split; [apply in_or_app; right; now left|exact Hcur].
Qed.

Lemma chunkStep_held config lang st seg st' s :
  chunkStep config lang st seg = Ok st' ->
  truthy s = true ->
  held s st -> held s st'.
Proof.
  intros Hstep Hs Hheld. destruct st as [chunks cur]. unfold chunkStep in Hstep.
  destruct (_ >? _).
  - destruct (lastElem _); inversion Hstep; subst; clear Hstep.
    destruct (pushCurrent_held Hs Hheld) as (c & Hin & Hc).
    left. exists c. split; [apply in_or_app; now left|exact Hc].
  - destruct (_ <=? _); inversion Hstep; subst; clear Hstep.
    + destruct Hheld as [Hheld | Hcur]; [now left|right].
      cbn [fst snd content] in *. now apply infix_app_r.
    + destruct (pushCurrent_held Hs Hheld) as (c & Hin & Hc).
      left. now exists c.
Qed.

Lemma chunkStep_holds config lang st seg st' :
  chunkStep config lang st seg = Ok st' ->
  estimateTokens (seg_content seg) <= maxChunkTokens config ->
  held (seg_content seg) st'.
Proof.
  intros Hstep Hfit. destruct st as [chunks cur]. unfold chunkStep in Hstep.
  replace (estimateTokens (seg_content seg) >? maxChunkTokens config)
    with false in Hstep by lia.
  destruct (_ <=? _); inversion Hstep; subst; clear Hstep;
    right; cbn [fst snd content];
    rewrite app_assoc; apply infix_app_l, infix_refl.
Qed.

Lemma chunkLoop_held config lang segs : forall st st' s,
  chunkLoop config lang st segs = Ok st' ->
  truthy s = true ->
  held s st -> held s st'.
Proof.
  induction segs as [|seg segs IH]; intros st st' s Hloop Hs Hheld;
    cbn [chunkLoop] in Hloop.
  - now inversion Hloop; subst.
  - destruct (chunkStep config lang st seg) as [st1|] eqn:Hstep; [|discriminate].
    eapply IH; eauto. eapply chunkStep_held; eauto.
Qed.

Lemma chunkLoop_holds config lang segs : forall st st' seg,
  chunkLoop config lang st segs = Ok st' ->
  In seg segs ->
  truthy (seg_content seg) = true ->
  estimateTokens (seg_content seg) <= maxChunkTokens config ->
  held (seg_content seg) st'.
Proof.
  induction segs as [|x segs IH]; intros st st' seg Hloop Hin Hs Hfit;
    [destruct Hin|].
  cbn [chunkLoop] in Hloop.
  destruct (chunkStep config lang st x) as [st1|] eqn:Hstep; [|discriminate].
  destruct Hin as [-> | Hin].
  - eapply chunkLoop_held; eauto. eapply chunkStep_holds; eauto.
  - eapply IH; eauto.
Qed.

Lemma finalFlush_held config chunks cur s :
  truthy s = true ->
  held s (chunks, cur) ->
  finalFlush config chunks cur <> [] ->
  exists c, In c (finalFlush config chunks cur) /\ infix s (chunk_content c).
Proof.
  intros Hs Hheld. unfold finalFlush.
  destruct (truthy (content cur) && (tokens cur >=? minChunkTokens config)) eqn:Hpush.
  - intros _. apply andb_prop in Hpush as [Ht _].
    pose proof (pushCurrent_held Hs Hheld) as H. unfold pushCurrent in H.
    now rewrite Ht in H.
  - destruct (truthy (content cur)) eqn:Ht; cbn [andb].
    + destruct chunks as [|lastChunk front _] using rev_ind; [now intros H|].
      intros _.
      replace (0 <? length (front ++ [lastChunk]))%nat with true
        by (symmetry; apply Nat.ltb_lt; rewrite length_app; cbn; lia).
      rewrite rev_app_distr. cbn [rev app]. rewrite rev_involutive.
      destruct Hheld as [(c & Hin & Hc) | Hcur]; cbn [fst snd] in *.
      * apply in_app_or in Hin as [Hin | [<- | []]].
        -- exists c. split; [apply in_or_app; now left|exact Hc].
        -- exists (mergeInto lastChunk cur).
           split; [apply in_or_app; right; now left|].
           cbn [mergeInto chunk_content]. now apply infix_app_r.
      * exists (mergeInto lastChunk cur).
        split; [apply in_or_app; right; now left|].
        cbn [mergeInto chunk_content]. now apply infix_app_l, infix_app_l.
    + intros _. destruct Hheld as [(c & Hin & Hc) | Hcur]; cbn [fst snd] in *.
      * now exists c.
      * now rewrite (infix_truthy Hs Hcur) in Ht.
Qed.

(** A segment that fits the budget is never cut: it lies, as it is, in one
    chunk of [smartChunk], unless [smartChunk] returns no chunk. *)
Theorem segment_kept_whole (text : jsstring) (config : Config)
    (chunks : list Chunk) (segment : Segment) :
  smartChunk text config = Ok chunks ->
  chunks <> [] ->
  In segment (identifyLegalStructure text (detectLanguage text)) ->
  estimateTokens (seg_content segment) <= maxChunkTokens config ->
  exists c, In c chunks /\ infix (seg_content segment) (chunk_content c).
Proof.
  intros Hsmart Hne Hin Hfit. unfold smartChunk in Hsmart.
  destruct (chunkLoop _ _ _ _) as [[emitted cur]|] eqn:Hloop; [|discriminate].
  inversion Hsmart; subst chunks; clear Hsmart.
  assert (Hs : truthy (seg_content segment) = true).
  { apply solid_truthy.
    pose proof (identifyLegalStructure_solid text (detectLanguage text)) as Hall.
    rewrite Forall_forall in Hall. now apply Hall. }
  apply finalFlush_held; [exact Hs| |exact Hne].
  eapply chunkLoop_holds; eauto.
Qed.

Lemma finalized_snoc chunks acc :
  finalized chunks -> finalized (chunks ++ [finalizeChunk acc (length chunks)]).
Proof.
  intros H i c Hi.
  destruct (Nat.lt_ge_cases i (length chunks)) as [Hlt | Hge].
  - rewrite nth_error_app1 in Hi by exact Hlt. now apply H.
  - rewrite nth_error_app2 in Hi by exact Hge.
    destruct (i - length chunks)%nat as [|k] eqn:Hk.
    + cbn in Hi. inversion Hi; subst. exists acc. f_equal. lia.
    + cbn in Hi. now destruct k.
Qed.

Lemma finalized_pushCurrent chunks cur :
  finalized chunks -> finalized (pushCurrent chunks cur).
Proof.
  intros H. unfold pushCurrent.
  destruct (truthy (content cur)); [now apply finalized_snoc|exact H].
Qed.

Lemma nth_error_mapi_from {A B} (f : A -> nat -> B) l : forall i k y,
  nth_error (mapi_from f i l) k = Some y -> exists x, y = f x (i + k)%nat.
Proof.
  induction l as [|x l IH]; intros i k y H; [now destruct k|].
  destruct k as [|k]; cbn in H.
  - inversion H; subst. exists x. f_equal. lia.
  - destruct (IH _ _ _ H) as (x' & ->). exists x'. f_equal. lia.
Qed.

Lemma finalized_subChunks chunks subs :
  finalized chunks ->
  finalized (chunks ++ mapi_from (fun c idx => finalizeChunk c (length chunks + idx))
                         0 subs).
Proof.
  intros H i c Hi.
  destruct (Nat.lt_ge_cases i (length chunks)) as [Hlt | Hge].
  - rewrite nth_error_app1 in Hi by exact Hlt. now apply H.
  - rewrite nth_error_app2 in Hi by exact Hge.
    apply nth_error_mapi_from in Hi as (sub & ->).
    exists sub. f_equal. lia.
Qed.

Lemma chunkStep_finalized config lang st seg st' :
  chunkStep config lang st seg = Ok st' ->
  finalized (fst st) -> finalized (fst st').
Proof.
  intros Hstep H. destruct st as [chunks cur]. unfold chunkStep in Hstep.
  cbn [fst] in H.
  destruct (_ >? _).
  - destruct (lastElem _); inversion Hstep; subst; clear Hstep. cbn [fst].
    now apply finalized_subChunks, finalized_pushCurrent.
  - destruct (_ <=? _); inversion Hstep; subst; clear Hstep; cbn [fst];
      [exact H|now apply finalized_pushCurrent].
Qed.

Lemma chunkLoop_finalized config lang segs : forall st st',
  chunkLoop config lang st segs = Ok st' ->
  finalized (fst st) -> finalized (fst st').
Proof.
  induction segs as [|seg segs IH]; intros st st' Hloop H; cbn [chunkLoop] in Hloop.
  - now inversion Hloop; subst.
  - destruct (chunkStep config lang st seg) as [st1|] eqn:Hstep; [|discriminate].
    eapply IH; eauto. eapply chunkStep_finalized; eauto.
Qed.

(** The metadata of the chunks of [smartChunk]: the index of a chunk is its
    position, its token count is the estimate of its content (the final
    merge measures again), and its character count is the length of its
    content, except for the last chunk, the one the final merge extends
    without counting again. *)
Theorem smartChunk_metadata (text : jsstring) (config : Config)
    (chunks : list Chunk) (i : nat) (c : Chunk) :
  smartChunk text config = Ok chunks ->
  nth_error chunks i = Some c ->
  chunkIndex (metadata c) = i
  /\ md_tokens (metadata c) = estimateTokens (chunk_content c)
  /\ (charCount (metadata c) <= length (chunk_content c))%nat
  /\ (S i < length chunks -> charCount (metadata c) = length (chunk_content c))%nat.
Proof.
  intros Hsmart Hi. unfold smartChunk in Hsmart.
  destruct (chunkLoop _ _ _ _) as [[emitted cur]|] eqn:Hloop; [|discriminate].
  inversion Hsmart; subst chunks; clear Hsmart.
  assert (Hfin : finalized emitted).
  { apply (@chunkLoop_finalized _ _ _ _ _ Hloop). intros k x Hk. now destruct k. }
  assert (Hdone : forall acc k, c = finalizeChunk acc k -> k = i ->
            chunkIndex (metadata c) = i
            /\ md_tokens (metadata c) = estimateTokens (chunk_content c)
            /\ (charCount (metadata c) <= length (chunk_content c))%nat
            /\ (S i < length (finalFlush config emitted cur) ->
                charCount (metadata c) = length (chunk_content c))%nat).
  { intros acc k -> ->. cbn. auto. }
  unfold finalFlush in *.
  destruct (truthy (content cur) && (tokens cur >=? minChunkTokens config)).
  - destruct (@finalized_snoc _ cur Hfin _ _ Hi) as (acc & Hacc). now apply (Hdone acc i).
  - destruct (truthy (content cur) && (0 <? length emitted)%nat).
    + destruct emitted as [|lastChunk front _] using rev_ind.
      * now destruct i.
      * rewrite rev_app_distr in *. cbn [rev app] in *. rewrite rev_involutive in *.
        destruct (Nat.lt_ge_cases i (length front)) as [Hlt | Hge].
        -- rewrite nth_error_app1 in Hi by exact Hlt.
           destruct (Hfin i c) as (acc & Hacc);
             [now rewrite nth_error_app1 by exact Hlt|].
           now apply (Hdone acc i).
        -- rewrite nth_error_app2 in Hi by exact Hge.
           destruct (i - length front)%nat as [|k] eqn:Hk;
             [|cbn in Hi; now destruct k].
           cbn in Hi. inversion Hi; subst c; clear Hi.
           destruct (Hfin i lastChunk) as (acc & ->).
           { rewrite nth_error_app2 by exact Hge. now rewrite Hk. }
           cbn. rewrite !length_app. cbn. repeat split; lia.
    + destruct (Hfin _ _ Hi) as (acc & Hacc). now apply (Hdone acc i).
Qed.

Lemma estimateTokens_le_length s : estimateTokens s <= Z.of_nat (length s).
Proof.
  rewrite estimateTokens_Z. pose proof (chineseChars_le s).
  Z.to_euclidean_division_equations; lia.
Qed.

Lemma split_go_lineBreak_weight before piece skip s :
  (linesWeight (split_go lineBreak before piece skip s)
   <= length piece + length s + 1)%nat.
Proof.
  revert before piece skip. induction s as [|c s IH]; intros before piece skip.
  - cbn. rewrite length_rev. lia.
  - cbn [split_go]. destruct skip as [|k].
    + destruct (lineBreak before (c :: s)) as [[n caps]|] eqn:Hm.
      * assert (Hn : caps = [] /\ (n = 1 \/ n = 2)%nat).
        { unfold lineBreak in Hm.
          destruct c as [|p]; [discriminate|].
          repeat (destruct p as [p|p|]; try discriminate).
          - destruct s as [|d s']; [discriminate|].
            destruct d as [|p]; [discriminate|].
            repeat (destruct p as [p|p|]; try discriminate).
            inversion Hm; auto.
          - inversion Hm; auto. }
        destruct Hn as [-> [-> | ->]]; cbn [app linesWeight fold_right];
          fold (linesWeight (split_go lineBreak (c :: before) [] 0 s));
          fold (linesWeight (split_go lineBreak (c :: before) [] 1 s)).
        -- specialize (IH (c :: before) [] 0%nat). rewrite length_rev. cbn in *. lia.
        -- specialize (IH (c :: before) [] 1%nat). rewrite length_rev. cbn in *. lia.
      * specialize (IH (c :: before) (c :: piece) 0%nat). cbn in *. lia.
    + specialize (IH (c :: before) piece k). cbn in *. lia.
Qed.

Lemma split_lineBreak_weight text :
  (linesWeight (split lineBreak text) <= length text + 1)%nat.
Proof.
  destruct text as [|c s]; [cbn; lia|].
  unfold split. pose proof (split_go_lineBreak_weight [] [] 0 (c :: s)). cbn in *. lia.
Qed.

Lemma length_dropWhile {A} (p : A -> bool) l : (length (dropWhile p l) <= length l)%nat.
Proof.
  induction l as [|x l IH]; [cbn; lia|]. cbn. destruct (p x); cbn; lia.
Qed.

Lemma length_trim s : (length (trim s) <= length s)%nat.
Proof.
  unfold trim. rewrite length_rev.
  etransitivity; [apply length_dropWhile|]. rewrite length_rev. apply length_dropWhile.
Qed.

Lemma fold_weight_snoc (segs : list Segment) g :
  (fold_right (fun g n => length (seg_content g) + 1 + n) 0 (segs ++ [g])
   = fold_right (fun g n => length (seg_content g) + 1 + n) 0 segs
     + length (seg_content g) + 1)%nat.
Proof. induction segs as [|x segs IH]; cbn in *; lia. Qed.

Lemma truthy_length s : truthy s = true -> (1 <= length s)%nat.
Proof. destruct s; [discriminate|cbn; lia]. Qed.

Lemma lineStep_weight patterns st line :
  (segmentsWeight (lineStep patterns st line)
   <= segmentsWeight st + length line + 1)%nat.
Proof.
  destruct st as [segs cur]. unfold lineStep, segmentsWeight.
  pose proof (length_trim line) as Hlen.
  destruct (truthy (trim line)) eqn:Ht; cbn [negb].
  - destruct (classifyLine patterns (trim line)) as [[ty imp]|].
    + destruct (truthy (trim (seg_content cur))) eqn:Hc; cbn [fst snd seg_content].
      * rewrite fold_weight_snoc, Ht.
        assert (Hcur : truthy (seg_content cur) = true).
        { destruct (seg_content cur); [discriminate Hc|reflexivity]. }
        rewrite Hcur. lia.
      * destruct (seg_content cur) as [|x r]; cbn [truthy app length];
          [rewrite Ht|rewrite !length_app; cbn]; lia.
    + cbn [fst snd seg_content].
      destruct (seg_content cur) as [|x r]; cbn [truthy app length];
        [rewrite Ht|rewrite !length_app; cbn]; lia.
  - destruct (truthy (seg_content cur)) eqn:Hc; cbn [fst snd seg_content].
    + destruct (seg_content cur) as [|x r]; [discriminate|].
      cbn [truthy app length]. rewrite length_app; cbn; lia.
    + rewrite Hc. lia.
Qed.

Lemma lineLoop_weight patterns lines : forall st,
  (segmentsWeight (fold_left (lineStep patterns) lines st)
   <= segmentsWeight st + linesWeight lines)%nat.
Proof.
  induction lines as [|line lines IH]; intros st; cbn [fold_left linesWeight fold_right].
  - lia.
  - fold (linesWeight lines). specialize (IH (lineStep patterns st line)).
    pose proof (lineStep_weight patterns st line). lia.
Qed.

(** The segments are no longer than the text. *)
Lemma identifyLegalStructure_length text lang :
  (fold_right (fun g n => length (seg_content g) + n) 0
     (identifyLegalStructure text lang) <= length text)%nat.
Proof.
  unfold identifyLegalStructure.
  pose proof (lineLoop_weight (LEGAL_PATTERNS lang) (split lineBreak text)
                ([], {| seg_type := tContent; seg_content := [];
                        seg_importance := iNormal |})) as H.
  pose proof (split_lineBreak_weight text) as Hs.
  destruct (fold_left _ _ _) as [segs cur].
  unfold segmentsWeight in H. cbn [fst snd seg_content truthy fold_right length] in H.
  assert (Hsum : forall l : list Segment,
             (fold_right (fun g n => length (seg_content g) + n) 0 l + length l
              = fold_right (fun g n => length (seg_content g) + 1 + n) 0 l)%nat).
  { induction l as [|x l IHl]; cbn in *; lia. }
  destruct (truthy (trim (seg_content cur))) eqn:Ht.
  - specialize (Hsum (segs ++ [cur])). rewrite fold_weight_snoc in Hsum.
    rewrite length_app in Hsum. cbn in Hsum.
    destruct (seg_content cur) as [|x r]; [discriminate Ht|]. cbn [truthy] in H. lia.
  - specialize (Hsum segs).
    destruct segs as [|g segs]; [cbn; lia|].
    cbn [length] in Hsum. destruct (truthy (seg_content cur)); lia.
Qed.

Lemma segmentsTokens_le_length segs :
  segmentsTokens segs
  <= Z.of_nat (fold_right (fun g n => length (seg_content g) + n)%nat 0%nat segs).
Proof.
  induction segs as [|g segs IH]; cbn [segmentsTokens fold_right]; [lia|].
  fold (segmentsTokens segs). pose proof (estimateTokens_le_length (seg_content g)). lia.
Qed.

Lemma segmentsTokens_nonneg segs : 0 <= segmentsTokens segs.
Proof.
  induction segs as [|g segs IH]; cbn [segmentsTokens fold_right]; [lia|].
  fold (segmentsTokens segs). pose proof (estimateTokens_nonneg (seg_content g)). lia.
Qed.

(** While the running count stays within the budget the loop emits nothing. *)
Lemma chunkLoop_accumulates config lang segs : forall cur,
  0 <= tokens cur ->
  tokens cur + segmentsTokens segs <= maxChunkTokens config ->
  exists cur',
    chunkLoop config lang ([], cur) segs = Ok ([], cur')
    /\ tokens cur' = tokens cur + segmentsTokens segs.
Proof.
  induction segs as [|g segs IH]; intros cur Hpos Hfit;
    cbn [segmentsTokens fold_right] in *.
  - exists cur. split; [reflexivity|lia].
  - fold (segmentsTokens segs) in *.
    pose proof (segmentsTokens_nonneg segs).
    pose proof (estimateTokens_nonneg (seg_content g)).
    cbn [chunkLoop]. unfold chunkStep.
    replace (estimateTokens (seg_content g) >? maxChunkTokens config) with false by lia.
    replace (tokens cur + estimateTokens (seg_content g) <=? maxChunkTokens config)
      with true by lia.
    match goal with |- context [chunkLoop _ _ ([], ?c) segs] =>
      destruct (IH c) as (cur' & Hloop & Htok); cbn [tokens]; [lia|lia|] end.
    exists cur'. split; [exact Hloop|]. cbn [tokens] in Htok. lia.
Qed.

Lemma short_text_no_chunk (text : jsstring) (config : Config) :
  Z.of_nat (length text) < minChunkTokens config ->
  minChunkTokens config <= maxChunkTokens config ->
  smartChunk text config = Ok [].
Proof.
  intros Hshort Hcfg. unfold smartChunk.
  pose proof (identifyLegalStructure_length text (detectLanguage text)) as Hlen.
  pose proof (segmentsTokens_le_length
                (identifyLegalStructure text (detectLanguage text))) as Htok.
  destruct (@chunkLoop_accumulates config (detectLanguage text)
              (identifyLegalStructure text (detectLanguage text)) initialChunk)
    as (cur & -> & Hcur); cbn [initialChunk emptyChunk tokens]; [lia|lia|].
  cbn [initialChunk emptyChunk tokens] in Hcur.
  unfold finalFlush.
  replace (tokens cur >=? minChunkTokens config) with false by lia.
  now rewrite !andb_false_r.
Qed.

(** A text of fewer code units than [minChunkTokens] is dropped: every
    code unit counts for at most one token, so the text never reaches the
    least size of a chunk. *)
Theorem short_text_is_dropped (text : jsstring) (config : Config) :
  Z.of_nat (length text) < minChunkTokens config ->
  minChunkTokens config <= maxChunkTokens config ->
  smartChunk text config = Ok [].
Proof. apply short_text_no_chunk. Qed.

Lemma classifyLine_importance patterns line t imp :
  classifyLine patterns line = Some (t, imp) -> imp = importanceOf t /\ t <> tContent.
Proof.
  unfold classifyLine.
  repeat match goal with |- context [if ?b then _ else _] => destruct b end;
    intros H; inversion H; subst; split; (reflexivity || discriminate).
Qed.

Lemma lineStep_coherent patterns st line :
  Forall segmentCoherent (fst st) -> segmentCoherent (snd st) ->
  Forall segmentCoherent (fst (lineStep patterns st line))
  /\ segmentCoherent (snd (lineStep patterns st line)).
Proof.
  destruct st as [segs cur]. cbn [fst snd]. intros Hsegs Hcur. unfold lineStep.
  destruct (negb (truthy (trim line))).
  - destruct (truthy (seg_content cur)); cbn [fst snd]; auto.
  - destruct (classifyLine patterns (trim line)) as [[t imp]|] eqn:Hc.
    + apply classifyLine_importance in Hc as [-> _].
      destruct (truthy (trim (seg_content cur))); cbn [fst snd]; split;
        try exact Hsegs; try reflexivity.
      apply Forall_app; split; [exact Hsegs|now constructor].
    + cbn [fst snd]. auto.
Qed.

Lemma identifyLegalStructure_coherent text lang :
  Forall segmentCoherent (identifyLegalStructure text lang).
Proof.
  unfold identifyLegalStructure.
  assert (H : forall lines st,
             Forall segmentCoherent (fst st) -> segmentCoherent (snd st) ->
             Forall segmentCoherent (fst (fold_left (lineStep (LEGAL_PATTERNS lang)) lines st))
             /\ segmentCoherent (snd (fold_left (lineStep (LEGAL_PATTERNS lang)) lines st))).
  { induction lines as [|line lines IH]; intros st H1 H2; cbn [fold_left]; [auto|].
    destruct (lineStep_coherent (LEGAL_PATTERNS lang) st line H1 H2). now apply IH. }
  specialize (H (split lineBreak text)
                ([], {| seg_type := tContent; seg_content := [];
                        seg_importance := iNormal |})).
  destruct (fold_left _ _ _) as [segs cur]. cbn [fst snd] in H.
  destruct H as [Hs Hc]; [constructor|reflexivity|].
  destruct (truthy _); [|exact Hs].
  apply Forall_app; split; [exact Hs|now constructor].
Qed.

Lemma SegType_eqb_eq a b : SegType_eqb a b = true <-> a = b.
Proof. destruct a, b; cbn; split; (reflexivity || discriminate). Qed.

Lemma includes_In t l : existsb (SegType_eqb t) l = true <-> In t l.
Proof.
  rewrite existsb_exists. split.
  - intros (x & Hin & Hx). apply SegType_eqb_eq in Hx. now subst.
  - intros Hin. exists t. split; [exact Hin|now apply SegType_eqb_eq].
Qed.

Lemma uniqueTypes_In t xs : forall seen,
  In t (uniqueTypes seen xs) <-> In t xs /\ ~ In t seen.
Proof.
  induction xs as [|x xs IH]; intros seen; cbn [uniqueTypes].
  - cbn. tauto.
  - destruct (existsb (SegType_eqb x) seen) eqn:Hx.
    + apply includes_In in Hx. rewrite IH. cbn [In].
      split; [tauto|]. intros [[<- | Hin] Hs]; tauto.
    + assert (Hnot : ~ In x seen).
      { intros Hin. apply includes_In in Hin. congruence. }
      cbn [In]. rewrite IH. cbn [In].
      destruct (SegType_eqb x t) eqn:Hxt.
      * apply SegType_eqb_eq in Hxt as ->. tauto.
      * assert (x <> t) by (intros ->; rewrite (proj2 (SegType_eqb_eq t t) eq_refl) in Hxt;
                            discriminate).
        tauto.
Qed.

Lemma existsb_uniqueTypes (p : SegType -> bool) xs :
  existsb p (uniqueTypes [] xs) = existsb p xs.
Proof.
  apply eq_true_iff_eq. rewrite !existsb_exists.
  split; intros (t & Hin & Hp); exists t; (split; [|exact Hp]).
  - now apply uniqueTypes_In in Hin.
  - apply uniqueTypes_In. now split.
Qed.

Lemma finalizeChunk_coherent acc i : accCoherent acc -> chunkCoherent (finalizeChunk acc i).
Proof.
  unfold accCoherent, chunkCoherent. cbn [finalizeChunk metadata md_importance segmentTypes].
  now rewrite existsb_uniqueTypes.
Qed.

Lemma segment_accCoherent g content' tokens' overlap' :
  segmentCoherent g ->
  accCoherent {| content := content'; tokens := tokens'; segments := [seg_type g];
                 importance := seg_importance g; hasOverlap := overlap' |}.
Proof.
  unfold segmentCoherent, accCoherent. cbn [importance segments existsb].
  intros ->. rewrite orb_false_r. destruct (seg_type g); cbn; split; congruence.
Qed.

Lemma createOverlapChunk_coherent prev config : accCoherent (createOverlapChunk prev config).
Proof.
  unfold createOverlapChunk, accCoherent.
  destruct (negb _); cbn; split; discriminate.
Qed.

Lemma pushCurrent_coherent chunks cur :
  Forall chunkCoherent chunks -> accCoherent cur ->
  Forall chunkCoherent (pushCurrent chunks cur).
Proof.
  intros Hc Ha. unfold pushCurrent. destruct (truthy _); [|exact Hc].
  apply Forall_app; split; [exact Hc|]. constructor; [|constructor].
  now apply finalizeChunk_coherent.
Qed.

Lemma sentenceStep_coherent g config st s :
  segmentCoherent g ->
  Forall accCoherent (fst st) -> accCoherent (snd st) ->
  Forall accCoherent (fst (sentenceStep g config st s))
  /\ accCoherent (snd (sentenceStep g config st s)).
Proof.
  intros Hg. destruct st as [subs cur]. cbn [fst snd]. intros Hs Hc.
  unfold sentenceStep. destruct (_ <=? _); cbn [fst snd].
  - split; [exact Hs|exact Hc].
  - split; [|now apply segment_accCoherent].
    destruct (truthy _); [|exact Hs].
    apply Forall_app; split; [exact Hs|now constructor].
Qed.

Lemma splitLongSegment_coherent g config lang :
  segmentCoherent g -> Forall accCoherent (splitLongSegment g config lang).
Proof.
  intros Hg. unfold splitLongSegment.
  assert (H : forall sentences st,
             Forall accCoherent (fst st) -> accCoherent (snd st) ->
             Forall accCoherent (fst (fold_left (sentenceStep g config) sentences st))
             /\ accCoherent (snd (fold_left (sentenceStep g config) sentences st))).
  { induction sentences as [|s l IH]; intros st H1 H2; cbn [fold_left]; [auto|].
    destruct (sentenceStep_coherent config st s Hg H1 H2). now apply IH. }
  match goal with |- context [fold_left _ _ ?init] =>
    specialize (H (sentencesOf lang g) init) end.
  destruct (fold_left _ _ _) as [subs cur]. cbn [fst snd] in H.
  destruct H as [Hs Hc]; [constructor|now apply segment_accCoherent|].
  destruct (truthy _); [|exact Hs].
  apply Forall_app; split; [exact Hs|now constructor].
Qed.

Lemma Forall_finalized (P : Chunk -> Prop) (Q : Acc -> Prop) (f : nat -> nat) subs :
  (forall acc i, Q acc -> P (finalizeChunk acc i)) ->
  Forall Q subs -> forall i,
  Forall P (mapi_from (fun c idx => finalizeChunk c (f idx)) i subs).
Proof.
  intros HPQ Hs. induction Hs as [|s subs Hq _ IH]; intros i; cbn [mapi_from];
    constructor; auto.
Qed.

Lemma chunkStep_coherent config lang st g st' :
  chunkStep config lang st g = Ok st' ->
  segmentCoherent g ->
  Forall chunkCoherent (fst st) -> accCoherent (snd st) ->
  Forall chunkCoherent (fst st') /\ accCoherent (snd st').
Proof.
  intros Hstep Hg Hc Ha. destruct st as [chunks cur]. cbn [fst snd] in *.
  unfold chunkStep in Hstep. destruct (_ >? _).
  - destruct (lastElem _); inversion Hstep; subst; clear Hstep. cbn [fst snd].
    split; [|apply createOverlapChunk_coherent].
    apply Forall_app; split; [now apply pushCurrent_coherent|].
    apply (@Forall_finalized chunkCoherent accCoherent);
      [apply finalizeChunk_coherent|now apply splitLongSegment_coherent].
  - destruct (_ <=? _); inversion Hstep; subst; clear Hstep; cbn [fst snd].
    + split; [exact Hc|].
      unfold accCoherent, segmentCoherent in *. cbn [importance segments].
      rewrite existsb_app. cbn [existsb]. rewrite orb_false_r.
      rewrite Hg. destruct (seg_type g); cbn;
        rewrite ?orb_true_r, ?orb_false_r; try tauto; split; auto.
    + split; [now apply pushCurrent_coherent|now apply segment_accCoherent].
Qed.

Lemma chunkLoop_coherent config lang segs : forall st st',
  chunkLoop config lang st segs = Ok st' ->
  Forall segmentCoherent segs ->
  Forall chunkCoherent (fst st) -> accCoherent (snd st) ->
  Forall chunkCoherent (fst st') /\ accCoherent (snd st').
Proof.
  induction segs as [|g segs IH]; intros st st' Hloop Hsegs Hc Ha;
    cbn [chunkLoop] in Hloop.
  - inversion Hloop; subst. auto.
  - destruct (chunkStep config lang st g) as [st1|] eqn:Hstep; [|discriminate].
    inversion Hsegs; subst.
    destruct (@chunkStep_coherent _ _ _ _ _ Hstep) as [Hc1 Ha1]; auto.
    eapply IH; eauto.
Qed.

Lemma smartChunk_coherent text config chunks :
  smartChunk text config = Ok chunks -> Forall chunkCoherent chunks.
Proof.
  intros Hsmart. unfold smartChunk in Hsmart.
  destruct (chunkLoop _ _ _ _) as [[emitted cur]|] eqn:Hloop; [|discriminate].
  inversion Hsmart; subst chunks; clear Hsmart.
  destruct (@chunkLoop_coherent _ _ _ _ _ Hloop) as [Hc Ha]; cbn [fst snd].
  - apply identifyLegalStructure_coherent.
  - constructor.
  - unfold accCoherent. cbn. split; discriminate.
  - cbn [fst snd] in *. unfold finalFlush.
    destruct (_ && _).
    + apply Forall_app; split; [exact Hc|]. constructor; [|constructor].
      now apply finalizeChunk_coherent.
    + destruct (_ && _); [|exact Hc].
      destruct emitted as [|lastChunk front _] using rev_ind; [exact Hc|].
      rewrite rev_app_distr. cbn [rev app]. rewrite rev_involutive.
      apply Forall_app in Hc as [Hf Hl]. apply Forall_app; split; [exact Hf|].
      inversion Hl; subst. constructor; [|constructor]. exact H1.
Qed.

Lemma note_head (note x : jsstring) (l l' : list jsstring) ch r :
  note = ch :: r -> ch <> 0x5BF9%N ->
  [note] ++ l' = x :: l -> exists r ch, x = ch :: r /\ ch <> 0x5BF9%N.
Proof.
  intros Hnote Hch H. cbn [app] in H. injection H as <- _.
  exists r, ch. now split.
Qed.

Lemma promptContexts_head c x l :
  promptContexts c = x :: l -> exists r ch, x = ch :: r /\ ch <> 0x5BF9%N.
Proof.
  unfold promptContexts.
  destruct (_ || _);
    [eapply note_head; [vm_compute; reflexivity|discriminate]|].
  destruct (includesType tHeader _);
    [eapply note_head; [vm_compute; reflexivity|discriminate]|].
  destruct (includesType tSignature _);
    [eapply note_head; [vm_compute; reflexivity|discriminate]|].
  destruct (md_importance _);
    try (eapply note_head; [vm_compute; reflexivity|discriminate]);
    (destruct (md_hasOverlap _);
     [eapply (@note_head _ _ _ []); [vm_compute; reflexivity|discriminate]
     |discriminate]).
Qed.

Lemma getChunkPromptContext_default c :
  getChunkPromptContext c = fullReviewNote <-> promptContexts c = [].
Proof.
  unfold getChunkPromptContext.
  destruct (promptContexts c) as [|x l] eqn:Hc; [tauto|].
  split; [|discriminate]. intros H.
  destruct (promptContexts_head _ Hc) as (r & ch & -> & Hch).
  exfalso. apply Hch.
  destruct l; cbn in H; vm_compute in H; now inversion H.
Qed.

Lemma plain_types types :
  (forall t, In t types -> t = tContent)
  <-> includesType tArticle types = false /\ includesType tClause types = false
      /\ includesType tHeader types = false /\ includesType tSignature types = false.
Proof.
  unfold includesType. split.
  - intros H. repeat split; apply not_true_is_false; intros Hin;
      apply includes_In, H in Hin; discriminate.
  - intros (H1 & H2 & H3 & H4) t Hin. apply includes_In in Hin.
    destruct t; congruence.
Qed.

Lemma structural_types types :
  existsb structural types = true
  -> includesType tArticle types = true \/ includesType tClause types = true
     \/ includesType tHeader types = true.
Proof.
  unfold includesType. rewrite existsb_exists. intros (t & Hin & Ht).
  destruct t; try discriminate;
    [left|right; left|right; right]; now apply includes_In.
Qed.

(** The prompt context of a chunk of [smartChunk]: a chunk counts as
    important exactly when it holds an article, a clause or a header, and
    it gets the general instruction exactly when it holds plain content
    only and no overlap. *)
Theorem prompt_context_of_chunk (text : jsstring) (config : Config)
    (chunks : list Chunk) (c : Chunk) :
  smartChunk text config = Ok chunks ->
  In c chunks ->
  (md_importance (metadata c) = iHigh
   <-> existsb structural (segmentTypes (metadata c)) = true)
  /\ (getChunkPromptContext c = fullReviewNote
      <-> (forall t, In t (segmentTypes (metadata c)) -> t = tContent)
          /\ md_hasOverlap (metadata c) = false).
Proof.
  intros Hsmart Hin.
  pose proof (smartChunk_coherent _ _ Hsmart) as Hall.
  rewrite Forall_forall in Hall. specialize (Hall c Hin).
  split; [exact Hall|].
  rewrite getChunkPromptContext_default, plain_types.
  unfold chunkCoherent in Hall. unfold promptContexts.
  destruct (includesType tArticle _) eqn:H1, (includesType tClause _) eqn:H2,
    (includesType tHeader _) eqn:H3, (includesType tSignature _) eqn:H4;
    cbn [orb app]; try (split; [discriminate|intros [(? & ? & ? & ?) ?]; discriminate]).
  destruct (md_importance (metadata c)) eqn:Hi.
  - destruct (md_hasOverlap _); cbn; split; try discriminate; try tauto.
    intros [_ H]; discriminate.
  - exfalso. destruct (structural_types _ (proj1 Hall eq_refl)) as [H | [H | H]];
      congruence.
  - destruct (md_hasOverlap _); cbn; split; try discriminate; try tauto.
    intros [_ H]; discriminate.
Qed.

(** [analyzeDocument] of a text of fewer than 800 code units: no chunk,
    and an average that is NaN. *)
Theorem analyzeDocument_short_text (text : jsstring) :
  (length text < 800)%nat ->
  exists d,
    analyzeDocument text = Ok d
    /\ totalChars d = length text
    /\ da_chunkCount d = 0%nat
    /\ da_chunks d = []
    /\ averageChunkTokens d = NaN.
Proof.
  intros Hshort. unfold analyzeDocument.
  rewrite (@short_text_no_chunk text CHUNK_CONFIG) by (cbn; lia).
  cbn [bindR]. eexists. split; [reflexivity|]. cbn. auto.
Qed.

Lemma overlapLoop_truthy target : 0 < target -> forall backwards acc tok,
  truthy acc = true \/ (tok = 0 /\ Exists (fun s => truthy s = true) backwards) ->
  truthy (overlapLoop target backwards acc tok) = true.
Proof.
  intros Hpos. induction backwards as [|s rest IH]; intros acc tok H; cbn [overlapLoop].
  - destruct H as [H | [_ H]]; [exact H|inversion H].
  - destruct (tok <? target) eqn:Hlt.
    + apply IH. destruct H as [H | [-> H]].
      * left. rewrite H. apply truthy_app_r. reflexivity.
      * destruct s as [|ch r].
        -- right. inversion H; subst; [discriminate|]. split; [reflexivity|assumption].
        -- left. reflexivity.
    + destruct H as [H | [-> _]]; [exact H|lia].
Qed.

Lemma split_first_truthy m c s :
  m [] (c :: s) = None ->
  Exists (fun p => truthy p = true) (split m (c :: s)).
Proof.
  intros Hm. unfold split. cbn [split_go]. rewrite Hm.
  destruct (@split_go_first m [c] [c] 0 s ltac:(discriminate)) as (x & rest & ->).
  now constructor.
Qed.

(** [extractOverlap] returns the empty string exactly for an empty content
    or a target that is not positive; so a chunk begun after another one
    carries an overlap exactly when that one has content and
    [overlapTokens] is positive. *)
Theorem overlap_is_taken (prev : Acc) (config : Config) :
  (forall text target,
      extractOverlap text target = [] <-> text = [] \/ target <= 0)
  /\ (hasOverlap (createOverlapChunk prev config) = true
      <-> truthy (content prev) = true /\ 0 < overlapTokens config).
Proof.
  assert (Hex : forall text target,
             extractOverlap text target = [] <-> text = [] \/ target <= 0).
  { intros text target. split.
    - intros H. destruct text as [|c s]; [now left|right].
      destruct (Z.le_gt_cases target 0) as [Hle | Hgt]; [exact Hle|exfalso].
      assert (Ht : truthy (extractOverlap (c :: s) target) = true).
      { unfold extractOverlap. apply overlapLoop_truthy; [lia|]. right.
        split; [reflexivity|]. apply Exists_rev.
        now apply split_first_truthy. }
      now rewrite H in Ht.
    - intros [-> | Hle]; [|now apply extractOverlap_disabled].
      unfold extractOverlap. cbn. now destruct (0 <? target). }
  split; [exact Hex|].
  unfold createOverlapChunk. destruct (truthy (content prev)) eqn:Ht; cbn [negb hasOverlap].
  - specialize (Hex (content prev) (overlapTokens config)).
    destruct (extractOverlap (content prev) (overlapTokens config)) as [|x r].
    + cbn. split; [discriminate|]. intros [_ Hpos].
      destruct (proj1 Hex eq_refl) as [H | H]; [now rewrite H in Ht|lia].
    + cbn. split; [|reflexivity]. intros _. split; [reflexivity|].
      destruct (Z.le_gt_cases (overlapTokens config) 0) as [Hle | Hgt]; [|lia].
      discriminate (proj2 Hex (or_intror Hle)).
  - split; [discriminate|]. intros [H _]. discriminate.
Qed.

(** Three clauses without overlap: the chunks are the text up to white
    space. *)
Lemma smartChunk_keeps_text_witness :
  stripSpace (concat (map chunk_content plainChunks)) = stripSpace threeClauses.
Proof.
  apply (@smartChunk_keeps_text threeClauses (tinyConfig 4 0 1) plainChunks).
  - vm_compute; reflexivity.
  - vm_compute; discriminate.
  - vm_compute; discriminate.
Defined.

(** The second of the three clauses lies in one of the chunks. *)
Lemma segment_kept_whole_witness :
  exists c, In c demoChunks /\ infix (seg_content secondClause) (chunk_content c).
Proof.
  apply (@segment_kept_whole threeClauses (tinyConfig 4 2 1) demoChunks secondClause).
  - vm_compute; reflexivity.
  - vm_compute; discriminate.
  - vm_compute. right; left; reflexivity.
  - vm_compute; discriminate.
Defined.

(** The first of the chunks of the three clauses. *)
Lemma smartChunk_metadata_witness :
  let c := demoChunk 0 in
  chunkIndex (metadata c) = 0%nat
  /\ md_tokens (metadata c) = estimateTokens (chunk_content c)
  /\ (charCount (metadata c) <= length (chunk_content c))%nat
  /\ (1 < length demoChunks -> charCount (metadata c) = length (chunk_content c))%nat.
Proof.
  apply (@smartChunk_metadata threeClauses (tinyConfig 4 2 1) demoChunks 0 (demoChunk 0)).
  - vm_compute; reflexivity.
  - vm_compute; reflexivity.
Defined.

(** A text of five letters under the default configuration. *)
Lemma short_text_is_dropped_witness : smartChunk (js "hello") CHUNK_CONFIG = Ok [].
Proof.
  apply (@short_text_is_dropped (js "hello") CHUNK_CONFIG).
  - vm_compute; reflexivity.
  - vm_compute; discriminate.
Defined.

(** The second of the chunks of the three clauses. *)
Lemma prompt_context_of_chunk_witness :
  let c := demoChunk 1 in
  (md_importance (metadata c) = iHigh
   <-> existsb structural (segmentTypes (metadata c)) = true)
  /\ (getChunkPromptContext c = fullReviewNote
      <-> (forall t, In t (segmentTypes (metadata c)) -> t = tContent)
          /\ md_hasOverlap (metadata c) = false).
Proof.
  apply (@prompt_context_of_chunk threeClauses (tinyConfig 4 2 1) demoChunks (demoChunk 1)).
  - vm_compute; reflexivity.
  - vm_compute. right; left; reflexivity.
Defined.

(** The statistics of a text of five letters. *)
Lemma analyzeDocument_short_text_witness :
  exists d,
    analyzeDocument (js "hello") = Ok d
    /\ totalChars d = length (js "hello")
    /\ da_chunkCount d = 0%nat
    /\ da_chunks d = []
    /\ averageChunkTokens d = NaN.
Proof.
  apply (@analyzeDocument_short_text (js "hello")).
  vm_compute. lia.
Defined.

End ChunkerProps.

Module AiProps.
Import Eff Ai Routes AiSpec AiFacts Chunker ChunkerSpec ChunkerFacts ListFacts.
Local Open Scope eff_scope.

Section ClientMore.
Variable JSON_parse : jsstring -> result Error json.
Variable ToString : json -> jsstring.
Local Open Scope Z_scope.

Lemma attemptOnce_outcome options w :
  fst (attemptOnce JSON_parse ToString options w) = replyOutcome JSON_parse ToString options (net w (requests w))
  /\ net (snd (attemptOnce JSON_parse ToString options w)) = net w
  /\ requests (snd (attemptOnce JSON_parse ToString options w)) = S (requests w)
  /\ waits (snd (attemptOnce JSON_parse ToString options w)) = waits w.
Proof.
  unfold attemptOnce, replyOutcome, bind, axios_post, lift, ret.
  destruct (net w (requests w)) as [status data|e]; [|repeat split].
  destruct (status <? 500); [|repeat split]. cbn.
  destruct (messageContent data); [|repeat split]. cbn.
  destruct (jsonMode options); repeat split.
Qed.

Lemma backoffs_S errs attempt k :
  backoffs errs attempt (S k)
  = backoffTime (errs 0%nat) attempt
    :: backoffs (fun j => errs (S j)) (S attempt) k.
Proof.
  unfold backoffs. cbn [seq map]. rewrite Nat.add_0_r. f_equal.
  rewrite <- seq_shift, map_map. apply map_ext. intros j. f_equal. lia.
Qed.

Lemma retryLoop_first_success options k : forall attempt remaining lastError w errs v,
  (k < remaining)%nat ->
  (attempt + k <= maxRetries options)%nat ->
  (forall j, (j < k)%nat -> replyOutcome JSON_parse ToString options (net w (requests w + j)) = Throw (errs j)) ->
  replyOutcome JSON_parse ToString options (net w (requests w + k)) = Ok v ->
  let run := retryLoop JSON_parse ToString options attempt remaining lastError w in
  fst run = Ok v
  /\ net (snd run) = net w
  /\ requests (snd run) = (requests w + S k)%nat
  /\ waits (snd run) = waits w ++ backoffs errs attempt k.
Proof.
  induction k as [|k IH]; intros attempt remaining lastError w errs v Hrem Hmax Hfail Hok;
    (destruct remaining as [|remaining]; [lia|]); cbn [retryLoop]; unfold tryCatch;
    destruct (attemptOnce_outcome options w) as (Hout & Hnet & Hreq & Hwaits);
    destruct (attemptOnce JSON_parse ToString options w) as [r w1]; cbn [fst snd] in *; subst r.
  - rewrite Nat.add_0_r in Hok. rewrite Hok. cbn [fst snd].
    rewrite Hnet, Hreq, Hwaits. unfold backoffs. cbn. rewrite app_nil_r.
    repeat split; lia.
  - rewrite <- (Nat.add_0_r (requests w)), (Hfail 0%nat) by lia.
    replace (attempt <? maxRetries options)%nat with true
      by (symmetry; apply Nat.ltb_lt; lia).
    unfold bind, sleep. cbn [fst snd].
    match goal with |- context [retryLoop JSON_parse ToString options (S attempt) remaining _ ?x] =>
      set (w2 := x) end.
    destruct (IH (S attempt) remaining (Some (errs 0%nat)) w2
                (fun j => errs (S j)) v) as (H1 & H2 & H3 & H4).
    + lia.
    + lia.
    + intros j Hj. cbn [w2 net requests]. rewrite Hnet, Hreq.
      replace (S (requests w) + j)%nat with (requests w + S j)%nat by lia.
      apply Hfail. lia.
    + cbn [w2 net requests]. rewrite Hnet, Hreq.
      replace (S (requests w) + k)%nat with (requests w + S k)%nat by lia.
      exact Hok.
    + cbn zeta. rewrite H1, H2, H3, H4. cbn [w2 net requests waits].
      rewrite Hnet, Hreq, Hwaits, backoffs_S, <- app_assoc.
      repeat split; try reflexivity; lia.
Qed.

(** [callAI] returns the reply of the first attempt that succeeds: after
    [k] failed attempts it has sent [k + 1] requests and has waited after
    each failure. *)
Theorem callAI_first_success (options : Options) (w : World) (k : nat)
    (errs : nat -> Error) (v : json) :
  (k < maxRetries options)%nat ->
  (forall j, (j < k)%nat -> replyOutcome JSON_parse ToString options (net w (requests w + j)) = Throw (errs j)) ->
  replyOutcome JSON_parse ToString options (net w (requests w + k)) = Ok v ->
  let run := callAI JSON_parse ToString options w in
  fst run = Ok v
  /\ requests (snd run) = (requests w + S k)%nat
  /\ waits (snd run) = waits w ++ backoffs errs 1 k.
Proof.
  intros Hk Hfail Hok run. unfold run, callAI.
  destruct (@retryLoop_first_success options k 1%nat (maxRetries options) None w errs v)
    as (H1 & _ & H3 & H4); auto; lia.
Qed.

Lemma retryLoop_step options attempt remaining lastError :
  retryLoop JSON_parse ToString options attempt (S remaining) lastError
  = tryCatch (attemptOnce JSON_parse ToString options)
      (fun error =>
         if (attempt <? maxRetries options)%nat then
           sleep (backoffTime error attempt) ;;;
           retryLoop JSON_parse ToString options (S attempt) remaining (Some error)
         else if isNetworkError error then throw networkUnstable
         else retryLoop JSON_parse ToString options (S attempt) remaining (Some error)).
Proof. reflexivity. Qed.

Lemma retryLoop_all_fail options remaining : forall attempt lastError w errs,
  (attempt + remaining = maxRetries options)%nat ->
  (forall j, (j <= remaining)%nat ->
             replyOutcome JSON_parse ToString options (net w (requests w + j)) = Throw (errs j)) ->
  let run := retryLoop JSON_parse ToString options attempt (S remaining) lastError w in
  fst run = Throw (if isNetworkError (errs remaining) then networkUnstable
                   else errs remaining)
  /\ requests (snd run) = (requests w + S remaining)%nat
  /\ waits (snd run) = waits w ++ backoffs errs attempt remaining.
Proof.
  induction remaining as [|remaining IH]; intros attempt lastError w errs Hsum Hfail;
    rewrite retryLoop_step; unfold tryCatch;
    destruct (attemptOnce_outcome options w) as (Hout & Hnet & Hreq & Hwaits);
    destruct (attemptOnce JSON_parse ToString options w) as [r w1]; cbn [fst snd] in *; subst r;
    rewrite <- (Nat.add_0_r (requests w)), (Hfail 0%nat) by lia.
  - replace (attempt <? maxRetries options)%nat with false
      by (symmetry; apply Nat.ltb_ge; lia).
    unfold backoffs. cbn [seq map]. rewrite app_nil_r.
    destruct (isNetworkError (errs 0%nat)); cbn; rewrite Hreq, Hwaits;
      repeat split; lia.
  - replace (attempt <? maxRetries options)%nat with true
      by (symmetry; apply Nat.ltb_lt; lia).
    unfold bind, sleep. cbn [fst snd].
    match goal with |- context [retryLoop JSON_parse ToString options (S attempt) _ _ ?x] =>
      set (w2 := x) end.
    destruct (IH (S attempt) (Some (errs 0%nat)) w2 (fun j => errs (S j)))
      as (H1 & H3 & H4).
    + lia.
    + intros j Hj. cbn [w2 net requests]. rewrite Hnet, Hreq.
      replace (S (requests w) + j)%nat with (requests w + S j)%nat by lia.
      apply Hfail. lia.
    + cbn zeta in *. rewrite H1, H3, H4. cbn [w2 net requests waits].
      rewrite Hreq, Hwaits, backoffs_S, <- app_assoc.
      repeat split; try reflexivity; lia.
Qed.

(** When every attempt fails, [callAI] throws after [maxRetries] requests:
    the last error, or the message about an unstable network in its place
    when the last error is a network error. *)
Theorem callAI_all_fail (options : Options) (w : World) (errs : nat -> Error) :
  (0 < maxRetries options)%nat ->
  (forall j, (j < maxRetries options)%nat ->
             replyOutcome JSON_parse ToString options (net w (requests w + j)) = Throw (errs j)) ->
  let run := callAI JSON_parse ToString options w in
  let lastError := errs (maxRetries options - 1)%nat in
  fst run = Throw (if isNetworkError lastError then networkUnstable else lastError)
  /\ requests (snd run) = (requests w + maxRetries options)%nat
  /\ waits (snd run) = waits w ++ backoffs errs 1 (maxRetries options - 1).
Proof.
  intros Hpos Hfail run lastError. unfold run, lastError, callAI.
  destruct (maxRetries options) as [|n] eqn:Hn; [lia|].
  replace (S n - 1)%nat with n by lia.
  destruct (@retryLoop_all_fail options n 1%nat None w errs) as (H1 & H3 & H4).
  - lia.
  - intros j Hj. apply Hfail. lia.
  - cbn zeta in *. rewrite H1, H3, H4. repeat split.
Qed.

(** Every wait of the loop is the back-off of the error of the attempt
    that failed before it. *)
Lemma retryLoop_waits options remaining : forall attempt lastError w,
  (attempt + remaining = S (maxRetries options))%nat ->
  exists added,
    waits (snd (retryLoop JSON_parse ToString options attempt remaining lastError w))
    = waits w ++ added
    /\ (forall i ms, nth_error added i = Some ms ->
        exists error,
          replyOutcome JSON_parse ToString options (net w (requests w + i))
          = Throw error
          /\ ms = backoffTime error (attempt + i)).
Proof.
  induction remaining as [|remaining IH]; intros attempt lastError w Hsum.
  - exists []. rewrite app_nil_r. split.
    + cbn [retryLoop]. destruct lastError; reflexivity.
    + intros [|i] ms H; discriminate.
  - rewrite retryLoop_step. unfold tryCatch.
    destruct (attemptOnce_outcome options w)
      as (Hout & Hnet & Hreq & Hwaits).
    destruct (attemptOnce JSON_parse ToString options w) as [r w1];
      cbn [fst snd] in *; subst r.
    destruct (replyOutcome JSON_parse ToString options (net w (requests w)))
      as [v|error] eqn:Hfirst.
    + exists []. rewrite app_nil_r. cbn [snd]. split; [exact Hwaits|].
      intros [|i] ms H; discriminate.
    + destruct (attempt <? maxRetries options)%nat eqn:Hlt.
      * unfold bind, sleep. cbn [fst snd].
        match goal with |- context [retryLoop JSON_parse ToString options (S attempt) _ _ ?x] =>
          set (w2 := x) end.
        destruct (IH (S attempt) (Some error) w2 ltac:(lia)) as (added & Hw & Hall).
        exists (backoffTime error attempt :: added). split.
        -- rewrite Hw. cbn [w2 waits]. rewrite Hwaits, <- app_assoc. reflexivity.
        -- intros [|i] ms H; cbn [nth_error] in H.
           ++ inversion H; subst. exists error.
              rewrite !Nat.add_0_r. split; [exact Hfirst|reflexivity].
           ++ destruct (Hall i ms H) as (e & He & Hms). exists e.
              cbn [w2 net requests] in He. rewrite Hnet, Hreq in He.
              replace (requests w + S i)%nat with (S (requests w) + i)%nat by lia.
              split; [exact He|]. rewrite Hms. f_equal. lia.
      * exists []. rewrite app_nil_r. split.
        -- destruct (isNetworkError error); [exact Hwaits|].
           apply Nat.ltb_ge in Hlt.
           destruct remaining as [|remaining]; [|lia].
           cbn [retryLoop throw snd]. exact Hwaits.
        -- intros [|i] ms H; discriminate.
Qed.

(** The retry policy of [callAI]: at most [maxRetries] requests, one more
    than the waits; the wait after the failed attempt number [k] is
    [2^k * 3000] milliseconds when the error of that attempt is classified
    as a network error and [2^k * 1000] milliseconds otherwise. *)
Theorem callAI_retry_policy options w :
  let w' := snd (callAI JSON_parse ToString options w) in
  exists added,
    waits w' = waits w ++ added
    /\ (requests w' <= requests w + maxRetries options)%nat
    /\ (maxRetries options <> 0%nat ->
        requests w' = requests w + S (length added))%nat
    /\ (forall i ms, nth_error added i = Some ms ->
        exists error,
          replyOutcome JSON_parse ToString options (net w (requests w + i))
          = Throw error
          /\ ms = 2 ^ Z.of_nat (S i)
                  * (if isNetworkError error then 3000 else 1000)).
Proof.
  cbn zeta. unfold callAI.
  destruct (@retryLoop_policy JSON_parse ToString options (maxRetries options)
              1%nat None w ltac:(lia)) as (added & Hw & Hr & Hlen & _).
  destruct (retryLoop_waits options (maxRetries options) 1%nat None w ltac:(lia))
    as (added' & Hw' & Hall).
  assert (added' = added) by (rewrite Hw in Hw'; now apply app_inv_head in Hw').
  subst added'. exists added. split; [exact Hw|]. split; [|split].
  - rewrite Hr. destruct (maxRetries options); lia.
  - intros Hpos. rewrite Hr. destruct (maxRetries options); [congruence|reflexivity].
  - intros i ms H. destruct (Hall i ms H) as (error & He & Hms).
    exists error. split; [exact He|]. rewrite Hms. unfold backoffTime.
    cbn [Nat.add]. destruct (isNetworkError error); reflexivity.
Qed.

End ClientMore.

Lemma dropWhile_idem {A} (p : A -> bool) l : dropWhile p (dropWhile p l) = dropWhile p l.
Proof.
  induction l as [|x l IH]; [reflexivity|]. cbn [dropWhile].
  destruct (p x) eqn:Hx; [exact IH|]. cbn [dropWhile]. now rewrite Hx.
Qed.

Lemma trim_idem s : trim (trim s) = trim s.
Proof.
  unfold trim.
  destruct (dropWhile isSpace s) as [|x r] eqn:Hd.
  - reflexivity.
  - pose proof (@dropWhile_head _ isSpace _ _ _ Hd) as Hx.
    cbn [rev]. rewrite (@dropWhile_snoc _ isSpace (rev r) x Hx).
    rewrite rev_app_distr. cbn [rev app dropWhile]. rewrite Hx.
    cbn [rev]. rewrite rev_involutive.
    rewrite (@dropWhile_snoc _ isSpace _ x Hx), dropWhile_idem.
    rewrite rev_app_distr. reflexivity.
Qed.

Section MapFacts.
Variable JSON_parse : jsstring -> result Error json.
Variable ToString : json -> jsstring.
Variable ToNumber : json -> number.

Lemma trimV_trimmed v s : trimV v = Ok s -> trim s = s.
Proof.
  destruct v; try discriminate. intros H; inversion H; subst. apply trim_idem.
Qed.

Lemma validatedRisk_quoted r cr : validatedRisk r = Ok (Some cr) -> quotedRisk cr.
Proof.
  unfold validatedRisk, bindR.
  destruct (getProp r "clause") as [cl|]; [|discriminate].
  destruct (trimV (orElse cl (JStr []))) as [clause|] eqn:Hc; [|discriminate].
  destruct (getProp r "description") as [de|]; [|discriminate].
  destruct (trimV (orElse de (JStr []))) as [description|]; [|discriminate].
  destruct (length clause <? 10)%nat eqn:Hlen; [discriminate|].
  destruct (getProp r "level"); [|discriminate].
  destruct (getProp r "title"); [|discriminate].
  destruct (getProp r "legalBasis"); [|discriminate].
  intros H; inversion H; subst; clear H. unfold quotedRisk. cbn.
  apply Nat.ltb_ge in Hlen. split; [exact Hlen|].
  split; [exact (trimV_trimmed _ Hc)|].
  destruct (truthy description) eqn:Ht; [exact Ht|reflexivity].
Qed.

Lemma mapR_validated items : forall validated,
  mapR validatedRisk items = Ok validated -> Forall quotedRisk (dropNull validated).
Proof.
  induction items as [|r items IH]; intros validated H; cbn [mapR] in H.
  - inversion H; subst. constructor.
  - unfold bindR in H.
    destruct (validatedRisk r) as [o|] eqn:Hr; [|discriminate].
    destruct (mapR validatedRisk items) as [rest|]; [|discriminate].
    inversion H; subst; clear H.
    destruct o as [cr|]; cbn [dropNull]; [constructor|]; auto.
    now apply validatedRisk_quoted with r.
Qed.

Lemma clampScore_in_range v : scoreInRange (clampScore ToNumber v).
Proof.
  unfold clampScore, scoreInRange.
  destruct (match v with JNum n => n | _ => ToNumber v end) as [q|]; [|exact I].
  split.
  - apply Qminmax.Q.le_max_l.
  - apply Qminmax.Q.max_lub; [discriminate|apply Qminmax.Q.le_min_l].
Qed.

Lemma chunkResultOf_quality reply r :
  chunkResultOf ToNumber reply = Ok r ->
  Forall quotedRisk (risks r) /\ scoreInRange (score r).
Proof.
  unfold chunkResultOf, bindR.
  destruct (_ || _); [discriminate|].
  destruct (getProp reply "risks") as [rs|]; [|discriminate].
  destruct (orElse rs (JArr [])); try discriminate.
  destruct (mapR validatedRisk items) as [validated|] eqn:Hm; [|discriminate].
  destruct (getProp reply "score"); [|discriminate].
  destruct (getProp reply "summary"); [|discriminate].
  destruct (getProp reply "keyTerms"); [|discriminate].
  destruct (getProp reply "suggestions"); [|discriminate].
  intros H; inversion H; subst; clear H. cbn [risks score].
  split; [now apply (@mapR_validated items)|apply clampScore_in_range].
Qed.

Lemma callAI_requests options w :
  (requests (snd (callAI JSON_parse ToString options w))
   <= requests w + maxRetries options)%nat.
Proof.
  unfold callAI.
  destruct (maxRetries options) as [|n] eqn:Hn.
  - cbn. lia.
  - destruct (@retryLoop_policy JSON_parse ToString options (S n) 1%nat None w)
      as (added & _ & Hreq & Hlen & _); [lia|].
    rewrite Hreq. lia.
Qed.

(** [analyzeChunk] always resolves.  Every risk of its result quotes a
    clause of at least ten code units, without white space around it, and
    has a description; its score is NaN or lies between 0 and 100; it sends
    at most two requests, and none for a content of white space only. *)
Theorem analyzeChunk_result (chunkContent : jsstring) (w : World) :
  exists r w',
    analyzeChunk JSON_parse ToString ToNumber chunkContent w = (Ok r, w')
    /\ Forall quotedRisk (risks r)
    /\ scoreInRange (score r)
    /\ (requests w' <= requests w + 2)%nat
    /\ (truthy (trim chunkContent) = false -> r = emptyContentResult /\ w' = w).
Proof.
  unfold analyzeChunk.
  destruct (negb (truthy chunkContent) || (length (trim chunkContent) =? 0)%nat)
    eqn:Hguard.
  - exists emptyContentResult, w.
    split; [reflexivity|]. split; [constructor|].
    split; [cbn; split; discriminate|]. split; [lia|]. auto.
  - apply orb_false_elim in Hguard as [_ Hlen].
    assert (Ht : truthy (trim chunkContent) = true)
      by (destruct (trim chunkContent); [discriminate|reflexivity]).
    unfold tryCatch, bind, lift, ret.
    pose proof (callAI_requests chunkOptions w) as Hreq. cbn [chunkOptions maxRetries] in Hreq.
    destruct (callAI JSON_parse ToString chunkOptions w) as [[reply|e] w1];
      cbn [snd] in Hreq.
    + destruct (chunkResultOf ToNumber reply) as [r|e] eqn:Hr.
      * destruct (chunkResultOf_quality _ Hr) as [Hq Hs].
        exists r, w1. repeat split; auto; congruence.
      * exists skippedResult, w1.
        split; [reflexivity|]. split; [constructor|].
        split; [cbn; split; discriminate|]. split; [exact Hreq|]. congruence.
    + exists skippedResult, w1.
      split; [reflexivity|]. split; [constructor|].
      split; [cbn; split; discriminate|]. split; [exact Hreq|]. congruence.
Qed.

End MapFacts.

Section ReduceMore.
Variable JSON_parse : jsstring -> result Error json.
Variable ToString : json -> jsstring.
Variable ToNumber : json -> number.

Lemma mapR_ok {A} (f : A -> result Error unit) l :
  Forall (fun x => f x = Ok tt) l -> exists us, mapR f l = Ok us.
Proof.
  induction 1 as [|x l Hx Hl (us & IH)]; cbn [mapR]; [now eexists|].
  rewrite Hx, IH. cbn [bindR]. now eexists.
Qed.

Lemma mapR_throws {A} (f : A -> result Error unit) l :
  Exists (fun x => exists e, f x = Throw e) l -> exists e, mapR f l = Throw e.
Proof.
  induction 1 as [x l (e & Hx)|x l Hl (e & IH)]; cbn [mapR].
  - rewrite Hx. now exists e.
  - destruct (f x) as [u|e']; [|now exists e'].
    rewrite IH. now exists e.
Qed.

Lemma convertible_array items :
  convertible (JArr items) = forallb convertible items.
Proof.
  cbn [convertible]. induction items as [|x items IH]; [reflexivity|].
  cbn [forallb]. now rewrite IH.
Qed.

Lemma checkConvertible_ok v : convertible v = true -> checkConvertible v = Ok tt.
Proof. unfold checkConvertible. now intros ->. Qed.

Lemma convertible_orElse v d :
  convertible v = true -> convertible d = true -> convertible (orElse v d) = true.
Proof. unfold orElse. now destruct (truthyV v). Qed.

Lemma In_firstn {A} n (l : list A) x : In x (firstn n l) -> In x l.
Proof.
  intros H. rewrite <- (firstn_skipn n l). apply in_or_app. now left.
Qed.

Lemma buildPrompt_ok chunkResults :
  Forall (fun r => arrayOrAbsent (keyTerms r) /\ printable r) chunkResults ->
  buildPrompt chunkResults = Ok tt.
Proof.
  intros H. rewrite Forall_forall in H. unfold buildPrompt.
  destruct (@mapR_ok _ checkSummaryLine chunkResults) as (us1 & ->).
  { rewrite Forall_forall. intros r Hin.
    destruct (H r Hin) as (Hk & Hs & Hc & _). unfold checkSummaryLine.
    rewrite (checkConvertible_ok _ Hs). cbn [bindR]. unfold checkJoin.
    destruct (keyTerms r); try contradiction; try reflexivity.
    now apply checkConvertible_ok. }
  destruct (@mapR_ok _ checkRiskLine (firstn 80 (allChunkRisks chunkResults)))
    as (us2 & ->).
  { rewrite Forall_forall. intros k Hin. apply In_firstn in Hin.
    unfold allChunkRisks in Hin. apply in_flat_map in Hin as (r & Hr & Hin).
    destruct (H r Hr) as (_ & _ & _ & _ & Hrisks).
    rewrite Forall_forall in Hrisks. destruct (Hrisks k Hin) as (Ht & Hl).
    unfold checkRiskLine.
    rewrite checkConvertible_ok by (now apply convertible_orElse).
    cbn [bindR]. destruct (truthyV (cr_legalBasis k)); [|reflexivity].
    now apply checkConvertible_ok. }
  destruct (@mapR_ok _ checkSuggestions chunkResults) as (us3 & ->);
    [|reflexivity].
  rewrite Forall_forall. intros r Hin.
  destruct (H r Hin) as (_ & _ & _ & Hg & _).
  now apply checkConvertible_ok.
Qed.

Lemma buildPrompt_throws chunkResults :
  Exists unprintable chunkResults ->
  exists e, buildPrompt chunkResults = Throw e.
Proof.
  intros H. unfold buildPrompt.
  apply Exists_exists in H as (r & Hin & Hr).
  destruct (mapR checkSummaryLine chunkResults) as [us1|e1] eqn:H1;
    [|now exists e1].
  cbn [bindR].
  destruct (mapR checkRiskLine _) as [us2|e2]; [|now exists e2].
  cbn [bindR].
  assert (Hline : checkSummaryLine r = Ok tt).
  { clear -H1 Hin. revert us1 H1.
    induction chunkResults as [|x l IH]; intros us1 H1; [contradiction|].
    cbn [mapR] in H1. destruct (checkSummaryLine x) as [[]|] eqn:Hx;
      [|discriminate].
    cbn [bindR] in H1. destruct (mapR checkSummaryLine l) as [us|] eqn:Hl;
      [|discriminate].
    destruct Hin as [<-|Hin]; [exact Hx|]. now apply (IH Hin us). }
  unfold checkSummaryLine, checkConvertible in Hline.
  destruct (convertible (summary r)) eqn:Hs; [|discriminate].
  cbn [bindR] in Hline. unfold checkJoin, checkConvertible in Hline.
  assert (Hg : convertible (suggestions r) = false).
  { destruct Hr as [Hr | [Hr | [Hr | Hr]]]; [| congruence | | exact Hr].
    - exfalso. apply Hr. destruct (keyTerms r); cbn; auto; discriminate.
    - destruct (keyTerms r); try discriminate. rewrite Hr in Hline.
      discriminate. }
  destruct (@mapR_throws _ checkSuggestions chunkResults) as (e & ->);
    [|now exists e].
  apply Exists_exists. exists r. split; [exact Hin|].
  unfold checkSuggestions, checkConvertible. rewrite Hg. now eexists.
Qed.

Lemma checkSummaries_ok chunkResults :
  Forall (fun r => textOrAbsent (summary r)) chunkResults ->
  checkSummaries chunkResults = Ok tt.
Proof.
  intros H. unfold checkSummaries.
  replace (existsb (fun r => summaryFilterThrows (summary r)) chunkResults) with false;
    [reflexivity|].
  symmetry. apply not_true_is_false. rewrite existsb_exists.
  intros (r & Hin & Hr). rewrite Forall_forall in H. specialize (H r Hin).
  unfold summaryFilterThrows in Hr. apply andb_prop in Hr as [Ht Hk].
  destruct H as [H | H]; [congruence|].
  destruct (summary r); try contradiction; discriminate.
Qed.

Lemma degradedReport_ok chunkResults :
  Forall (fun r => textOrAbsent (summary r) /\ printable r) chunkResults ->
  exists report, degradedReport ToString chunkResults = Ok report.
Proof.
  intros H. unfold degradedReport.
  destruct (@mapR_ok _ (fun risk => checkConvertible (title risk))
              (map chunkRiskRaw (allChunkRisks chunkResults))) as (us & ->).
  { rewrite Forall_forall in *. intros risk Hin.
    apply in_map_iff in Hin as (k & <- & Hin).
    unfold allChunkRisks in Hin. apply in_flat_map in Hin as (r & Hr & Hin).
    destruct (H r Hr) as (_ & _ & _ & _ & Hrisks).
    rewrite Forall_forall in Hrisks. destruct (Hrisks k Hin) as (Ht & _).
    apply checkConvertible_ok. cbn [chunkRiskRaw title].
    now apply convertible_orElse. }
  cbn [bindR].
  rewrite checkSummaries_ok
    by (eapply Forall_impl; [|exact H]; intros r [Hs _]; exact Hs).
  cbn [bindR]. unfold checkSummaryJoin.
  rewrite checkConvertible_ok; [cbn [bindR]; now eexists|].
  rewrite convertible_array. apply forallb_forall. intros v Hv.
  apply In_firstn in Hv. apply filter_In in Hv as [Hv _].
  apply in_map_iff in Hv as (r & <- & Hr).
  rewrite Forall_forall in H. now destruct (H r Hr) as (_ & Hs & _).
Qed.


Lemma scoreOr50_range n : scoreInRange n -> (0 <= scoreOr50 n /\ scoreOr50 n <= 100)%Q.
Proof.
  destruct n as [q|]; cbn; [|split; discriminate].
  intros H. destruct (Qeq_bool q 0); [split; discriminate|exact H].
Qed.

Lemma sum_range chunkResults : forall acc,
  Forall (fun r => scoreInRange (score r)) chunkResults ->
  (acc <= fold_left (fun sum r => sum + scoreOr50 (score r)) chunkResults acc
   /\ fold_left (fun sum r => sum + scoreOr50 (score r)) chunkResults acc
      <= acc + 100 * inject_Z (Z.of_nat (length chunkResults)))%Q.
Proof.
  induction chunkResults as [|r l IH]; intros acc H; cbn [fold_left length].
  - split; [apply Qle_refl|]. cbn. rewrite Qmult_0_r, Qplus_0_r. apply Qle_refl.
  - inversion H; subst.
    destruct (@scoreOr50_range _ H2) as [Hlo Hhi].
    destruct (IH (acc + scoreOr50 (score r))%Q H3) as [IH1 IH2].
    split.
    + eapply Qle_trans; [|exact IH1].
      rewrite <- (Qplus_0_r acc) at 1. apply Qplus_le_r. exact Hlo.
    + eapply Qle_trans; [exact IH2|].
      rewrite Nat2Z.inj_succ, <- Z.add_1_r, inject_Z_plus.
      rewrite Qmult_plus_distr_r. change (inject_Z 1) with 1%Q. rewrite Qmult_1_r.
      rewrite <- Qplus_assoc. apply Qplus_le_r.
      rewrite (Qplus_comm (100 * _)). apply Qplus_le_l. exact Hhi.
Qed.

Lemma avgScore_range chunkResults :
  Forall (fun r => scoreInRange (score r)) chunkResults ->
  scoreInRange (avgScore chunkResults).
Proof.
  intros H. unfold avgScore. destruct chunkResults as [|r l]; [exact I|].
  set (rs := r :: l) in *.
  set (n := inject_Z (Z.of_nat (length rs))).
  assert (Hn : (0 < n)%Q).
  { unfold n, rs. cbn [length]. rewrite <- (Zlt_Qlt 0). lia. }
  destruct (@sum_range _ 0 H) as [Hlo Hhi]. fold n in Hhi.
  set (sum := fold_left _ rs 0%Q) in *.
  rewrite Qplus_0_l in Hhi.
  assert (H0 : (0 <= sum / n)%Q).
  { apply Qle_shift_div_l; [exact Hn|]. now rewrite Qmult_0_l. }
  assert (H100 : (sum / n <= 100)%Q) by (apply Qle_shift_div_r; assumption).
  cbn [scoreInRange]. split.
  - rewrite <- (Zle_Qle 0). change 0%Z with (Qfloor 0).
    apply Qfloor_resp_le.
    eapply Qle_trans; [exact H0|].
    rewrite <- (Qplus_0_r (sum / n)) at 1. apply Qplus_le_r. discriminate.
  - change 100%Q with (inject_Z 100). rewrite <- Zle_Qle.
    assert (Hlt : (inject_Z (Qfloor (sum / n + (1 # 2))) < inject_Z 101)%Q).
    { eapply Qle_lt_trans; [apply Qfloor_le|].
      eapply Qle_lt_trans; [apply Qplus_le_l; exact H100|]. reflexivity. }
    rewrite <- Zlt_Qlt in Hlt. lia.
Qed.

(** The score of every report of the reduce step is NaN or lies between 0
    and 100, for chunk results whose scores are. *)
Theorem report_score_in_range (chunkResults : list ChunkResult) (w w' : World)
    (report : Report) :
  Forall (fun r => scoreInRange (score r)) chunkResults ->
  reduceSync JSON_parse ToString ToNumber chunkResults w = (Ok report, w') ->
  scoreInRange (rp_score report).
Proof.
  intros Hscores Hrun.
  destruct (reduceSync_cases _ _ _ _ _ Hrun) as [(reply & Hs) | [Hd | [Hd | ->]]].
  - unfold successReport, bindR in Hs.
    destruct (getProp reply "score"); [|discriminate].
    destruct (getProp reply "riskLevel"); [|discriminate].
    destruct (reportRisks ToString reply chunkResults); [|discriminate].
    destruct (getProp reply "signRecommendation"); [|discriminate].
    inversion Hs; subst. apply clampScore_in_range.
  - apply degradedReport_risks in Hd as (_ & -> & _).
    now apply avgScore_range.
  - apply routeDegradedReport_fields in Hd as (_ & -> & _).
    now apply avgScore_range.
  - cbn. split; discriminate.
Qed.

End ReduceMore.

Section ParseFacts.
Variable JSON_parse : jsstring -> result Error json.
Variable ToString : json -> jsstring.

Lemma dropWhile_all {A} (p : A -> bool) pre x r :
  forallb p pre = true -> p x = false -> dropWhile p (pre ++ x :: r) = x :: r.
Proof.
  intros Hpre Hx. induction pre as [|a pre IH]; cbn in *.
  - now rewrite Hx.
  - apply andb_prop in Hpre as [Ha Hpre]. rewrite Ha. now apply IH.
Qed.

Lemma dropWhile_none {A} (p : A -> bool) s :
  forallb p s = true -> dropWhile p s = [].
Proof.
  induction s as [|a s IH]; cbn; [reflexivity|].
  intros H. apply andb_prop in H as [Ha Hs]. rewrite Ha. now apply IH.
Qed.

Lemma forallb_rev {A} (p : A -> bool) s : forallb p (rev s) = forallb p s.
Proof.
  induction s as [|a s IH]; [reflexivity|].
  cbn [rev]. rewrite forallb_app, IH. cbn. rewrite andb_true_r. apply andb_comm.
Qed.

Lemma braceSpan_fenced pre mid post :
  without openBrace pre -> without closeBrace post ->
  braceSpan (pre ++ [openBrace] ++ mid ++ [closeBrace] ++ post)
  = Some ([openBrace] ++ mid ++ [closeBrace]).
Proof.
  unfold without, openBrace, closeBrace. intros Hpre Hpost.
  unfold braceSpan. cbn [app].
  rewrite (@dropWhile_all _ _ pre 0x7B%N (mid ++ 0x7D%N :: post) Hpre eq_refl).
  cbn [rev]. rewrite rev_app_distr. cbn [rev]. rewrite <- !app_assoc. cbn [app].
  rewrite dropWhile_all; [|now rewrite forallb_rev|reflexivity].
  cbn [rev]. rewrite rev_app_distr, rev_involutive. reflexivity.
Qed.

Lemma braceSpan_none s : without openBrace s -> braceSpan s = None.
Proof.
  intros H. unfold braceSpan. now rewrite dropWhile_none.
Qed.

(** The fallback of [callAI] for a reply that is no JSON as a whole: the
    text from the first opening brace to the last closing brace is parsed
    in its place, and a reply without an opening brace is refused. *)
Theorem parseContent_extracts (pre mid post : jsstring) (e : Error) :
  let body := [openBrace] ++ mid ++ [closeBrace] in
  (without openBrace pre -> without closeBrace post ->
   JSON_parse (pre ++ body ++ post) = Throw e ->
   parseContent JSON_parse ToString (JStr (pre ++ body ++ post)) = JSON_parse body)
  /\ (forall s,
        without openBrace s -> JSON_parse s = Throw e ->
        parseContent JSON_parse ToString (JStr s)
        = Throw {| err_code := None;
                   err_message := Some (js "Failed to parse JSON response") |})
  /\ (forall s v,
        JSON_parse s = Ok v -> parseContent JSON_parse ToString (JStr s) = Ok v).
Proof.
  intros body. split; [|split].
  - intros Hpre Hpost Hfail. unfold parseContent. rewrite Hfail.
    unfold body. rewrite <- !app_assoc.
    now rewrite (braceSpan_fenced mid Hpre Hpost).
  - intros s Hs Hfail. unfold parseContent. rewrite Hfail.
    now rewrite braceSpan_none.
  - intros s v Hok. unfold parseContent. now rewrite Hok.
Qed.

End ParseFacts.

Lemma afterRequests_0 w : afterRequests w 0 0 = w.
Proof.
  unfold afterRequests. cbn [repeat]. rewrite app_nil_r, Nat.add_0_r.
  now destruct w.
Qed.

Lemma afterRequests_step w sent paused :
  afterRequests (afterRequests w 1 1) sent paused
  = afterRequests w (S sent) (S paused).
Proof.
  unfold afterRequests. cbn [net requests waits insertError inserts table now].
  f_equal; [lia|]. rewrite <- app_assoc. reflexivity.
Qed.

(** One turn of the loop. *)
Lemma batchLoop_turn batch rest results w :
  batchLoop (batch :: rest) results w
  = match batchOutcome (net w (requests w)) with
    | Throw e => (Throw e, afterRequests w 1 0)
    | Ok more =>
      match rest with
      | [] => (Ok (results ++ more), afterRequests w 1 0)
      | _ :: _ => batchLoop rest (results ++ more) (afterRequests w 1 1)
      end
    end.
Proof.
  cbn [batchLoop]. unfold bind at 1. unfold axios_post, batchOutcome.
  assert (H1 : afterRequests w 1 0
               = {| net := net w; requests := S (requests w); waits := waits w;
                    insertError := insertError w; inserts := inserts w;
                    table := table w; now := now w |}).
  { unfold afterRequests. cbn [repeat]. rewrite app_nil_r. f_equal. lia. }
  assert (H2 : afterRequests w 1 1
               = {| net := net w; requests := S (requests w);
                    waits := waits w ++ [200%Z];
                    insertError := insertError w; inserts := inserts w;
                    table := table w; now := now w |}).
  { unfold afterRequests. cbn [repeat]. f_equal. lia. }
  rewrite H1, H2.
  destruct (net w (requests w)) as [status data|e]; [|reflexivity].
  destruct (defaultValidateStatus status); [|reflexivity].
  unfold bind at 1.
  destruct (truthyV (embeddingsOf data)).
  - unfold bind at 1, lift at 1.
    destruct (embeddingsMap (embeddingsOf data)) as [more|e]; [|reflexivity].
    unfold ret at 1. unfold bind at 1.
    destruct rest; [reflexivity|]. unfold sleep at 1. reflexivity.
  - unfold ret at 1. unfold bind at 1. rewrite app_nil_r.
    destruct rest; [reflexivity|]. unfold sleep at 1. reflexivity.
Qed.

Lemma batchLoop_fails : forall batches results w k e more,
  (k < length batches)%nat ->
  (forall j, (j < k)%nat -> batchOutcome (net w (requests w + j)) = Ok (more j)) ->
  batchOutcome (net w (requests w + k)) = Throw e ->
  batchLoop batches results w = (Throw e, afterRequests w (S k) k).
Proof.
  induction batches as [|batch rest IH]; intros results w k e more Hk Hok Hfail;
    [cbn in Hk; lia|].
  rewrite batchLoop_turn. destruct k as [|k].
  - rewrite Nat.add_0_r in Hfail. now rewrite Hfail.
  - rewrite <- (Nat.add_0_r (requests w)), (Hok 0%nat) by lia.
    destruct rest as [|batch' rest']; [cbn in Hk; lia|].
    rewrite (IH _ (afterRequests w 1 1) k e (fun j => more (S j))).
    + now rewrite afterRequests_step.
    + cbn [length] in *. lia.
    + intros j Hj. cbn [afterRequests net requests].
      replace (requests w + 1 + j)%nat with (requests w + S j)%nat by lia.
      apply Hok. lia.
    + cbn [afterRequests net requests].
      now replace (requests w + 1 + k)%nat with (requests w + S k)%nat by lia.
Qed.

Lemma batchLoop_succeeds : forall batches results w more,
  (forall j, (j < length batches)%nat ->
             batchOutcome (net w (requests w + j)) = Ok (more j)) ->
  batchLoop batches results w
  = (Ok (results ++ concat (map more (seq 0 (length batches)))),
     afterRequests w (length batches) (length batches - 1)).
Proof.
  induction batches as [|batch rest IH]; intros results w more Hok.
  - cbn. now rewrite app_nil_r, afterRequests_0.
  - rewrite batchLoop_turn.
    rewrite <- (Nat.add_0_r (requests w)), (Hok 0%nat) by (cbn; lia).
    destruct rest as [|batch' rest'].
    + cbn. now rewrite app_nil_r.
    + rewrite (IH _ (afterRequests w 1 1) (fun j => more (S j))).
      * rewrite afterRequests_step.
        change (length (batch :: batch' :: rest'))
          with (S (length (batch' :: rest'))).
        assert (Hn : (0 < length (batch' :: rest'))%nat) by (cbn; lia).
        revert Hn. generalize (length (batch' :: rest')). intros n Hn.
        cbn [seq map concat]. rewrite <- seq_shift, map_map, <- app_assoc.
        replace (S n - 1)%nat with (S (n - 1)) by lia.
        reflexivity.
      * intros j Hj. cbn [afterRequests net requests].
        replace (requests w + 1 + j)%nat with (requests w + S j)%nat by lia.
        apply Hok. cbn [length] in *. lia.
Qed.

(** [getBatchEmbeddings] sends one request for every ten texts, in order,
    and pauses 200 ms between two requests.  It stops at the first request
    that fails: when the requests before number [k] succeed and that one
    fails, it rejects with the error of that request after [k + 1]
    requests and [k] pauses.  When they all succeed it resolves with the
    embeddings of the answers, one after the other, after one request for
    each batch and no pause after the last. *)
Theorem getBatchEmbeddings_requests (texts : list jsstring) (w : World) :
  let batches := ((length texts + 9) / 10)%nat in
  (forall k e more,
      (k < batches)%nat ->
      (forall j, (j < k)%nat ->
                 batchOutcome (net w (requests w + j)) = Ok (more j)) ->
      batchOutcome (net w (requests w + k)) = Throw e ->
      getBatchEmbeddings texts w = (Throw e, afterRequests w (S k) k))
  /\ (forall more,
        (forall j, (j < batches)%nat ->
                   batchOutcome (net w (requests w + j)) = Ok (more j)) ->
        getBatchEmbeddings texts w
        = (Ok (concat (map more (seq 0 batches))),
           afterRequests w batches (batches - 1))).
Proof.
  cbn zeta.
  assert (Hcount : length (slices 10 texts) = ((length texts + 9) / 10)%nat).
  { unfold slices. rewrite (@slicesFrom_count _ 10) by lia. reflexivity. }
  rewrite <- Hcount. unfold getBatchEmbeddings, tryCatch. split.
  - intros k e more Hk Hok Hfail.
    now rewrite (batchLoop_fails (slices 10 texts) [] w more Hk Hok Hfail).
  - intros more Hok.
    now rewrite (batchLoop_succeeds (slices 10 texts) [] w more Hok).
Qed.

(** The connection is reset once, the second attempt is answered. *)
Lemma callAI_first_success_witness :
  let run := callAI (parseAs replyWithDuplicates) noToString defaultOptions
               (worldOf flakyNetwork) in
  fst run = Ok replyWithDuplicates
  /\ requests (snd run) = 2%nat
  /\ waits (snd run) = [6000%Z].
Proof.
  apply (@callAI_first_success (parseAs replyWithDuplicates) noToString
           defaultOptions (worldOf flakyNetwork) 1 (fun _ => connectionReset)
           replyWithDuplicates).
  - vm_compute. lia.
  - intros [|j] Hj; [vm_compute; reflexivity|exfalso; lia].
  - vm_compute; reflexivity.
Defined.

(** The connection is reset at each of the two attempts of [chunkOptions]. *)
Lemma callAI_all_fail_witness :
  let run := callAI (parseAs replyWithDuplicates) noToString chunkOptions
               (worldOf (fun _ => NetFail connectionReset)) in
  fst run = Throw networkUnstable
  /\ requests (snd run) = 2%nat
  /\ waits (snd run) = [6000%Z].
Proof.
  apply (@callAI_all_fail (parseAs replyWithDuplicates) noToString chunkOptions
           (worldOf (fun _ => NetFail connectionReset))
           (fun _ => connectionReset)).
  - vm_compute. lia.
  - intros j Hj. vm_compute; reflexivity.
Defined.

(** The report made of two chunk results of score 60. *)
Lemma report_score_in_range_witness :
  scoreInRange (rp_score (reportOf (reduceSync (parseAs replyWithDuplicates)
                                      noToString noToNumber demoChunkResults
                                      (worldOf (fun _ => chatAnswer))))).
Proof.
  apply (@report_score_in_range (parseAs replyWithDuplicates) noToString
           noToNumber demoChunkResults (worldOf (fun _ => chatAnswer))
           (snd (reduceSync (parseAs replyWithDuplicates)
                   noToString noToNumber demoChunkResults
                   (worldOf (fun _ => chatAnswer))))).
  - repeat constructor; vm_compute; discriminate.
  - vm_compute; reflexivity.
Defined.

End AiProps.

Module RoutesProps.
Import Eff Ai Routes AiSpec AiProps ListSpec ListFacts.

Section ExportFacts.
Variable ToString : json -> jsstring.
Local Open Scope Z_scope.

Lemma falsy_convertible v : truthyV v = false -> convertible v = true.
Proof. destruct v; cbn; try reflexivity; discriminate. Qed.

Lemma convertible_orElse_inv v d :
  convertible (orElse v d) = true -> convertible v = true.
Proof.
  unfold orElse. destruct (truthyV v) eqn:Ht; [auto|].
  intros _. now apply falsy_convertible.
Qed.

Lemma getProp_present v name :
  match v with JUndefined | JNull => false | _ => true end = true ->
  getProp v name = Ok (getPropOpt v name).
Proof. destruct v; try discriminate; reflexivity. Qed.

Lemma annotationText_ok a :
  readable a = true -> exists text, annotationText ToString a = Ok text.
Proof.
  unfold readable. intros H.
  apply andb_prop in H as [H Hre]. apply andb_prop in H as [H Hde].
  apply andb_prop in H as [H Hti]. apply andb_prop in H as [Hrisk Hlb].
  unfold annotationText, hasRisk in *.
  rewrite !(getProp_present _ _ Hrisk). cbn [bindR].
  unfold converted, checkConvertible.
  rewrite Hlb, Hti, Hde, convertible_orElse by (assumption || reflexivity).
  destruct (truthyV (getPropOpt (an_risk a) "legalBasis")); cbn [bindR];
    eexists; reflexivity.
Qed.

Lemma annotationText_throws a :
  readable a = false -> exists e, annotationText ToString a = Throw e.
Proof.
  unfold readable, annotationText, hasRisk. intros H.
  destruct (match an_risk a with JUndefined | JNull => false | _ => true end)
    eqn:Hrisk.
  - rewrite !(getProp_present _ _ Hrisk). cbn [bindR andb] in *.
    unfold converted, checkConvertible.
    destruct (truthyV (getPropOpt (an_risk a) "legalBasis")) eqn:Ht;
      [|rewrite (falsy_convertible _ Ht) in H];
      destruct (convertible (getPropOpt (an_risk a) "legalBasis"));
      cbn [bindR andb] in *; try (eexists; reflexivity);
      destruct (convertible (getPropOpt (an_risk a) "title"));
      cbn [bindR andb] in *; try (eexists; reflexivity);
      destruct (convertible (getPropOpt (an_risk a) "description"));
      cbn [bindR andb] in *; try (eexists; reflexivity);
      (destruct (convertible (orElse (getPropOpt (an_risk a) "recommendation") _))
         eqn:Hs; cbn [bindR]; [|eexists; reflexivity];
       apply convertible_orElse_inv in Hs; congruence).
  - destruct (an_risk a); try discriminate; cbn; eexists; reflexivity.
Qed.

Lemma insertAnnotation_ok s a s' :
  insertAnnotation ToString s a = Ok s' ->
  readable a = true
  /\ s' = firstn (relativeIndex s (insertPos a)) s ++ textOf ToString a
          ++ skipn (relativeIndex s (insertPos a)) s.
Proof.
  unfold insertAnnotation, textOf. intros H.
  destruct (readable a) eqn:Hr.
  - destruct (annotationText_ok a Hr) as (text & Ht). rewrite Ht in *.
    cbn [bindR] in H. inversion H. auto.
  - destruct (annotationText_throws a Hr) as (e & Ht). rewrite Ht in H.
    discriminate.
Qed.

Lemma annotateLoop_inserts : forall l s r,
  annotateLoop ToString l s = Ok r ->
  Subsequence s r
  /\ length r = (length s + textsLength ToString l)%nat
  /\ Forall (fun a => readable a = true) l.
Proof.
  induction l as [|a l IH]; intros s r H; cbn [annotateLoop] in H.
  - inversion H; subst. cbn. split; [apply Subsequence_refl|]. split; [lia|constructor].
  - destruct (insertAnnotation ToString s a) as [s'|e] eqn:Hs; [|discriminate].
    cbn [bindR] in H. destruct (insertAnnotation_ok _ _ Hs) as (Hr & ->).
    destruct (IH _ _ H) as (Hsub & Hlen & Hall).
    split; [|split].
    + eapply Subsequence_trans; [apply Subsequence_insert|exact Hsub].
    + rewrite Hlen, !length_app. cbn [textsLength fold_right].
      pose proof (f_equal (@length _) (firstn_skipn (relativeIndex s (insertPos a)) s)) as Hfs.
      rewrite length_app in Hfs. fold (textsLength ToString l). lia.
    + now constructor.
Qed.

Lemma annotateLoop_total : forall l s,
  Forall (fun a => readable a = true) l -> exists r, annotateLoop ToString l s = Ok r.
Proof.
  induction l as [|a l IH]; intros s H; cbn [annotateLoop].
  - now exists s.
  - inversion H; subst. unfold insertAnnotation.
    destruct (annotationText_ok a H2) as (text & ->). cbn [bindR]. now apply IH.
Qed.

Lemma insertByPosition_perm a l : Permutation (a :: l) (insertByPosition a l).
Proof.
  induction l as [|x l IH]; cbn [insertByPosition]; [reflexivity|].
  destruct (position x <=? position a); [reflexivity|].
  rewrite perm_swap. now constructor.
Qed.

Lemma sortByPosition_perm l : Permutation l (sortByPosition l).
Proof.
  induction l as [|a l IH]; cbn [sortByPosition fold_right]; [constructor|].
  rewrite <- insertByPosition_perm. now constructor.
Qed.

Lemma textsLength_perm l l' :
  Permutation l l' -> textsLength ToString l = textsLength ToString l'.
Proof.
  unfold textsLength.
  induction 1 as [|x l l' Hp IH|x y l|l l' l'' Hp1 IH1 Hp2 IH2];
    cbn [fold_right]; [reflexivity|now rewrite IH|lia|congruence].
Qed.

Lemma insertByPosition_sorted a l :
  StronglySorted (fun x y => position y <= position x) l ->
  StronglySorted (fun x y => position y <= position x) (insertByPosition a l).
Proof.
  induction 1 as [|x l Hs IH Hx]; cbn [insertByPosition].
  - constructor; constructor.
  - destruct (position x <=? position a) eqn:Hc.
    + constructor; [now constructor|]. constructor; [lia|].
      eapply Forall_impl; [|exact Hx]. cbn. intros; lia.
    + constructor; [exact IH|].
      rewrite <- insertByPosition_perm. constructor; [lia|exact Hx].
Qed.

Lemma sortByPosition_sorted l :
  StronglySorted (fun x y => position y <= position x) (sortByPosition l).
Proof.
  induction l as [|a l IH]; cbn [sortByPosition fold_right]; [constructor|].
  now apply insertByPosition_sorted.
Qed.

Lemma occursAt_end content a :
  occursAt content a ->
  let p := Z.to_nat (position a) in
  let e := Z.to_nat (insertPos a) in
  (e <= length content)%nat
  /\ (p <= e)%nat
  /\ firstn e content = firstn p content ++ an_clause a
  /\ length (firstn p content) = p.
Proof.
  intros (Hp & Hne & Hat). cbn zeta. unfold insertPos.
  assert (He : Z.to_nat (position a + Z.of_nat (length (an_clause a)))
               = (Z.to_nat (position a) + length (an_clause a))%nat) by lia.
  rewrite He.
  pose proof (f_equal (@length _) Hat) as Hlen.
  rewrite length_firstn, length_skipn in Hlen.
  assert (length (an_clause a) <> 0%nat) by (destruct (an_clause a); [congruence|discriminate]).
  repeat split; try lia.
  - now rewrite firstn_plus, Hat.
  - rewrite length_firstn. lia.
Qed.

Lemma relativeIndex_within s k :
  0 <= k -> (Z.to_nat k <= length s)%nat -> relativeIndex s k = Z.to_nat k.
Proof.
  intros Hk Hle. unfold relativeIndex.
  replace (k <? 0) with false by lia. f_equal. lia.
Qed.

Lemma annotateLoop_places content : forall l s b r (done : list Annotation),
  StronglySorted endsBefore l ->
  Forall (occursAt content) l ->
  (forall y, In y l -> (Z.to_nat (insertPos y) <= b)%nat) ->
  (b <= length content)%nat ->
  firstn b s = firstn b content ->
  (forall x y, In x done -> In y l -> endsBefore x y) ->
  (forall x, In x done ->
     exists pre post,
       s = pre ++ an_clause x ++ textOf ToString x ++ post
       /\ (Z.to_nat (position x) <= length pre)%nat) ->
  annotateLoop ToString l s = Ok r ->
  forall x, In x (done ++ l) ->
    exists pre post, r = pre ++ an_clause x ++ textOf ToString x ++ post.
Proof.
  induction l as [|y l IH]; intros s b r done Hsorted Hocc Hb Hbc Hagree Hsep Hdone Hrun x Hx.
  - cbn in Hrun. inversion Hrun; subst. rewrite app_nil_r in Hx.
    destruct (Hdone x Hx) as (pre & post & -> & _). eauto.
  - cbn [annotateLoop] in Hrun.
    destruct (insertAnnotation ToString s y) as [s'|e] eqn:Hs; [|discriminate].
    cbn [bindR] in Hrun. destruct (insertAnnotation_ok _ _ Hs) as (Hr & Hs').
    apply StronglySorted_inv in Hsorted. destruct Hsorted as [Hsorted' Hy].
    pose proof (Forall_inv Hocc) as Hoy.
    pose proof (Forall_inv_tail Hocc) as Hocc'.
    destruct (occursAt_end Hoy) as (Hend & Hpe & Hfirst & Hplen).
    set (p := Z.to_nat (position y)) in *.
    set (e := Z.to_nat (insertPos y)) in *.
    assert (Heb : (e <= b)%nat) by (apply Hb; now left).
    assert (Hsl : (b <= length s)%nat).
    { pose proof (f_equal (@length _) Hagree) as H.
      rewrite !length_firstn in H. lia. }
    assert (Hk : relativeIndex s (insertPos y) = e).
    { apply relativeIndex_within; [destruct Hoy; unfold insertPos; lia|fold e; lia]. }
    rewrite Hk in Hs'.
    assert (Hes : firstn e s = firstn e content).
    { replace e with (Nat.min e b) by lia.
      now rewrite <- !firstn_firstn, Hagree. }
    replace (done ++ y :: l) with ((done ++ [y]) ++ l) in Hx
      by now rewrite <- app_assoc.
    revert x Hx. apply (IH s' e r (done ++ [y])); auto.
    + intros z Hz. rewrite Forall_forall in Hy.
      destruct (Hy z Hz) as [<-|Hle]; [fold e; lia|].
      destruct Hoy as (Hp0 & _). fold e.
      rewrite Forall_forall in Hocc'. destruct (Hocc' z Hz) as (Hz0 & _).
      unfold e, insertPos in *. lia.
    + subst s'. rewrite firstn_app.
      rewrite length_firstn.
      replace (e - Nat.min e (length s))%nat with 0%nat by lia.
      rewrite firstn_O, app_nil_r, firstn_firstn.
      replace (Nat.min e e) with e by lia. exact Hes.
    + intros x z Hx Hz. apply in_app_or in Hx. destruct Hx as [Hx|[<-|[]]].
      * apply Hsep; [exact Hx|now right].
      * rewrite Forall_forall in Hy. now apply Hy.
    + intros x Hx. apply in_app_or in Hx.
      assert (Hnew : exists pre post,
                 s' = pre ++ an_clause y ++ textOf ToString y ++ post
                 /\ (Z.to_nat (position y) <= length pre)%nat).
      { exists (firstn p content), (skipn e s). split.
        - rewrite Hs', Hes, Hfirst, <- !app_assoc. reflexivity.
        - fold p. lia. }
      destruct Hx as [Hx|[<-|[]]]; [|exact Hnew].
      destruct (Hsep x y Hx (or_introl eq_refl)) as [<-|Hle]; [exact Hnew|].
      destruct (Hdone x Hx) as (pre & post & Hsx & Hpre).
      assert (Hep : (e <= length pre)%nat).
      { destruct Hoy as (Hp0 & _). unfold e. unfold insertPos in *. lia. }
      exists (firstn e pre ++ textOf ToString y ++ skipn e pre), post. split.
      * rewrite Hs', Hsx. rewrite firstn_app, skipn_app.
        replace (e - length pre)%nat with 0%nat by lia.
        rewrite firstn_O, skipn_O, app_nil_r, <- !app_assoc. reflexivity.
      * rewrite !length_app.
        pose proof (f_equal (@length _) (firstn_skipn e pre)) as H.
        rewrite length_app in H. lia.
Qed.

(** The annotations of [/export-docx] are put into the content and nothing
    is taken out: the content can still be read in the annotated content,
    which is longer by the texts of the annotations.  The step throws
    exactly when an annotation has no risk to read, or a risk with a
    title, a description, a legal basis or a recommendation that cannot
    be converted to a string. *)
Theorem annotations_only_insert (content : jsstring) (annotations : list Annotation) :
  (forall annotated,
     annotateContent ToString content annotations = Ok annotated ->
     Subsequence content annotated
     /\ length annotated
        = (length content + textsLength ToString annotations)%nat)
  /\ ((exists annotated, annotateContent ToString content annotations = Ok annotated)
      <-> Forall (fun a => readable a = true) annotations).
Proof.
  unfold annotateContent. split.
  - intros annotated H. destruct (annotateLoop_inserts _ _ H) as (Hsub & Hlen & _).
    split; [exact Hsub|].
    now rewrite Hlen, <- (textsLength_perm (sortByPosition_perm annotations)).
  - split.
    + intros (annotated & H). destruct (annotateLoop_inserts _ _ H) as (_ & _ & Hall).
      rewrite Forall_forall in *. intros a Ha. apply Hall.
      now rewrite <- (sortByPosition_perm annotations).
    + intros Hall. apply annotateLoop_total.
      rewrite Forall_forall in *. intros a Ha. apply Hall.
      now rewrite (sortByPosition_perm annotations).
Qed.

(** Working from the last position to the first keeps the positions
    valid: when the clauses stand in the content at their positions and no
    two of them overlap, the text of every annotation comes right after its
    clause in the annotated content. *)
Theorem annotation_follows_clause (content : jsstring)
    (annotations : list Annotation) (annotated : jsstring) :
  Forall (occursAt content) annotations ->
  (forall a b, In a annotations -> In b annotations -> a = b \/ apart a b) ->
  annotateContent ToString content annotations = Ok annotated ->
  forall a, In a annotations ->
    exists pre post,
      annotated = pre ++ an_clause a ++ textOf ToString a ++ post.
Proof.
  intros Hocc Hapart Hrun a Ha. unfold annotateContent in Hrun.
  pose proof (sortByPosition_perm annotations) as Hperm.
  assert (Hocc' : Forall (occursAt content) (sortByPosition annotations)).
  { rewrite Forall_forall in *. intros x Hx. apply Hocc.
    now rewrite (sortByPosition_perm annotations). }
  apply (@annotateLoop_places content (sortByPosition annotations) content
           (length content) annotated []); auto.
  - apply (@StronglySorted_within _ (fun x y => position y <= position x)
             endsBefore); [|apply sortByPosition_sorted].
    intros x y Hx Hy Hle.
    rewrite <- Hperm in Hx, Hy.
    destruct (Hapart x y Hx Hy) as [->|[H|H]]; [now left| |now right].
    rewrite Forall_forall in Hocc. destruct (Hocc x Hx) as (_ & Hne & _).
    unfold insertPos in H. destruct (an_clause x); [congruence|].
    cbn [length] in H. lia.
  - intros y Hy. rewrite Forall_forall in Hocc'.
    now destruct (occursAt_end (Hocc' y Hy)).
  - intros x y [].
  - intros x [].
  - cbn [app]. now rewrite <- Hperm.
Qed.

End ExportFacts.

(** The text of the annotation of the first word follows the word. *)
Lemma annotation_follows_clause_witness :
  exists pre post,
    demoAnnotated
    = pre ++ an_clause firstWord ++ textOf noToString firstWord ++ post.
Proof.
  apply (@annotation_follows_clause noToString (js "ab cd") demoAnnotations
           demoAnnotated); [| | |left; reflexivity].
  - repeat constructor; vm_compute; try discriminate; reflexivity.
  - intros a b [<-|[<-|[]]] [<-|[<-|[]]];
      [now left
      |right; left; vm_compute; discriminate
      |right; right; vm_compute; discriminate
      |now left].
  - vm_compute; reflexivity.
Defined.

End RoutesProps.

Module RagProps.
Import Eff Chunker ChunkerSpec ChunkerFacts ChunkerProps Cosine Rag RagSpec RagFacts.
Import ListSpec ListFacts.

Section IndexFacts.
Local Open Scope eff_scope.

Lemma insertBatches_rows batches : forall w,
  table (snd (insertBatches batches w))
  = table w ++ keptRows (insertError w) (inserts w) batches
  /\ inserts (snd (insertBatches batches w)) = (inserts w + length batches)%nat
  /\ insertError (snd (insertBatches batches w)) = insertError w.
Proof.
  induction batches as [|batch rest IH]; intros w; cbn [insertBatches].
  - cbn. rewrite app_nil_r. repeat split. lia.
  - unfold bind, db_insert.
    match goal with |- context [insertBatches rest ?x] => set (w1 := x) end.
    destruct (IH w1) as (Ht & Hi & He). rewrite Ht, Hi, He.
    cbn [w1 table inserts insertError keptRows length].
    split; [|split; [lia|reflexivity]].
    destruct (insertError w (inserts w)); [reflexivity|now rewrite <- app_assoc].
Qed.

Lemma chunkRecords_fields documentId metadata chunks embeddings timestamp :
  map row_content (chunkRecords documentId metadata chunks embeddings timestamp)
  = map chunk_content chunks
  /\ Forall (fun row => document_id row = documentId
                        /\ (embedding row = JNull \/ truthyV (embedding row) = true))
       (chunkRecords documentId metadata chunks embeddings timestamp).
Proof.
  unfold chunkRecords. generalize 0%nat.
  induction chunks as [|c chunks IH]; intros i; cbn [mapi_from map].
  - split; constructor.
  - destruct (IH (S i)) as [IH1 IH2]. split; [now rewrite IH1|].
    constructor; [|exact IH2]. cbn. split; [reflexivity|].
    unfold orElse. destruct (truthyV (nth i embeddings JUndefined)) eqn:Ht; auto.
Qed.

(** The rows [indexDocument] writes: the chunks go to the database in
    batches of at most twenty rows, one insert for each batch; the rows of
    the batches whose insert succeeds are added to the table in order, the
    others are lost; each row holds the content of its chunk and an
    embedding that is [null] or truthy. *)
Theorem indexDocument_rows (documentId text : jsstring) (metadata : json)
    (w : World) :
  exists chunks embeddings w' result,
    smartChunk text CHUNK_CONFIG = Ok chunks
    /\ indexDocument documentId text metadata w = (Ok result, w')
    /\ let records := chunkRecords documentId metadata chunks embeddings (now w) in
       let batches := slices 20 records in
       table w' = table w ++ keptRows (insertError w) (inserts w) batches
       /\ inserts w' = (inserts w + length batches)%nat
       /\ length batches = ((length chunks + 19) / 20)%nat
       /\ Forall (fun batch => (length batch <= 20)%nat) batches
       /\ concat batches = records
       /\ map row_content records = map chunk_content chunks
       /\ Forall (fun row => document_id row = documentId
                             /\ (embedding row = JNull
                                 \/ truthyV (embedding row) = true)) records.
Proof.
  destruct (smartChunk_flush text CHUNK_CONFIG) as (emitted & cur & Hchunks).
  set (chunks := finalFlush CHUNK_CONFIG emitted cur) in Hchunks.
  exists chunks.
  set (texts := map chunk_content chunks).
  set (embed := tryCatch (Ai.getBatchEmbeddings texts) (fun _ => embedEach texts)).
  assert (Hk : keepsDb embed).
  { apply keepsDb_tryCatch; [apply keepsDb_getBatchEmbeddings|].
    intros _. apply embedEach_ok. }
  assert (Ho : exists l, fst (embed w) = Ok l).
  { unfold embed, tryCatch.
    destruct (Ai.getBatchEmbeddings texts w) as [[l|e] w1]; [eexists; reflexivity|].
    apply embedEach_ok. }
  destruct Ho as [embeddings Ho]. destruct (Hk w) as (Ht & He & Hi & Hn).
  destruct (embed w) as [r w1] eqn:Hembed. cbn [fst snd] in *. subst r.
  exists embeddings.
  set (records := chunkRecords documentId metadata chunks embeddings (now w1)).
  destruct (insertBatches_rows (slices 20 records) w1) as (Hrows & Hins & _).
  pose proof (insertBatches_spec (slices 20 records) w1) as (Hok & _).
  destruct (insertBatches (slices 20 records) w1) as [r w2] eqn:Hrun.
  cbn [fst snd] in *. subst r.
  assert (Hlen : length records = length chunks) by apply length_mapi_from.
  exists w2, {| success := true; chunkCount := length records; chunks := chunks |}.
  split; [exact Hchunks|]. split.
  - unfold indexDocument. rewrite Hchunks. apply tryCatch_ok.
    erewrite bind_ok by reflexivity. fold texts. fold embed.
    erewrite bind_ok by exact Hembed.
    erewrite bind_ok by reflexivity. fold records.
    erewrite bind_ok by exact Hrun.
    reflexivity.
  - cbn zeta. rewrite <- Hn. fold records.
    rewrite Hrows, Hins, Ht, He, Hi.
    split; [reflexivity|]. split; [reflexivity|].
    split; [unfold slices; rewrite slicesFrom_count by lia; now rewrite Hlen|].
    split; [apply slicesFrom_sizes|].
    split; [unfold slices; apply concat_slicesFrom; lia|].
    apply chunkRecords_fields.
Qed.

End IndexFacts.

Section CosineMore.
Import PrimFloat.
Local Open Scope float_scope.

(** The order of the two vectors does not matter: [cosineSimilarity(a, b)]
    and [cosineSimilarity(b, a)] are the same binary64 value, NaN and the
    0 of the guard included. *)
Theorem cosine_similarity_symmetric (vecA vecB : option (list float)) :
  cosineSimilarity vecA vecB = cosineSimilarity vecB vecA.
Proof.
  destruct vecA as [a|], vecB as [b|]; try reflexivity.
  unfold cosineSimilarity. rewrite (Nat.eqb_sym (length b)).
  destruct (length a =? length b)%nat eqn:Hlen; [|reflexivity].
  apply Nat.eqb_eq in Hlen. cbn [negb].
  rewrite (accumulate_dot a b 0 0 0 Hlen), (accumulate_dot b a 0 0 0 (eq_sym Hlen)).
  rewrite (mul_comm (sqrt _) (sqrt _)). f_equal.
  clear Hlen. generalize 0. revert b.
  induction a as [|x a IH]; intros [|y b] d; try reflexivity.
  cbn [combine fold_left fst snd]. rewrite (mul_comm y x). apply IH.
Qed.

End CosineMore.

Section ContextFacts.
Local Open Scope Z_scope.
Variable toPercent : json -> jsstring.

Lemma Subsequence_snoc_skip {A} (l l' : list A) x :
  Subsequence l l' -> Subsequence l (l' ++ [x]).
Proof.
  induction 1 as [|y l l' _ IH|y l l' _ IH]; cbn.
  - apply sub_skip, sub_nil.
  - apply sub_skip, IH.
  - apply sub_take, IH.
Qed.

Lemma Subsequence_snoc_take {A} (l l' : list A) x :
  Subsequence l l' -> Subsequence (l ++ [x]) (l' ++ [x]).
Proof.
  induction 1 as [|y l l' _ IH|y l l' _ IH]; cbn.
  - apply sub_take, sub_nil.
  - apply sub_skip, IH.
  - apply sub_take, IH.
Qed.

Lemma hitsTokens_snoc hits hit :
  hitsTokens (hits ++ [hit]) = hitsTokens hits + estimateTokens (hit_content hit).
Proof.
  unfold hitsTokens. induction hits as [|h hits IH]; cbn [app fold_right]; [lia|].
  rewrite IH. lia.
Qed.

Lemma hitsTokens_nonneg hits : 0 <= hitsTokens hits.
Proof.
  unfold hitsTokens. induction hits as [|h hits IH]; cbn [fold_right]; [lia|].
  pose proof (estimateTokens_nonneg (hit_content h)). lia.
Qed.

Lemma stripSpace_entry hit :
  exists r, stripSpace (contextEntry toPercent hit) = 0x2D%N :: r.
Proof.
  unfold contextEntry. rewrite !stripSpace_app, stripSpace_LFLF. cbn [app].
  eexists. vm_compute (stripSpace (js "---")). reflexivity.
Qed.

Lemma contextStep_inv seen st hit :
  contextInv seen st -> contextInv (seen ++ [hit]) (contextStep toPercent st hit).
Proof.
  destruct st as [[context tokenCount] selected].
  intros (Htok & Hmax & Hsub & Hnil & Hsome). unfold contextStep.
  destruct (_ <=? _) eqn:Hfit.
  - apply Z.leb_le in Hfit. unfold contextInv.
    split; [rewrite hitsTokens_snoc; lia|]. split; [exact Hfit|].
    split; [now apply Subsequence_snoc_take|].
    split; [now destruct selected|]. intros _.
    rewrite stripSpace_app. destruct (stripSpace_entry hit) as [r ->].
    now destruct (stripSpace context).
  - unfold contextInv. repeat split; auto. now apply Subsequence_snoc_skip.
Qed.

Lemma contextLoop_inv hits : forall seen st,
  contextInv seen st ->
  contextInv (seen ++ hits) (fold_left (contextStep toPercent) hits st).
Proof.
  induction hits as [|hit hits IH]; intros seen st H; cbn [fold_left].
  - now rewrite app_nil_r.
  - replace (seen ++ hit :: hits) with ((seen ++ [hit]) ++ hits)
      by now rewrite <- app_assoc.
    apply IH, contextStep_inv, H.
Qed.

(** The context [buildContext] selects: its chunks are the relevant chunks
    with some left out, in the same order; [tokenCount] is the sum of
    their estimates and at most 4000, so a chunk whose estimate exceeds
    4000 is never selected; and the context is the empty string exactly
    when no chunk is selected. *)
Theorem buildContext_budget (relevantChunks : list Hit) :
  let result := buildContext toPercent relevantChunks in
  Subsequence (ctx_chunks result) relevantChunks
  /\ tokenCount result = hitsTokens (ctx_chunks result)
  /\ tokenCount result <= 4000
  /\ (forall hit, In hit (ctx_chunks result) ->
                  estimateTokens (hit_content hit) <= 4000)
  /\ (context result = [] <-> ctx_chunks result = []).
Proof.
  intros result.
  assert (Hinv : Subsequence (ctx_chunks result) relevantChunks
                 /\ tokenCount result = hitsTokens (ctx_chunks result)
                 /\ tokenCount result <= 4000
                 /\ (context result = [] <-> ctx_chunks result = [])).
  { unfold result, buildContext.
    destruct relevantChunks as [|h hits].
    - cbn. repeat split; auto; try constructor; lia.
    - assert (H0 : contextInv [] ([], 0, [])).
      { unfold contextInv, maxContextTokens. cbn [hitsTokens fold_right].
        split; [reflexivity|]. split; [lia|]. split; [constructor|].
        split; [reflexivity|]. intros H; now elim H. }
      pose proof (@contextLoop_inv (h :: hits) [] ([], 0, []) H0) as H.
      cbn [app] in H.
      destruct (fold_left _ _ _) as [[ctx count] selected].
      destruct H as (Htok & Hmax & Hsub & Hnil & Hsome).
      cbn [ctx_chunks tokenCount context].
      split; [exact Hsub|]. split; [exact Htok|]. split; [exact Hmax|].
      split.
      + intros Hctx. destruct selected as [|x l]; [reflexivity|exfalso].
        apply Hsome; [discriminate|].
        rewrite <- stripSpace_trim. now rewrite Hctx.
      + intros ->. now rewrite Hnil. }
  destruct Hinv as (Hsub & Htok & Hmax & Hctx).
  repeat split; try tauto.
  intros hit Hin. rewrite Htok in Hmax. clear - Hin Hmax.
  induction (ctx_chunks result) as [|x l IH]; [destruct Hin|].
  cbn [hitsTokens fold_right] in Hmax. fold (hitsTokens l) in Hmax.
  pose proof (hitsTokens_nonneg l). pose proof (estimateTokens_nonneg (hit_content x)).
  destruct Hin as [-> | Hin]; [lia|apply IH; [lia|exact Hin]].
Qed.

End ContextFacts.

End RagProps.
